(** * OwnMusicBot: the per-guild queue and playback life cycle

    A shallow embedding of the two bot variants of the repository,
    [OwnedBot.py] (module [OwnedBot]) and [OwnDMusicBot.2.0.py] (module
    [OwnDMusicBot2]), and the properties of their command handlers; the
    [setup_dependencies] function that both scripts run first is module
    [Setup].

    Modelling conventions.
    - A command handler is a state transformer in the monad [M]: it threads
      the module-level dictionaries of the script and may raise a Python
      exception; the state reached when the exception is raised is kept,
      as Python keeps it.
    - A handler runs to completion: the interleavings that the event loop
      allows at an [await] are outside the model.
    - What leaves the process is recorded in the [log] of the state:
      every [ctx.send], every [ytdl.extract_info] call and every
      [voice_client.play] call, in program order.
    - [str] is modelled by [string]; on these strings [str.isdigit] is the
      test for a non-empty run of the characters 0 to 9.
    - The gain of a source is a Python float; it is modelled by the
      rational it is the rounding of: the default 0.5, and [volume / 100]
      for the gain that the [volume] command sets. *)

From Stdlib Require Import ZArith QArith Lia Ascii String.
From stdpp Require Import base option list gmap strings pretty.

Close Scope Q_scope.
Open Scope Z_scope.

(** ** Python values used by both scripts *)

Section python.

(** *** Strings

    A [string] stands for the [str] of which it is the UTF-8 encoding.
    [chars] gives the characters of that [str], each with its code point
    and with the bytes that encode it; it is [None] for bytes that are
    the encoding of no [str]. *)

Definition byte_value (b : ascii) : Z := Z.of_N (N_of_ascii b).

(** The payload of a continuation byte, [10xxxxxx]. *)
Definition continuation (b : ascii) : option Z :=
  if (128 <=? byte_value b) && (byte_value b <? 192)
  then Some (byte_value b - 128) else None.

Fixpoint chars (s : string) : option (list (Z * string)) :=
  match s with
  | EmptyString => Some []
  | String b0 r0 =>
      let v := byte_value b0 in
      if v <? 128 then cons (v, String b0 "") <$> chars r0
      else if v <? 194 then None
      else if v <? 224 then
        match r0 with
        | String b1 r1 =>
            match continuation b1 with
            | Some x1 =>
                cons ((v - 192) * 64 + x1, String b0 (String b1 "")) <$> chars r1
            | None => None
            end
        | EmptyString => None
        end
      else if v <? 240 then
        match r0 with
        | String b1 (String b2 r2) =>
            match continuation b1, continuation b2 with
            | Some x1, Some x2 =>
                let c := (v - 224) * 4096 + x1 * 64 + x2 in
                if (2048 <=? c) && negb ((55296 <=? c) && (c <=? 57343))
                then cons (c, String b0 (String b1 (String b2 ""))) <$> chars r2
                else None
            | _, _ => None
            end
        | _ => None
        end
      else if v <? 245 then
        match r0 with
        | String b1 (String b2 (String b3 r3)) =>
            match continuation b1, continuation b2, continuation b3 with
            | Some x1, Some x2, Some x3 =>
                let c := (v - 240) * 262144 + x1 * 4096 + x2 * 64 + x3 in
                if (65536 <=? c) && (c <=? 1114111)
                then cons (c, String b0 (String b1 (String b2 (String b3 ""))))
                       <$> chars r3
                else None
            | _, _, _ => None
            end
        | _ => None
        end
      else None
  end.

(** The decimal digits of the Unicode database of CPython 3.11 (Unicode
    14.0), the characters of category Nd: runs of ten characters with the
    values 0 to 9, each run given by the code point of its zero. *)
Definition decimal_zeros : list Z :=
  [48; 1632; 1776; 1984; 2406; 2534; 2662; 2790;
   2918; 3046; 3174; 3302; 3430; 3558; 3664; 3792;
   3872; 4160; 4240; 6112; 6160; 6470; 6608; 6784;
   6800; 6992; 7088; 7232; 7248; 42528; 43216; 43264;
   43472; 43504; 43600; 44016; 65296; 66720; 68912; 69734;
   69872; 69942; 70096; 70384; 70736; 70864; 71248; 71360;
   71472; 71904; 72016; 72784; 73040; 73120; 92768; 92864;
   93008; 120782; 120792; 120802; 120812; 120822; 123200; 123632;
   125264; 130032].

(** The other characters that have a digit value (Numeric_Type=Digit):
    superscripts, subscripts, circled digits and the like, as ranges of
    code points. *)
Definition other_digits : list (Z * Z) :=
  [(178, 179); (185, 185); (4969, 4977); (6618, 6618); (8304, 8304);
   (8308, 8313); (8320, 8329); (9312, 9320); (9332, 9340); (9352, 9360);
   (9450, 9450); (9461, 9469); (9471, 9471); (10102, 10110); (10112, 10120);
   (10122, 10130); (68160, 68163); (69216, 69224); (69714, 69722); (127232, 127242)].

(** [Py_UNICODE_TODECIMAL] *)
Definition decimal (c : Z) : option Z :=
  (fun zero => c - zero) <$>
  List.find (fun zero => (zero <=? c) && (c <? zero + 10)) decimal_zeros.

(** [Py_UNICODE_ISDIGIT] *)
Definition is_digit (c : Z) : bool :=
  match decimal c with
  | Some _ => true
  | None => existsb (fun r => (r.1 <=? c) && (c <=? r.2)) other_digits
  end.

(** [str.isdigit()]: there is at least one character and every character
    is a digit. *)
Definition isdigit (s : string) : bool :=
  match chars s with
  | Some (c :: cs) => forallb (fun c => is_digit c.1) (c :: cs)
  | _ => false
  end.

(** [len(l)] *)
Definition len {A} (l : list A) : Z := Z.of_nat (length l).

Definition nl : string := String (ascii_of_nat 10) EmptyString.

(** [sep.join(l)] *)
Definition str_join (sep : string) (l : list string) : string := String.concat sep l.

(** [enumerate(l)], counted from [i]. *)
Fixpoint enumerate_from {A} (i : Z) (l : list A) : list (Z * A) :=
  match l with
  | [] => []
  | x :: r => (i, x) :: enumerate_from (i + 1) r
  end.

Definition enumerate {A} (l : list A) : list (Z * A) := enumerate_from 0 l.

(** The f-string [f"{i+1}. {t}"] of the listings. *)
Definition numbered (it : Z * string) : string :=
  pretty (it.1 + 1) +:+ ". " +:+ it.2.

End python.

(** ** Exceptions and the handler monad *)

Inductive exn_class :=
  | AttributeError | IndexError | ValueError | OverflowError
  | ClientException | DownloadError | HttpError | LoginFailure | OSError
  | NotOwner.

Record exn := Exn { exn_cls : exn_class; exn_str : string }.

Inductive result (A : Type) :=
  | Ok (a : A)
  | Raise (e : exn).
Arguments Ok {A} a.
Arguments Raise {A} e.

Definition M (St A : Type) : Type := St -> result A * St.

Section monad.
Context {St : Type}.

Definition ret {A} (a : A) : M St A := fun s => (Ok a, s).

Definition bind {A B} (m : M St A) (k : A -> M St B) : M St B :=
  fun s => match m s with
           | (Ok a, s') => k a s'
           | (Raise e, s') => (Raise e, s')
           end.

Definition raise {A} (e : exn) : M St A := fun s => (Raise e, s).

Definition gets {A} (f : St -> A) : M St A := fun s => (Ok (f s), s).

Definition modify (f : St -> St) : M St unit := fun s => (Ok tt, f s).

(** [try: m  except <classes>: h]; the handler sees the state in which
    the exception was raised. *)
Definition try_except {A} (m : M St A) (catches : exn -> bool)
    (h : exn -> M St A) : M St A :=
  fun s => match m s with
           | (Ok a, s') => (Ok a, s')
           | (Raise e, s') => if catches e then h e s' else (Raise e, s')
           end.

(** [for x in l: body x] *)
Fixpoint for_each {A} (l : list A) (body : A -> M St unit) : M St unit :=
  match l with
  | [] => ret tt
  | x :: r => bind (body x) (fun _ => for_each r body)
  end.

End monad.

Declare Scope handler_scope.
Delimit Scope handler_scope with handler.
Notation "'let*' x ':=' m 'in' k" := (bind m (fun x => k))
  (at level 10, x name, m at level 100, k at level 200) : handler_scope.
Notation "m '>>' k" := (bind m (fun _ => k))
  (at level 100, k at level 200, right associativity) : handler_scope.
Open Scope handler_scope.

(** A property of the state that a computation keeps, whether it returns
    or raises. *)
Definition preserves {St A} (P : St -> Prop) (m : M St A) : Prop :=
  forall s, P s -> P (m s).2.

(** [except Exception] *)
Definition any_exception (e : exn) : bool := true.

Definition is_class (c : exn_class) (e : exn) : bool :=
  match c, exn_cls e with
  | AttributeError, AttributeError | IndexError, IndexError
  | ValueError, ValueError | OverflowError, OverflowError
  | ClientException, ClientException | DownloadError, DownloadError
  | HttpError, HttpError | LoginFailure, LoginFailure
  | OSError, OSError | NotOwner, NotOwner => true
  | _, _ => false
  end.

(** What Python raises on [None.attr]. *)
Definition none_has_no (attr : string) : exn :=
  Exn AttributeError ("'NoneType' object has no attribute '" +:+ attr +:+ "'").

Definition list_index_out_of_range : exn :=
  Exn IndexError "list index out of range".

(** ** Built-in operations that raise

    The interpreter is CPython 3.11 on a 64-bit system, the Python of the
    Debian 12 that [setup_dependencies] is written for. *)

(** [sys.maxsize], the largest index. *)
Definition PY_SSIZE_T_MAX : Z := 2 ^ 63 - 1.

(** [sys.get_int_max_str_digits()], by default. *)
Definition int_max_str_digits : Z := 4300.

(** The values of the decimal digits that a string starts with. *)
Fixpoint leading_decimals (cs : list (Z * string)) : list Z :=
  match cs with
  | c :: r =>
      match decimal c.1 with
      | Some d => d :: leading_decimals r
      | None => []
      end
  | [] => []
  end.

(** The format [%.200R]: the first 200 characters of [repr(s)]. A string
    of digits has no character that [repr] escapes. *)
Definition repr200 (cs : list (Z * string)) : string :=
  String.concat "" (take 200 ("'" :: cs.*2 ++ ["'"])).

(** [int(s)] for a string of digits, which is where both scripts call it,
    behind [s.isdigit()]: the decimal digits of every script count with
    their values; a string that starts with more than 4300 of them is
    refused, and so is a string with a digit that is not decimal, such as
    a superscript. (Elsewhere [int] also accepts blanks, a sign and
    underscores; the scripts never pass such a string.) *)
Definition int (s : string) : result Z :=
  match chars s with
  | Some cs =>
      let digits := leading_decimals cs in
      if int_max_str_digits <? len digits then
        Raise (Exn ValueError
                 ("Exceeds the limit (4300 digits) for integer string conversion: value has "
                  +:+ pretty (len digits)
                  +:+ " digits; use sys.set_int_max_str_digits() to increase the limit"))
      else if (0 <? len digits) && (len digits =? len cs) then
        Ok (foldl (fun acc d => 10 * acc + d) 0 digits)
      else
        Raise (Exn ValueError
                 ("invalid literal for int() with base 10: " +:+ repr200 cs))
  | None => Raise (Exn ValueError "invalid literal for int() with base 10")
  end.

(** [l[i]] for a Python list: an index that is no [Py_ssize_t] is refused
    first; then the length is added to a negative index, and an index
    that is still outside [0, len) has no element. *)
Definition getitem {A} (l : list A) (i : Z) : result A :=
  if (i <? - PY_SSIZE_T_MAX - 1) || (PY_SSIZE_T_MAX <? i) then
    Raise (Exn IndexError "cannot fit 'int' into an index-sized integer")
  else
    let j := if i <? 0 then i + len l else i in
    if (0 <=? j) && (j <? len l) then
      match l !! Z.to_nat j with
      | Some x => Ok x
      | None => Raise list_index_out_of_range
      end
    else Raise list_index_out_of_range.

(** *** ASCII numerals

    The strings that [pretty] writes, for the proofs about the numbers
    in the listings. *)

Definition is_digit_char (c : ascii) : bool :=
  (48 <=? nat_of_ascii c)%nat && (nat_of_ascii c <=? 57)%nat.

Fixpoint all_digits (s : string) : bool :=
  match s with
  | EmptyString => true
  | String c r => is_digit_char c && all_digits r
  end.

Definition digit_val (c : ascii) : Z := Z.of_nat (nat_of_ascii c) - 48.

Fixpoint int_acc (acc : Z) (s : string) : Z :=
  match s with
  | EmptyString => acc
  | String c r => int_acc (10 * acc + digit_val c) r
  end.

(** ** What the scripts get from yt-dlp and discord.py *)

(** An entry of the dictionary returned by [ytdl.extract_info]. *)
Record Entry := { entry_title : string; entry_url : string }.

(** The dictionary itself: with an ["entries"] key, or a single item. *)
Inductive Info :=
  | Playlist (entries : list Entry)
  | Single (data : Entry).

(** [class YTDLSource(discord.PCMVolumeTransformer)] *)
Record YTDLSource := { title : string; url : string; volume : Q }.

(** [YTDLSource.__init__(source, data=data, volume=0.5)] *)
Definition default_volume : Q := Qmake 1 2.

Definition new_YTDLSource (data : Entry) : YTDLSource :=
  {| title := entry_title data; url := entry_url data;
     volume := default_volume |}.

(** The setter of [PCMVolumeTransformer.volume] stores [max(value, 0.0)]. *)
Definition set_volume (value : Q) (p : YTDLSource) : YTDLSource :=
  {| title := title p; url := url p;
     volume := if Qle_bool (Qmake 0 1) value then value else Qmake 0 1 |}.

(** [discord.VoiceClient], as far as the scripts use it. [Src] is what the
    client is asked to play. The audio player of the client keeps its
    source after the stream has ended; [stop] drops the player. *)
Section voice.
Context {Src : Type}.

Record AudioPlayer := { ap_source : Src; ap_paused : bool; ap_ended : bool }.

Record VoiceClient := { vc_connected : bool; vc_player : option AudioPlayer }.

Definition is_playing (vc : VoiceClient) : bool :=
  match vc_player vc with
  | Some p => negb (ap_paused p) && negb (ap_ended p)
  | None => false
  end.

Definition is_paused (vc : VoiceClient) : bool :=
  match vc_player vc with
  | Some p => ap_paused p && negb (ap_ended p)
  | None => false
  end.

Definition source (vc : VoiceClient) : option Src :=
  ap_source <$> vc_player vc.

(** [vc.play(src, after=...)] *)
Definition vc_play (vc : VoiceClient) (src : Src) : result VoiceClient :=
  if negb (vc_connected vc) then
    Raise (Exn ClientException "Not connected to voice.")
  else if is_playing vc then
    Raise (Exn ClientException "Already playing audio.")
  else
    Ok {| vc_connected := vc_connected vc;
          vc_player := Some {| ap_source := src; ap_paused := false;
                               ap_ended := false |} |}.

Definition vc_stop (vc : VoiceClient) : VoiceClient :=
  {| vc_connected := vc_connected vc; vc_player := None |}.

Definition set_paused (b : bool) (p : AudioPlayer) : AudioPlayer :=
  {| ap_source := ap_source p; ap_paused := b; ap_ended := ap_ended p |}.

Definition vc_pause (vc : VoiceClient) : VoiceClient :=
  {| vc_connected := vc_connected vc;
     vc_player := set_paused true <$> vc_player vc |}.

Definition vc_resume (vc : VoiceClient) : VoiceClient :=
  {| vc_connected := vc_connected vc;
     vc_player := set_paused false <$> vc_player vc |}.

(** The stream of the current source runs out. *)
Definition vc_finish (vc : VoiceClient) : VoiceClient :=
  {| vc_connected := vc_connected vc;
     vc_player :=
       (fun p => {| ap_source := ap_source p; ap_paused := ap_paused p;
                    ap_ended := true |}) <$> vc_player vc |}.

(** The three playback states of the specification. *)
Inductive playback := Idle | Playing | Paused.

Definition playback_of (vc : VoiceClient) : playback :=
  if is_playing vc then Playing else if is_paused vc then Paused else Idle.

End voice.
Arguments AudioPlayer : clear implicits.
Arguments VoiceClient : clear implicits.

(** What the bot does to the outside world. *)
Inductive effect (Src : Type) :=
  | Send (guild : Z) (text : string)
  | Extract (query : string)
  | VoicePlay (guild : Z) (src : Src).
Arguments Send {Src} guild text.
Arguments Extract {Src} query.
Arguments VoicePlay {Src} guild src.

(** The invocation context of a command. *)
Record Ctx := { guild_id : Z; author_id : Z; author_in_voice : bool }.

Definition watch_url (video_id : string) : string :=
  "https://www.youtube.com/watch?v=" +:+ video_id.

(** The tracks of an answer of yt-dlp, in the order of the provider. *)
Definition entries_of (info : Info) : list Entry :=
  match info with
  | Playlist entries => entries
  | Single data => [data]
  end.

(** The sources handed to the voice client of a guild, oldest first. *)
Definition played {Src} (g : Z) (l : list (effect Src)) : list Src :=
  omap (fun e => match e with
                 | VoicePlay g' src => if bool_decide (g' = g) then Some src else None
                 | _ => None
                 end) l.

(** The messages sent to a guild, oldest first. *)
Definition sent {Src} (g : Z) (l : list (effect Src)) : list string :=
  omap (fun e => match e with
                 | Send g' text => if bool_decide (g' = g) then Some text else None
                 | _ => None
                 end) l.

(** The two operations on the queue of one guild: the loop of [play] that
    appends a batch of tracks, and the end of the current track followed
    by the [after] callback. *)
Inductive queue_op (Src : Type) :=
  | Enqueue (players : list Src)
  | Advance.
Arguments Enqueue {Src} players.
Arguments Advance {Src}.

Fixpoint enqueued {Src} (ops : list (queue_op Src)) : list Src :=
  match ops with
  | [] => []
  | Enqueue players :: r => players ++ enqueued r
  | Advance :: r => enqueued r
  end.


(** The world outside the process: the answers of yt-dlp, of the YouTube
    search API (given the API key and the query), of a Discord login with
    a token and of a file write, and the user who owns the bot. *)
Record World := {
  ytdl_extract_info : string -> result Info;
  youtube_search : string -> string -> result (list (string * string));
  discord_login : string -> result unit;
  write_file : string -> result unit;
  owner_id : Z
}.

(** A command of [discord.ext.commands]: its checks run first and a
    failing [is_owner()] check raises [NotOwner]; whatever the invocation
    raises goes to the [.error] handler of the command when it has one,
    and otherwise to the framework, which sends nothing. *)
Definition not_owner : exn := Exn NotOwner "You do not own this bot.".

Definition invoke {St} (check : bool) (callback : M St unit)
    (on_error : option (exn -> M St unit)) : M St unit :=
  let invocation := if check then callback else raise not_owner in
  match on_error with
  | Some handler => try_except invocation any_exception handler
  | None => invocation
  end.

(** ** OwnedBot.py *)

Module OwnedBot.

(** The module-level globals of the script, the voice client of each
    guild ([ctx.voice_client], absent when it is [None]), the cookie file
    and the log of effects. No handler of this variant assigns to a field
    of a [YTDLSource] after its construction, so the instances are held by
    value. *)
Record State := {
  song_queues : gmap Z (list YTDLSource);
  stop_flags : gmap Z bool;
  search_results : gmap Z (list (string * string));
  voice_clients : gmap Z (VoiceClient YTDLSource);
  TOKEN : string;
  YOUTUBE_API_KEY : string;
  cookie_file : option string;
  log : list (effect YTDLSource)
}.

Definition with_song_queues (f : gmap Z (list YTDLSource) -> gmap Z (list YTDLSource))
    (s : State) : State :=
  {| song_queues := f (song_queues s); stop_flags := stop_flags s;
     search_results := search_results s; voice_clients := voice_clients s;
     TOKEN := TOKEN s; YOUTUBE_API_KEY := YOUTUBE_API_KEY s;
     cookie_file := cookie_file s; log := log s |}.

Definition with_stop_flags (f : gmap Z bool -> gmap Z bool) (s : State) : State :=
  {| song_queues := song_queues s; stop_flags := f (stop_flags s);
     search_results := search_results s; voice_clients := voice_clients s;
     TOKEN := TOKEN s; YOUTUBE_API_KEY := YOUTUBE_API_KEY s;
     cookie_file := cookie_file s; log := log s |}.

Definition with_search_results
    (f : gmap Z (list (string * string)) -> gmap Z (list (string * string)))
    (s : State) : State :=
  {| song_queues := song_queues s; stop_flags := stop_flags s;
     search_results := f (search_results s); voice_clients := voice_clients s;
     TOKEN := TOKEN s; YOUTUBE_API_KEY := YOUTUBE_API_KEY s;
     cookie_file := cookie_file s; log := log s |}.

Definition with_voice_clients
    (f : gmap Z (VoiceClient YTDLSource) -> gmap Z (VoiceClient YTDLSource))
    (s : State) : State :=
  {| song_queues := song_queues s; stop_flags := stop_flags s;
     search_results := search_results s; voice_clients := f (voice_clients s);
     TOKEN := TOKEN s; YOUTUBE_API_KEY := YOUTUBE_API_KEY s;
     cookie_file := cookie_file s; log := log s |}.

Definition with_TOKEN (t : string) (s : State) : State :=
  {| song_queues := song_queues s; stop_flags := stop_flags s;
     search_results := search_results s; voice_clients := voice_clients s;
     TOKEN := t; YOUTUBE_API_KEY := YOUTUBE_API_KEY s;
     cookie_file := cookie_file s; log := log s |}.

Definition with_YOUTUBE_API_KEY (k : string) (s : State) : State :=
  {| song_queues := song_queues s; stop_flags := stop_flags s;
     search_results := search_results s; voice_clients := voice_clients s;
     TOKEN := TOKEN s; YOUTUBE_API_KEY := k;
     cookie_file := cookie_file s; log := log s |}.

Definition with_cookie_file (c : option string) (s : State) : State :=
  {| song_queues := song_queues s; stop_flags := stop_flags s;
     search_results := search_results s; voice_clients := voice_clients s;
     TOKEN := TOKEN s; YOUTUBE_API_KEY := YOUTUBE_API_KEY s;
     cookie_file := c; log := log s |}.

Definition emit (e : effect YTDLSource) (s : State) : State :=
  {| song_queues := song_queues s; stop_flags := stop_flags s;
     search_results := search_results s; voice_clients := voice_clients s;
     TOKEN := TOKEN s; YOUTUBE_API_KEY := YOUTUBE_API_KEY s;
     cookie_file := cookie_file s; log := log s ++ [e] |}.

(** The script as it starts: empty dictionaries, the placeholders of the
    credentials, no voice client, nothing sent. *)
Definition initial : State :=
  {| song_queues := ∅; stop_flags := ∅; search_results := ∅;
     voice_clients := ∅; TOKEN := "DISCORD_TOKEN_HERE";
     YOUTUBE_API_KEY := "API_KEY_HERE"; cookie_file := None; log := [] |}.

(** The credentials and the cookie file: what the owner commands set. *)
Definition config (s : State) : string * string * option string :=
  (TOKEN s, YOUTUBE_API_KEY s, cookie_file s).

(** The pending tracks of a guild, none when it has no queue yet. *)
Definition pending (s : State) (g : Z) : list YTDLSource :=
  default [] (song_queues s !! g).

(** [server_id in stop_flags and stop_flags[server_id]] *)
Definition stopping (s : State) (g : Z) : bool :=
  default false (stop_flags s !! g).

Section handlers.
Context (world : World).

(** [await ctx.send(text)] *)
Definition send (ctx : Ctx) (text : string) : M State unit :=
  modify (emit (Send (guild_id ctx) text)).

(** [ctx.voice_client.<attr>], which raises when the client is [None]. *)
Definition voice_client (ctx : Ctx) (attr : string) : M State (VoiceClient YTDLSource) :=
  let* vcs := gets voice_clients in
  match vcs !! guild_id ctx with
  | Some vc => ret vc
  | None => raise (none_has_no attr)
  end.

Definition set_voice_client (ctx : Ctx) (vc : VoiceClient YTDLSource) : M State unit :=
  modify (with_voice_clients <[guild_id ctx := vc]>).

(** [ctx.voice_client.play(player, after=...)] *)
Definition voice_play (ctx : Ctx) (player : YTDLSource) : M State unit :=
  let* vc := voice_client ctx "play" in
  match vc_play vc player with
  | Ok vc' =>
      set_voice_client ctx vc' >>
      modify (emit (VoicePlay (guild_id ctx) player))
  | Raise e => raise e
  end.

(** [YTDLSource.from_url(url, loop=bot.loop)] *)
Definition from_url (query : string) : M State (list YTDLSource) :=
  modify (emit (Extract query)) >>
  match ytdl_extract_info world query with
  | Ok (Playlist entries) => ret (new_YTDLSource <$> entries)
  | Ok (Single data) => ret [new_YTDLSource data]
  | Raise e => raise e
  end.

(** [play_next(ctx)], also the [after] callback of every track it starts. *)
Definition play_next (ctx : Ctx) : M State unit :=
  let server_id := guild_id ctx in
  let* flags := gets stop_flags in
  if default false (flags !! server_id) then
    modify (with_stop_flags <[server_id := false]>)
  else
    let* queues := gets song_queues in
    match queues !! server_id with
    | Some (player :: rest) =>
        modify (with_song_queues <[server_id := rest]>) >>
        voice_play ctx player >>
        send ctx ("**Now playing:** " +:+ title player)
    | _ => send ctx "Queue is empty."
    end.

Definition join (ctx : Ctx) (author_name : string) : M State unit :=
  if negb (author_in_voice ctx) then
    send ctx (author_name +:+ " is not connected to a voice channel")
  else
    let* vcs := gets voice_clients in
    match vcs !! guild_id ctx with
    | Some _ => raise (Exn ClientException "Already connected to a voice channel.")
    | None => set_voice_client ctx {| vc_connected := true; vc_player := None |}
    end.

Definition leave (ctx : Ctx) : M State unit :=
  let* vc := voice_client ctx "is_connected" in
  if vc_connected vc then
    modify (with_voice_clients (delete (guild_id ctx)))
  else
    send ctx "The bot is not connected to a voice channel.".

(** [YOUTUBE_API_KEY] is a [str] from the start and [set_api_key] stores
    a [str], so the [is None] branch at the top of [search] is never
    taken. *)
Definition search (ctx : Ctx) (query : string) : M State unit :=
  try_except
    (let* key := gets YOUTUBE_API_KEY in
     match youtube_search world key query with
     | Raise e => raise e
     | Ok videos =>
         match videos with
         | [] => send ctx "No songs found for that query."
         | _ =>
             modify (with_search_results <[guild_id ctx := videos]>) >>
             send ctx ("**Search Results:**" +:+ nl +:+
                       String.concat ""
                         ((fun it => numbered (it.1, it.2.1) +:+ nl)
                            <$> enumerate videos))
         end
     end)
    any_exception
    (fun e => send ctx ("An error occurred during search: " +:+ exn_str e)).

(** [for player in players: song_queues[server_id].append(player)] *)
Definition append (server_id : Z) (player : YTDLSource) : M State unit :=
  modify (with_song_queues
            (fun qs => <[server_id := default [] (qs !! server_id) ++ [player]]> qs)).

Definition enqueue (server_id : Z) (players : list YTDLSource) : M State unit :=
  for_each players (append server_id).

(** The first step of the [try] block of [play]: what a query that is a
    number selects from the last search of the guild. [Ok None] is the
    branch that reports an invalid number and returns, [Ok (Some q)] the
    query that goes on to [from_url]. [int(query)] is evaluated only when
    the guild has search results, and a second time for the index, with
    the same result. *)
Definition selection (results : gmap Z (list (string * string)))
    (server_id : Z) (query : string) : result (option string) :=
  if isdigit query then
    match results !! server_id with
    | Some videos =>
        match int query with
        | Raise e => Raise e
        | Ok n =>
            if (1 <=? n) && (n <=? len videos) then
              match getitem videos (n - 1) with
              | Ok video => Ok (Some (watch_url video.2))
              | Raise e => Raise e
              end
            else Ok None
        end
    | None => Ok None
    end
  else Ok (Some query).

(** [if server_id not in song_queues: ...], the first statement of [play]. *)
Definition ensure_queue (server_id : Z) : M State unit :=
  let* queues := gets song_queues in
  match queues !! server_id with
  | Some _ => ret tt
  | None =>
      modify (with_song_queues <[server_id := []]>) >>
      modify (with_stop_flags <[server_id := false]>)
  end.

(** The [try] block of [play]. *)
Definition play_try (ctx : Ctx) (query : string) : M State unit :=
  let server_id := guild_id ctx in
  let* results := gets search_results in
  match selection results server_id query with
  | Raise e => raise e
  | Ok None => send ctx "Invalid number from search results."
  | Ok (Some query) =>
      let* players := from_url query in
      match players with
      | [] => send ctx "Could not find any songs with that query."
      | first :: _ =>
          enqueue server_id players >>
          (if 1 <? len players then
             send ctx ("**Added " +:+ pretty (len players) +:+ " songs to the queue.**")
           else
             send ctx ("**Added to queue:** " +:+ title first)) >>
          let* vc := voice_client ctx "is_playing" in
          if negb (is_playing vc) then play_next ctx else ret tt
      end
  end.

Definition play (ctx : Ctx) (query : string) : M State unit :=
  ensure_queue (guild_id ctx) >>
  try_except (play_try ctx query) any_exception
    (fun e => send ctx ("An error occurred: " +:+ exn_str e)).

Definition pause (ctx : Ctx) : M State unit :=
  let* vc := voice_client ctx "is_playing" in
  if is_playing vc then set_voice_client ctx (vc_pause vc)
  else send ctx "The bot is not playing anything at the moment.".

Definition resume (ctx : Ctx) : M State unit :=
  let* vc := voice_client ctx "is_paused" in
  if is_paused vc then set_voice_client ctx (vc_resume vc)
  else send ctx "The bot was not playing anything before this. Use play_url command".

(** The text of the [queue] listing. *)
Definition queue_list (players : list YTDLSource) : string :=
  str_join nl ((fun it => numbered (it.1, title it.2)) <$> enumerate players).

Definition queue (ctx : Ctx) : M State unit :=
  let* queues := gets song_queues in
  match queues !! guild_id ctx with
  | Some (player :: rest) =>
      send ctx ("**Current Queue:**" +:+ nl +:+ queue_list (player :: rest))
  | _ => send ctx "The queue is empty."
  end.

Definition skip (ctx : Ctx) : M State unit :=
  let* vc := voice_client ctx "is_playing" in
  if is_playing vc then
    set_voice_client ctx (vc_stop vc) >>
    send ctx "Skipped the song."
  else send ctx "Not playing anything.".

Definition clear (ctx : Ctx) : M State unit :=
  let server_id := guild_id ctx in
  let* queues := gets song_queues in
  (match queues !! server_id with
   | Some _ => modify (with_song_queues <[server_id := []]>)
   | None => ret tt
   end) >>
  send ctx "Queue has been cleared.".

Definition stop (ctx : Ctx) : M State unit :=
  let server_id := guild_id ctx in
  let* queues := gets song_queues in
  (match queues !! server_id with
   | Some _ => modify (with_song_queues <[server_id := []]>)
   | None => ret tt
   end) >>
  let* vc := voice_client ctx "is_playing" in
  (if is_playing vc then
     modify (with_stop_flags <[server_id := true]>) >>
     set_voice_client ctx (vc_stop vc)
   else ret tt) >>
  send ctx "Music stopped and queue cleared.".

(** The end of the stream of the current track, followed by the [after]
    callback that [play_next] registered for it. *)
Definition track_finished (ctx : Ctx) : M State unit :=
  modify (with_voice_clients (fun vcs =>
    match vcs !! guild_id ctx with
    | Some vc => <[guild_id ctx := vc_finish vc]> vcs
    | None => vcs
    end)) >>
  play_next ctx.

(** *** The owner commands *)

Definition is_owner (ctx : Ctx) : bool :=
  bool_decide (author_id ctx = owner_id world).

(** The three [.error] handlers have the same body. *)
Definition owner_command_error (ctx : Ctx) (error : exn) : M State unit :=
  if is_class NotOwner error then send ctx "You are not the owner of this bot."
  else ret tt.

Definition set_token_callback (ctx : Ctx) (new_token : string) : M State unit :=
  try_except
    (match discord_login world new_token with
     | Raise e => raise e
     | Ok _ =>
         modify (with_TOKEN new_token) >>
         send ctx "Token has been updated. Please restart the bot for the change to take effect."
     end)
    (is_class LoginFailure)
    (fun _ => send ctx "The provided token is invalid.").

Definition set_token (ctx : Ctx) (new_token : string) : M State unit :=
  invoke (is_owner ctx) (set_token_callback ctx new_token)
    (Some (owner_command_error ctx)).

Definition set_yt_cookie_callback (ctx : Ctx) (cookie_content : string) : M State unit :=
  try_except
    (match write_file world cookie_content with
     | Raise e => raise e
     | Ok _ =>
         modify (with_cookie_file (Some cookie_content)) >>
         send ctx "YouTube cookie has been set. Please restart the bot for the change to take effect."
     end)
    any_exception
    (fun e => send ctx ("An error occurred while setting the cookie: " +:+ exn_str e)).

Definition set_yt_cookie (ctx : Ctx) (cookie_content : string) : M State unit :=
  invoke (is_owner ctx) (set_yt_cookie_callback ctx cookie_content)
    (Some (owner_command_error ctx)).

Definition set_api_key_callback (ctx : Ctx) (api_key : string) : M State unit :=
  modify (with_YOUTUBE_API_KEY api_key) >>
  send ctx "YouTube API key has been set.".

Definition set_api_key (ctx : Ctx) (api_key : string) : M State unit :=
  invoke (is_owner ctx) (set_api_key_callback ctx api_key)
    (Some (owner_command_error ctx)).

Definition run_op (ctx : Ctx) (o : queue_op YTDLSource) : M State unit :=
  match o with
  | Enqueue players => enqueue (guild_id ctx) players
  | Advance => track_finished ctx
  end.

Definition run_ops (ctx : Ctx) (ops : list (queue_op YTDLSource)) : M State unit :=
  for_each ops (run_op ctx).

(** What can happen to the bot: a command of a member, the end of the
    stream of the current track (with its [after] callback), or the
    [after] callback alone, which the voice client also runs when the
    track is stopped. *)
Inductive event :=
  | Join (ctx : Ctx) (author_name : string)
  | Leave (ctx : Ctx)
  | Search (ctx : Ctx) (query : string)
  | Play (ctx : Ctx) (query : string)
  | Pause (ctx : Ctx)
  | Resume (ctx : Ctx)
  | Queue (ctx : Ctx)
  | Skip (ctx : Ctx)
  | Clear (ctx : Ctx)
  | Stop (ctx : Ctx)
  | SetToken (ctx : Ctx) (new_token : string)
  | SetYtCookie (ctx : Ctx) (cookie_content : string)
  | SetApiKey (ctx : Ctx) (api_key : string)
  | TrackFinished (ctx : Ctx)
  | AfterCallback (ctx : Ctx).

Definition handle (e : event) : M State unit :=
  match e with
  | Join ctx author_name => join ctx author_name
  | Leave ctx => leave ctx
  | Search ctx query => search ctx query
  | Play ctx query => play ctx query
  | Pause ctx => pause ctx
  | Resume ctx => resume ctx
  | Queue ctx => queue ctx
  | Skip ctx => skip ctx
  | Clear ctx => clear ctx
  | Stop ctx => stop ctx
  | SetToken ctx new_token => set_token ctx new_token
  | SetYtCookie ctx cookie_content => set_yt_cookie ctx cookie_content
  | SetApiKey ctx api_key => set_api_key ctx api_key
  | TrackFinished ctx => track_finished ctx
  | AfterCallback ctx => play_next ctx
  end.

End handlers.

(** The invocation context of an event. *)
Definition event_ctx (e : event) : Ctx :=
  match e with
  | Join ctx _ | Leave ctx | Search ctx _ | Play ctx _ | Pause ctx
  | Resume ctx | Queue ctx | Skip ctx | Clear ctx | Stop ctx
  | SetToken ctx _ | SetYtCookie ctx _ | SetApiKey ctx _
  | TrackFinished ctx | AfterCallback ctx => ctx
  end.

(** The states that follow a state: any number of events later, whatever
    the outside world answers to each. The states the bot can be in are
    those that follow the start. *)
Inductive reachable_from (s0 : State) : State -> Prop :=
  | reachable_here : reachable_from s0 s0
  | reachable_step world e s :
      reachable_from s0 s -> reachable_from s0 (handle world e s).2.

Definition reachable : State -> Prop := reachable_from initial.

(** All that the script keeps for one guild. *)
Definition guild_view (s : State) (g : Z) :=
  (song_queues s !! g, stop_flags s !! g, search_results s !! g,
   voice_clients s !! g).

(** The stop flag of a guild is set only while its voice client has no
    audio player. *)
Definition flag_means_stopped (s : State) : Prop :=
  forall g vc,
    stopping s g = true -> voice_clients s !! g = Some vc -> vc_player vc = None.

(** Whether [play], having appended its tracks in state [s], goes on to
    dequeue one: the guild has a voice client that is not playing, and the
    stop flag that [play_next] will read is not set. *)
Definition advances (s : State) (g : Z) : bool :=
  match voice_clients s !! g with
  | Some vc =>
      negb (is_playing vc) &&
      negb (match song_queues s !! g with
            | Some _ => stopping s g
            | None => false
            end)
  | None => false
  end.

(** The text that [queue] sends for a list of pending tracks. *)
Definition queue_text (players : list YTDLSource) : string :=
  match players with
  | [] => "The queue is empty."
  | _ :: _ => "**Current Queue:**" +:+ nl +:+ queue_list players
  end.

(** The state that [ensure_queue] leaves. *)
Definition queue_ensured (g : Z) (s : State) : State :=
  match song_queues s !! g with
  | Some _ => s
  | None => with_stop_flags <[g := false]> (with_song_queues <[g := []]> s)
  end.

End OwnedBot.


(** ** OwnDMusicBot.2.0.py *)

Module OwnDMusicBot2.

(** This variant has a [volume] command that assigns to a field of the
    source being played, so the [YTDLSource] instances are kept in a store
    ([objects]) and the queues and voice clients hold references to them:
    the position of the instance in the store. *)
Abbreviation ref := nat (only parsing).

(** The dictionaries of the cog (a queue is the content of the
    [asyncio.Queue] of the guild, front first), the voice clients, the
    module-level credentials, the store and the log of effects. *)
Record State := {
  song_queues : gmap Z (list ref);
  search_results : gmap Z (list (string * string));
  voice_clients : gmap Z (VoiceClient ref);
  objects : list YTDLSource;
  TOKEN : string;
  YOUTUBE_API_KEY : string;
  log : list (effect ref)
}.

Definition with_song_queues (f : gmap Z (list ref) -> gmap Z (list ref))
    (s : State) : State :=
  {| song_queues := f (song_queues s); search_results := search_results s;
     voice_clients := voice_clients s; objects := objects s;
     TOKEN := TOKEN s; YOUTUBE_API_KEY := YOUTUBE_API_KEY s; log := log s |}.

Definition with_search_results
    (f : gmap Z (list (string * string)) -> gmap Z (list (string * string)))
    (s : State) : State :=
  {| song_queues := song_queues s; search_results := f (search_results s);
     voice_clients := voice_clients s; objects := objects s;
     TOKEN := TOKEN s; YOUTUBE_API_KEY := YOUTUBE_API_KEY s; log := log s |}.

Definition with_voice_clients
    (f : gmap Z (VoiceClient ref) -> gmap Z (VoiceClient ref))
    (s : State) : State :=
  {| song_queues := song_queues s; search_results := search_results s;
     voice_clients := f (voice_clients s); objects := objects s;
     TOKEN := TOKEN s; YOUTUBE_API_KEY := YOUTUBE_API_KEY s; log := log s |}.

Definition with_objects (f : list YTDLSource -> list YTDLSource)
    (s : State) : State :=
  {| song_queues := song_queues s; search_results := search_results s;
     voice_clients := voice_clients s; objects := f (objects s);
     TOKEN := TOKEN s; YOUTUBE_API_KEY := YOUTUBE_API_KEY s; log := log s |}.

Definition with_TOKEN (t : string) (s : State) : State :=
  {| song_queues := song_queues s; search_results := search_results s;
     voice_clients := voice_clients s; objects := objects s;
     TOKEN := t; YOUTUBE_API_KEY := YOUTUBE_API_KEY s; log := log s |}.

Definition with_YOUTUBE_API_KEY (k : string) (s : State) : State :=
  {| song_queues := song_queues s; search_results := search_results s;
     voice_clients := voice_clients s; objects := objects s;
     TOKEN := TOKEN s; YOUTUBE_API_KEY := k; log := log s |}.

Definition emit (e : effect ref) (s : State) : State :=
  {| song_queues := song_queues s; search_results := search_results s;
     voice_clients := voice_clients s; objects := objects s;
     TOKEN := TOKEN s; YOUTUBE_API_KEY := YOUTUBE_API_KEY s;
     log := log s ++ [e] |}.

Definition initial : State :=
  {| song_queues := ∅; search_results := ∅; voice_clients := ∅;
     objects := []; TOKEN := "DISCORD_TOKEN_HERE";
     YOUTUBE_API_KEY := "API_KEY_HERE"; log := [] |}.

Definition config (s : State) : string * string :=
  (TOKEN s, YOUTUBE_API_KEY s).

Definition pending (s : State) (g : Z) : list ref :=
  default [] (song_queues s !! g).

(** [player.title] and [player.volume] of the instance behind a reference. *)
Definition title_of (s : State) (player : ref) : string :=
  from_option title "" (objects s !! player).

Definition volume_of (s : State) (player : ref) : option Q :=
  volume <$> objects s !! player.

Section handlers.
Context (world : World).

Definition send (ctx : Ctx) (text : string) : M State unit :=
  modify (emit (Send (guild_id ctx) text)).

Definition voice_client (ctx : Ctx) (attr : string) : M State (VoiceClient ref) :=
  let* vcs := gets voice_clients in
  match vcs !! guild_id ctx with
  | Some vc => ret vc
  | None => raise (none_has_no attr)
  end.

Definition set_voice_client (ctx : Ctx) (vc : VoiceClient ref) : M State unit :=
  modify (with_voice_clients <[guild_id ctx := vc]>).

Definition voice_play (ctx : Ctx) (player : ref) : M State unit :=
  let* vc := voice_client ctx "play" in
  match vc_play vc player with
  | Ok vc' =>
      set_voice_client ctx vc' >>
      modify (emit (VoicePlay (guild_id ctx) player))
  | Raise e => raise e
  end.

(** The list comprehension of [from_url]: one new instance per entry, in
    the order of the entries. *)
Definition construct (entries : list Entry) : M State (list ref) :=
  let* objs := gets objects in
  modify (with_objects (fun o => o ++ (new_YTDLSource <$> entries))) >>
  ret (seq (length objs) (length entries)).

Definition from_url (url : string) : M State (list ref) :=
  modify (emit (Extract url)) >>
  match ytdl_extract_info world url with
  | Ok (Playlist entries) => construct entries
  | Ok (Single data) => construct [data]
  | Raise e => raise e
  end.

Definition get_queue (ctx : Ctx) : M State (list ref) :=
  let* queues := gets song_queues in
  match queues !! guild_id ctx with
  | Some q => ret q
  | None => modify (with_song_queues <[guild_id ctx := []]>) >> ret []
  end.

(** [await queue.put(player)] on the queue of the guild; the queue has no
    bound, so the call never waits. *)
Definition put (server_id : Z) (player : ref) : M State unit :=
  modify (with_song_queues
            (fun qs => <[server_id := default [] (qs !! server_id) ++ [player]]> qs)).

Definition enqueue (server_id : Z) (players : list ref) : M State unit :=
  for_each players (put server_id).

Definition play_next (ctx : Ctx) : M State unit :=
  let* queue := get_queue ctx in
  let* vcs := gets voice_clients in
  match queue, vcs !! guild_id ctx with
  | player :: rest, Some _ =>
      modify (with_song_queues <[guild_id ctx := rest]>) >>
      voice_play ctx player >>
      let* s := gets id in
      send ctx ("**Now playing:** " +:+ title_of s player)
  | _, _ => ret tt
  end.

Definition join (ctx : Ctx) : M State unit :=
  if negb (author_in_voice ctx) then
    send ctx "You are not connected to a voice channel."
  else
    let* vcs := gets voice_clients in
    match vcs !! guild_id ctx with
    | Some _ => ret tt
    | None => set_voice_client ctx {| vc_connected := true; vc_player := None |}
    end.

Definition leave (ctx : Ctx) : M State unit :=
  let* vcs := gets voice_clients in
  match vcs !! guild_id ctx with
  | Some _ => modify (with_voice_clients (delete (guild_id ctx)))
  | None => ret tt
  end.

Definition search (ctx : Ctx) (query : string) : M State unit :=
  let* key := gets YOUTUBE_API_KEY in
  if bool_decide (key = "") then send ctx "YouTube API key is not set."
  else
    try_except
      (match youtube_search world key query with
       | Raise e => raise e
       | Ok videos =>
           match videos with
           | [] => send ctx "No songs found."
           | _ =>
               modify (with_search_results <[guild_id ctx := videos]>) >>
               send ctx ("**Search Results:**" +:+ nl +:+
                         str_join nl
                           ((fun it => numbered (it.1, it.2.1)) <$> enumerate videos))
           end
       end)
      any_exception
      (fun e => send ctx ("An error occurred during search: " +:+ exn_str e)).

(** The first step of the [try] block of [play]: the [url] that goes to
    [from_url]. *)
Definition selection (results : gmap Z (list (string * string)))
    (server_id : Z) (query : string) : result string :=
  match isdigit query, results !! server_id with
  | true, Some videos =>
      match int query with
      | Raise e => Raise e
      | Ok n =>
          match getitem videos (n - 1) with
          | Ok video => Ok (watch_url video.2)
          | Raise e => Raise e
          end
      end
  | _, _ => Ok query
  end.

(** The [try] block of [play]. *)
Definition play_try (ctx : Ctx) (query : string) : M State unit :=
  let server_id := guild_id ctx in
  let* results := gets search_results in
  let* url :=
    match selection results server_id query with
    | Ok url => ret url
    | Raise e => raise e
    end in
  let* players := from_url url in
  enqueue server_id players >>
  (if 1 <? len players then
     send ctx ("**Added " +:+ pretty (len players) +:+ " songs to the queue.**")
   else
     match players with
     | first :: _ =>
         let* s := gets id in
         send ctx ("**Added to queue:** " +:+ title_of s first)
     | [] => raise list_index_out_of_range
     end) >>
  let* vc := voice_client ctx "is_playing" in
  if negb (is_playing vc) then play_next ctx else ret tt.

Definition play (ctx : Ctx) (query : string) : M State unit :=
  get_queue ctx >>
  try_except (play_try ctx query) any_exception
    (fun e => send ctx ("An error occurred: " +:+ exn_str e)).

(** [volume / 100]: the true division of two [int]s gives the float
    nearest to the quotient, and raises when that is beyond the largest
    float, that is from 2^1024 - 2^970 on. *)
Definition percent (volume : Z) : result Q :=
  if Z.abs volume <? 100 * (2 ^ 1024 - 2 ^ 970) then Ok (Qmake volume 100)
  else Raise (Exn OverflowError "integer division result too large for a float").

Definition volume (ctx : Ctx) (volume : Z) : M State unit :=
  let* vcs := gets voice_clients in
  match vcs !! guild_id ctx ≫= source with
  | Some current =>
      match percent volume with
      | Ok gain =>
          modify (with_objects (fun o =>
            match o !! current with
            | Some p => <[current := set_volume gain p]> o
            | None => o
            end)) >>
          send ctx ("Volume set to " +:+ pretty volume +:+ "%")
      | Raise e => raise e
      end
  | None => ret tt
  end.

Definition nowplaying (ctx : Ctx) : M State unit :=
  let* vcs := gets voice_clients in
  match vcs !! guild_id ctx ≫= source with
  | Some current =>
      let* s := gets id in
      send ctx ("**Now playing:** " +:+ title_of s current)
  | None => send ctx "Not playing anything."
  end.

Definition queue_list (s : State) (players : list ref) : string :=
  str_join nl ((fun it => numbered (it.1, title_of s it.2)) <$> enumerate players).

Definition queue_info (ctx : Ctx) : M State unit :=
  let* queue := get_queue ctx in
  match queue with
  | _ :: _ =>
      let* s := gets id in
      send ctx ("**Current Queue:**" +:+ nl +:+ queue_list s queue)
  | [] => send ctx "The queue is empty."
  end.

Definition skip (ctx : Ctx) : M State unit :=
  let* vcs := gets voice_clients in
  match vcs !! guild_id ctx with
  | Some vc =>
      if is_playing vc then
        set_voice_client ctx (vc_stop vc) >>
        send ctx "Skipped the song."
      else ret tt
  | None => ret tt
  end.

(** [while not queue.empty(): await queue.get()] *)
Fixpoint drain (server_id : Z) (queue : list ref) : M State unit :=
  match queue with
  | [] => ret tt
  | _ :: rest =>
      modify (with_song_queues <[server_id := rest]>) >> drain server_id rest
  end.

Definition stop (ctx : Ctx) : M State unit :=
  let* queue := get_queue ctx in
  drain (guild_id ctx) queue >>
  let* vcs := gets voice_clients in
  (match vcs !! guild_id ctx with
   | Some vc => set_voice_client ctx (vc_stop vc)
   | None => ret tt
   end) >>
  send ctx "Music stopped and queue cleared.".

Definition track_finished (ctx : Ctx) : M State unit :=
  modify (with_voice_clients (fun vcs =>
    match vcs !! guild_id ctx with
    | Some vc => <[guild_id ctx := vc_finish vc]> vcs
    | None => vcs
    end)) >>
  play_next ctx.

(** *** The owner commands; neither has an [.error] handler. *)

Definition is_owner (ctx : Ctx) : bool :=
  bool_decide (author_id ctx = owner_id world).

Definition set_token_callback (ctx : Ctx) (new_token : string) : M State unit :=
  modify (with_TOKEN new_token) >>
  send ctx "Token updated. Please restart the bot.".

Definition set_token (ctx : Ctx) (new_token : string) : M State unit :=
  invoke (is_owner ctx) (set_token_callback ctx new_token) None.

Definition set_api_key_callback (ctx : Ctx) (api_key : string) : M State unit :=
  modify (with_YOUTUBE_API_KEY api_key) >>
  send ctx "YouTube API key updated.".

Definition set_api_key (ctx : Ctx) (api_key : string) : M State unit :=
  invoke (is_owner ctx) (set_api_key_callback ctx api_key) None.

Definition run_op (ctx : Ctx) (o : queue_op ref) : M State unit :=
  match o with
  | Enqueue players => enqueue (guild_id ctx) players
  | Advance => track_finished ctx
  end.

Definition run_ops (ctx : Ctx) (ops : list (queue_op ref)) : M State unit :=
  for_each ops (run_op ctx).

(** What can happen to the bot: a command of a member, the end of the
    stream of the current track (with its [after] callback), or the
    [after] callback alone, which the voice client also runs when the
    track is stopped. *)
Inductive event :=
  | Join (ctx : Ctx)
  | Leave (ctx : Ctx)
  | Search (ctx : Ctx) (query : string)
  | Play (ctx : Ctx) (query : string)
  | Volume (ctx : Ctx) (volume : Z)
  | NowPlaying (ctx : Ctx)
  | QueueInfo (ctx : Ctx)
  | Skip (ctx : Ctx)
  | Stop (ctx : Ctx)
  | SetToken (ctx : Ctx) (new_token : string)
  | SetApiKey (ctx : Ctx) (api_key : string)
  | TrackFinished (ctx : Ctx)
  | AfterCallback (ctx : Ctx).

Definition handle (e : event) : M State unit :=
  match e with
  | Join ctx => join ctx
  | Leave ctx => leave ctx
  | Search ctx query => search ctx query
  | Play ctx query => play ctx query
  | Volume ctx v => volume ctx v
  | NowPlaying ctx => nowplaying ctx
  | QueueInfo ctx => queue_info ctx
  | Skip ctx => skip ctx
  | Stop ctx => stop ctx
  | SetToken ctx new_token => set_token ctx new_token
  | SetApiKey ctx api_key => set_api_key ctx api_key
  | TrackFinished ctx => track_finished ctx
  | AfterCallback ctx => play_next ctx
  end.

End handlers.

(** The states that follow a state: any number of events later, whatever
    the outside world answers to each. The states the bot can be in are
    those that follow the start. *)
Inductive reachable_from (s0 : State) : State -> Prop :=
  | reachable_here : reachable_from s0 s0
  | reachable_step world e s :
      reachable_from s0 s -> reachable_from s0 (handle world e s).2.

Definition reachable : State -> Prop := reachable_from initial.

(** A reference is queued when some guild has it pending. *)
Definition queued (s : State) (r : ref) : Prop :=
  exists g q, song_queues s !! g = Some q /\ r ∈ q.

(** A reference is current when it is the source of some voice client. *)
Definition current (s : State) (r : ref) : Prop :=
  exists g vc, voice_clients s !! g = Some vc /\ source vc = Some r.

(** The queues and the store of a reachable state: every pending
    reference is pending once, in one guild, is not the source of a voice
    client, and is an instance that still has the default gain; every
    source of a voice client is an instance of the store. *)
Record consistent (s : State) : Prop := {
  queues_nodup : forall g q, song_queues s !! g = Some q -> NoDup q;
  queues_disjoint : forall g g' q q' r,
    g <> g' -> song_queues s !! g = Some q -> song_queues s !! g' = Some q' ->
    r ∈ q -> r ∉ q';
  queued_default : forall r, queued s r -> volume_of s r = Some default_volume;
  queued_not_current : forall r, queued s r -> ~ current s r;
  current_allocated : forall r, current s r -> (r < length (objects s))%nat
}.

(** The invocation context of an event. *)
Definition event_ctx (e : event) : Ctx :=
  match e with
  | Join ctx | Leave ctx | Search ctx _ | Play ctx _ | Volume ctx _
  | NowPlaying ctx | QueueInfo ctx | Skip ctx | Stop ctx
  | SetToken ctx _ | SetApiKey ctx _ | TrackFinished ctx
  | AfterCallback ctx => ctx
  end.

(** All that the cog keeps for one guild. *)
Definition guild_view (s : State) (g : Z) :=
  (song_queues s !! g, search_results s !! g, voice_clients s !! g).

(** From [s] to [s'], every track handed to a voice client has the
    default gain in [s']. *)
Definition starts_default (s s' : State) : Prop :=
  forall g, exists out,
    played g (log s') = played g (log s) ++ out /\
    forall r, r ∈ out -> volume_of s' r = Some default_volume.

End OwnDMusicBot2.


(** ** setup_dependencies, the same function in both scripts *)

Module Setup.

(** How a [subprocess.run(..., check=True)] or [subprocess.check_call]
    ends: the command exits with status 0, it exits with another status
    ([CalledProcessError], with its captured [stderr] and its [str]), or
    the program is not found ([FileNotFoundError], with its [str]). *)
Inductive run_outcome :=
  | Completed
  | CalledProcessError (stderr : string) (str : string)
  | FileNotFoundError (str : string).

(** The machine the script starts on. *)
Record System := {
  platform : string;
  debian_version_exists : bool;
  executable : string;
  run : list string -> run_outcome
}.

(** What the function does to the machine: a line printed, or a command
    run with the given additions to the environment. *)
Inductive effect :=
  | Print (text : string)
  | Run (env : list (string * string)) (argv : list string).

(** How the function ends: it returns, [sys.exit(code)], or an exception
    that nothing catches. *)
Inductive ending :=
  | Returned
  | SystemExit (code : Z)
  | Uncaught (e : exn).

Definition apt_packages : list string := ["python3"; "ffmpeg"; "python3-pip"].

Definition pip_packages : list string :=
  ["discord.py"; "yt-dlp"; "PyNaCl"; "google-api-python-client"].

Definition apt_update : list string := ["apt"; "update"; "-y"].

Definition apt_install : list string := ["apt"; "install"; "-y"] ++ apt_packages.

Definition pip_install (sys : System) : list string :=
  [executable sys; "-m"; "pip"; "install"; "--upgrade"] ++ pip_packages
    ++ ["--break-system-packages"].

(** The [except (CalledProcessError, FileNotFoundError) as e] clause of
    the apt step; a [FileNotFoundError] has no [stderr] attribute. *)
Definition apt_failed (stderr : option string) : list effect * ending :=
  match stderr with
  | Some err =>
      ([Print ("Error during apt setup: " +:+ err);
        Print "Please try running 'sudo apt update && sudo apt install python3 ffmpeg python3-pip' manually."],
       SystemExit 1)
  | None =>
      ([], Uncaught (Exn AttributeError
                       "'FileNotFoundError' object has no attribute 'stderr'"))
  end.

Definition stderr_of (o : run_outcome) : option string :=
  match o with
  | CalledProcessError stderr _ => Some stderr
  | _ => None
  end.

(** The pip step. *)
Definition pip_step (sys : System) : list effect * ending :=
  let announce :=
    Print ("Installing Python packages with pip: " +:+ str_join ", " pip_packages
           +:+ "...") in
  match run sys (pip_install sys) with
  | Completed =>
      ([announce; Run [] (pip_install sys); Print "Python dependencies are ready."],
       Returned)
  | CalledProcessError _ str =>
      ([announce; Run [] (pip_install sys);
        Print ("Error during pip installation: " +:+ str)],
       SystemExit 1)
  | FileNotFoundError str =>
      ([announce; Run [] (pip_install sys)], Uncaught (Exn OSError str))
  end.

Definition noninteractive : list (string * string) :=
  [("DEBIAN_FRONTEND", "noninteractive")].

Definition setup_dependencies (sys : System) : list effect * ending :=
  if negb (bool_decide (platform sys = "linux")) || negb (debian_version_exists sys)
  then
    ([Print "Warning: Automatic dependency installation is designed for Debian-based Linux.";
      Print "Please ensure you have 'python3', 'ffmpeg', and 'pip' installed manually."],
     Returned)
  else
    let start :=
      [Print "Debian-based system detected. Setting up dependencies...";
       Print "Updating apt package information...";
       Run [] apt_update] in
    match run sys apt_update with
    | Completed =>
        let install :=
          [Print ("Installing system packages with apt: "
                  +:+ str_join ", " apt_packages +:+ "...");
           Run noninteractive apt_install] in
        match run sys apt_install with
        | Completed =>
            let pip := pip_step sys in
            (start ++ install ++ [Print "System dependencies are ready."] ++ pip.1,
             pip.2)
        | failed =>
            let handler := apt_failed (stderr_of failed) in
            (start ++ install ++ handler.1, handler.2)
        end
    | failed =>
        let handler := apt_failed (stderr_of failed) in
        (start ++ handler.1, handler.2)
    end.

(** The commands among the effects, in the order in which they were run. *)
Definition commands (l : list effect) : list (list string) :=
  omap (fun e => match e with Run _ argv => Some argv | Print _ => None end) l.

End Setup.


(** ** Sample inputs *)

Module Sample.

Definition entry (t : string) : Entry :=
  {| entry_title := t; entry_url := "https://media.example/" +:+ t |}.

(** A world in which the query ["album"] is a playlist of three tracks,
    any other query a single track, every search has two results, and
    user 7 owns the bot. *)
Definition world : World :=
  {| ytdl_extract_info := fun q =>
       if bool_decide (q = "album")
       then Ok (Playlist [entry "A"; entry "B"; entry "C"])
       else Ok (Single (entry q));
     youtube_search := fun _ _ => Ok [("first", "id1"); ("second", "id2")];
     discord_login := fun _ => Ok tt;
     write_file := fun _ => Ok tt;
     owner_id := 7 |}.

(** A member of guild 1 who is in a voice channel and is not the owner. *)
Definition ctx : Ctx := {| guild_id := 1; author_id := 2; author_in_voice := true |}.

Definition track (t : string) : YTDLSource := new_YTDLSource (entry t).

(** [OwnedBot.py] after [?join], after [?join ?search song] and after
    [?join ?play album]. *)
Definition joined1 : OwnedBot.State :=
  (OwnedBot.join ctx "ann" OwnedBot.initial).2.


Definition playing1 : OwnedBot.State :=
  (OwnedBot.play world ctx "album" joined1).2.

(** The same for [OwnDMusicBot.2.0.py]. *)
Definition joined2 : OwnDMusicBot2.State :=
  (OwnDMusicBot2.join ctx OwnDMusicBot2.initial).2.

Definition searched2 : OwnDMusicBot2.State :=
  (OwnDMusicBot2.search world ctx "song" joined2).2.

Definition playing2 : OwnDMusicBot2.State :=
  (OwnDMusicBot2.play world ctx "album" joined2).2.

End Sample.


(** ** More sample inputs *)

Module Scenario.

(** The owner of the bot of [Sample.world], in guild 1. *)
Definition owner : Ctx :=
  {| guild_id := 1; author_id := 7; author_in_voice := true |}.

(** A world in which yt-dlp and the search API fail, only the token
    ["good"] logs in, and user 7 owns the bot. *)
Definition offline : World :=
  {| ytdl_extract_info := fun _ =>
       Raise (Exn DownloadError "ERROR: Unable to download webpage");
     youtube_search := fun _ _ => Raise (Exn HttpError "HttpError 403");
     discord_login := fun t =>
       if bool_decide (t = "good") then Ok tt
       else Raise (Exn LoginFailure "Improper token has been passed.");
     write_file := fun _ => Ok tt;
     owner_id := 7 |}.



(** [OwnedBot.py] after [?join ?play album ?pause]. *)
Definition paused1 : OwnedBot.State :=
  (OwnedBot.pause Sample.ctx Sample.playing1).2.

(** The voice client of guild 1 in [Sample.joined1] and [Sample.joined2],
    and in [Sample.playing1] and [Sample.playing2]. *)
Definition idle {Src} : VoiceClient Src :=
  {| vc_connected := true; vc_player := None |}.

Definition playing {Src} (src : Src) : VoiceClient Src :=
  {| vc_connected := true;
     vc_player := Some {| ap_source := src; ap_paused := false;
                          ap_ended := false |} |}.

(** A machine that is not Linux, and a Debian machine without [apt]. *)
Definition mac : Setup.System :=
  {| Setup.platform := "darwin"; Setup.debian_version_exists := false;
     Setup.executable := "/usr/bin/python3";
     Setup.run := fun _ => Setup.Completed |}.

Definition no_apt : Setup.System :=
  {| Setup.platform := "linux"; Setup.debian_version_exists := true;
     Setup.executable := "/usr/bin/python3";
     Setup.run := fun _ =>
       Setup.FileNotFoundError "[Errno 2] No such file or directory: 'apt'" |}.

End Scenario.


(** ** Facts about the Python values *)





Lemma getitem_in_range {A} (l : list A) i :
  0 <= i < len l -> i <= PY_SSIZE_T_MAX ->
  exists x, l !! Z.to_nat i = Some x /\ getitem l i = Ok x.
Proof.
  intros [Hlo Hhi] Hfit. unfold getitem.
  assert (0 < PY_SSIZE_T_MAX) by done.
  rewrite (proj2 (Z.ltb_ge _ _)) by lia.
  rewrite (proj2 (Z.ltb_ge _ _)) by lia. simpl.
  rewrite (proj2 (Z.ltb_ge i 0)) by lia.
  rewrite (proj2 (Z.leb_le 0 i)) by lia.
  rewrite (proj2 (Z.ltb_lt i (len l))) by lia. simpl.
  destruct (l !! Z.to_nat i) as [x|] eqn:Hx; [by exists x|].
  apply lookup_ge_None in Hx. unfold len in *. lia.
Qed.


(** *** ASCII numerals *)

Lemma is_digit_char_value c :
  is_digit_char c = true ->
  48 <= byte_value c <= 57 /\ digit_val c = byte_value c - 48.
Proof.
  unfold is_digit_char, digit_val, byte_value, nat_of_ascii. intros H.
  apply andb_prop in H as [H1 H2].
  apply Nat.leb_le in H1. apply Nat.leb_le in H2. lia.
Qed.

Lemma decimal_ascii c : 48 <= c <= 57 -> decimal c = Some (c - 48).
Proof.
  intros Hc. unfold decimal, decimal_zeros. cbn [List.find].
  rewrite (proj2 (Z.leb_le 48 c)) by lia.
  by rewrite (proj2 (Z.ltb_lt c (48 + 10))) by lia.
Qed.

Lemma is_digit_ascii c : 48 <= c <= 57 -> is_digit c = true.
Proof. intros Hc. unfold is_digit. by rewrite decimal_ascii. Qed.

Lemma numeral_chars s :
  all_digits s = true ->
  chars s = Some ((fun b => (byte_value b, String b "")) <$> list_ascii_of_string s).
Proof.
  induction s as [|c r IH]; intros Hd; [done|].
  simpl in Hd. apply andb_prop in Hd as [Hc Hr].
  apply is_digit_char_value in Hc as [Hc _].
  cbn [chars list_ascii_of_string].
  rewrite (proj2 (Z.ltb_lt (byte_value c) 128)) by lia.
  by rewrite IH.
Qed.

Lemma all_digits_Forall s :
  all_digits s = true ->
  Forall (fun b => is_digit_char b = true) (list_ascii_of_string s).
Proof.
  induction s as [|c r IH]; intros Hd; simpl; [constructor|].
  simpl in Hd. apply andb_prop in Hd as [Hc Hr]. constructor; auto.
Qed.

Lemma numeral_decimals bs :
  Forall (fun b => is_digit_char b = true) bs ->
  leading_decimals ((fun b => (byte_value b, String b "")) <$> bs)
  = digit_val <$> bs.
Proof.
  induction 1 as [|b bs Hb _ IH]; [done|].
  apply is_digit_char_value in Hb as [Hb Hv].
  rewrite !fmap_cons. cbn [leading_decimals fst].
  rewrite decimal_ascii by done. by rewrite IH, Hv.
Qed.

Lemma numeral_digits bs :
  Forall (fun b => is_digit_char b = true) bs ->
  forallb (fun c => is_digit c.1)
    ((fun b => (byte_value b, String b "")) <$> bs) = true.
Proof.
  induction 1 as [|b bs Hb _ IH]; [done|].
  apply is_digit_char_value in Hb as [Hb _].
  rewrite fmap_cons. cbn [forallb fst].
  by rewrite is_digit_ascii, IH.
Qed.

Lemma numeral_value s : forall acc,
  foldl (fun acc d => 10 * acc + d) acc (digit_val <$> list_ascii_of_string s)
  = int_acc acc s.
Proof. induction s as [|c r IH]; intros acc; simpl; [done|apply IH]. Qed.

Lemma length_list_ascii_of_string s :
  length (list_ascii_of_string s) = String.length s.
Proof. induction s; simpl; congruence. Qed.

(** A non-empty string of the characters 0 to 9 is a string of digits,
    and [int] reads it in base ten when it is not too long. *)
Lemma numeral_is_read s :
  s <> "" -> all_digits s = true ->
  isdigit s = true /\
  (Z.of_nat (String.length s) <= int_max_str_digits -> int s = Ok (int_acc 0 s)).
Proof.
  intros Hne Hd.
  pose proof (all_digits_Forall s Hd) as Hall.
  pose proof (numeral_chars s Hd) as Hchars.
  split.
  - unfold isdigit. rewrite Hchars.
    destruct s as [|c r]; [done|].
    change (list_ascii_of_string (String c r)) with (c :: list_ascii_of_string r) in *.
    rewrite fmap_cons. exact (numeral_digits _ Hall).
  - intros Hlen. unfold int. rewrite Hchars, numeral_decimals by done.
    unfold len. rewrite !length_fmap, length_list_ascii_of_string.
    rewrite (proj2 (Z.ltb_ge _ _)) by lia.
    rewrite Z.eqb_refl, andb_true_r.
    destruct s as [|c r]; [done|].
    rewrite (proj2 (Z.ltb_lt 0 _)) by (simpl; lia).
    by rewrite numeral_value.
Qed.

Lemma played_app {Src} g (l1 l2 : list (effect Src)) :
  played g (l1 ++ l2) = played g l1 ++ played g l2.
Proof. apply omap_app. Qed.

Lemma played_VoicePlay {Src} g (src : Src) : played g [VoicePlay g src] = [src].
Proof. unfold played. simpl. by rewrite bool_decide_eq_true_2. Qed.

(** ** Facts about the voice client *)

Lemma is_playing_vc_finish {Src} (vc : VoiceClient Src) :
  is_playing (vc_finish vc) = false.
Proof.
  unfold is_playing, vc_finish. simpl. destruct (vc_player vc); simpl; [|done].
  by rewrite andb_false_r.
Qed.

Lemma pause_resume_transitions {Src} (vc : VoiceClient Src) :
  (playback_of vc = Playing -> playback_of (vc_pause vc) = Paused) /\
  (playback_of vc = Paused -> playback_of (vc_resume vc) = Playing).
Proof.
  unfold playback_of, is_playing, is_paused, vc_pause, vc_resume. simpl.
  destruct (vc_player vc) as [[src [] []]|]; simpl; done.
Qed.

(** ** Facts about the handler monad *)

Section preserves.
Context {St : Type} (P : St -> Prop).

Lemma preserves_ret {A} (a : A) : preserves P (ret a).
Proof. by intros s H. Qed.

Lemma preserves_raise {A} (e : exn) : preserves P (@raise St A e).
Proof. by intros s H. Qed.

Lemma preserves_gets {A} (f : St -> A) : preserves P (gets f).
Proof. by intros s H. Qed.

Lemma preserves_modify (f : St -> St) :
  (forall s, P s -> P (f s)) -> preserves P (modify f).
Proof. intros Hf s H. by apply Hf. Qed.

Lemma preserves_bind {A B} (m : M St A) (k : A -> M St B) :
  preserves P m -> (forall a, preserves P (k a)) -> preserves P (bind m k).
Proof.
  intros Hm Hk s H. unfold bind. specialize (Hm s H).
  destruct (m s) as [[a|e] s1]; simpl in *; [by apply Hk|done].
Qed.

Lemma preserves_try_except {A} (m : M St A) catches (h : exn -> M St A) :
  preserves P m -> (forall e, preserves P (h e)) ->
  preserves P (try_except m catches h).
Proof.
  intros Hm Hh s H. unfold try_except. specialize (Hm s H).
  destruct (m s) as [[a|e] s1]; simpl in *; [done|].
  destruct (catches e); [by apply Hh|done].
Qed.

Lemma preserves_for_each {A} (l : list A) (body : A -> M St unit) :
  (forall x, preserves P (body x)) -> preserves P (for_each l body).
Proof.
  intros Hb. induction l as [|x r IH]; simpl.
  - apply preserves_ret.
  - apply preserves_bind; [apply Hb|by intros _].
Qed.

Lemma preserves_invoke check (callback : M St unit) on_error :
  preserves P callback ->
  (forall h e, on_error = Some h -> preserves P (h e)) ->
  preserves P (invoke check callback on_error).
Proof.
  intros Hc Hh. unfold invoke.
  assert (preserves P (if check then callback else raise not_owner)) as Hi.
  { destruct check; [done|apply preserves_raise]. }
  destruct on_error as [h|]; [|done].
  apply preserves_try_except; [done|]. intros e. by apply Hh.
Qed.

End preserves.

(** The syntax-directed part of a proof that a handler keeps a property:
    what is left are the updates of the state. *)
Ltac preserving :=
  repeat first
    [ apply preserves_ret | apply preserves_raise | apply preserves_gets
    | apply preserves_bind; [|intros ?]
    | apply preserves_try_except; [|intros ?]
    | apply preserves_for_each; intros ?
    | match goal with
      | |- preserves _ (match ?x with _ => _ end) => destruct x eqn:?
      | |- preserves _ (let _ := _ in _) => cbv zeta
      end ].

(** ** OwnedBot.py: the handlers *)

Module OwnedBotProofs.
Import OwnedBot.

Ltac run :=
  repeat (progress (cbv beta iota delta
    [bind ret raise gets modify try_except send voice_client
     set_voice_client] in *; simpl in *)).

(** *** The resolver and the queue primitives *)

Lemma from_url_spec world q info s :
  ytdl_extract_info world q = Ok info ->
  from_url world q s = (Ok (new_YTDLSource <$> entries_of info), emit (Extract q) s).
Proof. intros H. unfold from_url. run. rewrite H. by destruct info. Qed.

Lemma from_url_log world q s :
  log (from_url world q s).2 = log s ++ [Extract q].
Proof.
  unfold from_url. run.
  by destruct (ytdl_extract_info world q) as [[]|].
Qed.

Lemma enqueue_spec g players s :
  enqueue g players s =
  (Ok tt, match players with
          | [] => s
          | _ :: _ => with_song_queues <[g := pending s g ++ players]> s
          end).
Proof.
  unfold enqueue. revert s. induction players as [|p ps IH]; intros s; [done|].
  simpl. unfold bind at 1. unfold append at 1, modify at 1.
  rewrite IH. destruct ps as [|p' ps]; [done|].
  f_equal. unfold pending, with_song_queues; simpl. f_equal.
  rewrite lookup_insert_eq, insert_insert_eq. simpl.
  by rewrite <- app_assoc.
Qed.

Lemma enqueue_pending g players s :
  pending (enqueue g players s).2 g = pending s g ++ players.
Proof.
  rewrite enqueue_spec. destruct players; simpl; [by rewrite app_nil_r|].
  unfold pending; simpl. by rewrite lookup_insert_eq.
Qed.

Lemma enqueue_frame g players s :
  (enqueue g players s).1 = Ok tt /\
  stop_flags (enqueue g players s).2 = stop_flags s /\
  voice_clients (enqueue g players s).2 = voice_clients s /\
  log (enqueue g players s).2 = log s.
Proof. rewrite enqueue_spec. by destruct players. Qed.

Lemma play_next_pending ctx s :
  pending (play_next ctx s).2 (guild_id ctx) =
  if stopping s (guild_id ctx) then pending s (guild_id ctx)
  else drop 1 (pending s (guild_id ctx)).
Proof.
  unfold play_next, stopping, pending. run.
  destruct (default false (stop_flags s !! guild_id ctx)); [done|].
  destruct (song_queues s !! guild_id ctx) as [[|p rest]|] eqn:Hq; run;
    rewrite ?Hq; try done.
  unfold voice_play. run.
  destruct (voice_clients s !! guild_id ctx) as [vc|]; run;
    [|by rewrite lookup_insert_eq].
  destruct (vc_play vc p); run; by rewrite lookup_insert_eq.
Qed.

Lemma play_next_log ctx s : exists l, log (play_next ctx s).2 = log s ++ l.
Proof.
  unfold play_next. run.
  destruct (default false (stop_flags s !! guild_id ctx));
    [exists []; by rewrite app_nil_r|].
  destruct (song_queues s !! guild_id ctx) as [[|p rest]|]; run;
    try (by eexists).
  unfold voice_play. run.
  destruct (voice_clients s !! guild_id ctx) as [vc|]; run;
    [|exists []; by rewrite app_nil_r].
  destruct (vc_play vc p); run; [|exists []; by rewrite app_nil_r].
  eexists. by rewrite <- app_assoc.
Qed.

Lemma queue_spec ctx s :
  queue ctx s =
  (Ok tt, emit (Send (guild_id ctx) (queue_text (pending s (guild_id ctx)))) s).
Proof.
  unfold queue, pending. run.
  by destruct (song_queues s !! guild_id ctx) as [[|p rest]|].
Qed.

Lemma try_report_ok ctx (m : M State unit) (f : exn -> string) s :
  (try_except m any_exception (fun e => send ctx (f e)) s).1 = Ok tt.
Proof. unfold try_except. destruct (m s) as [[[]|e] s1]; done. Qed.

Lemma try_report_pending ctx (m : M State unit) (f : exn -> string) s g :
  pending (try_except m any_exception (fun e => send ctx (f e)) s).2 g =
  pending (m s).2 g.
Proof. unfold try_except. destruct (m s) as [[[]|e] s1]; done. Qed.

Lemma try_report_log ctx (m : M State unit) (f : exn -> string) s :
  exists l, log (try_except m any_exception (fun e => send ctx (f e)) s).2 =
            log (m s).2 ++ l.
Proof.
  unfold try_except. destruct (m s) as [[[]|e] s1]; simpl.
  - exists []. by rewrite app_nil_r.
  - by eexists.
Qed.

Lemma ensure_queue_spec g s : ensure_queue g s = (Ok tt, queue_ensured g s).
Proof.
  unfold ensure_queue, queue_ensured. run.
  by destruct (song_queues s !! g).
Qed.

Lemma queue_ensured_fields g s :
  search_results (queue_ensured g s) = search_results s /\
  voice_clients (queue_ensured g s) = voice_clients s /\
  log (queue_ensured g s) = log s /\
  pending (queue_ensured g s) g = pending s g /\
  stopping (queue_ensured g s) g =
    match song_queues s !! g with Some _ => stopping s g | None => false end.
Proof.
  unfold queue_ensured, pending, stopping.
  destruct (song_queues s !! g) eqn:Hq; simpl; rewrite ?Hq, ?lookup_insert_eq; done.
Qed.

(** *** Selection by number *)

Lemma selection_in_range results g query videos n :
  isdigit query = true ->
  results !! g = Some videos ->
  int query = Ok n ->
  1 <= n <= len videos ->
  len videos <= PY_SSIZE_T_MAX ->
  exists video, videos !! Z.to_nat (n - 1) = Some video /\
                selection results g query = Ok (Some (watch_url video.2)).
Proof.
  intros Hd Hr Hi [Hlo Hhi] Hfit. unfold selection. rewrite Hd, Hr, Hi.
  rewrite (proj2 (Z.leb_le _ _) Hlo), (proj2 (Z.leb_le _ _) Hhi). simpl.
  destruct (getitem_in_range videos (n - 1)) as (v & Hv & ->); [lia|lia|].
  by exists v.
Qed.



Lemma play_try_log world ctx query s u :
  selection (search_results s) (guild_id ctx) query = Ok (Some u) ->
  exists rest, log (play_try world ctx query s).2 = log s ++ Extract u :: rest.
Proof.
  intros Hsel. unfold play_try, bind at 1, gets at 1. rewrite Hsel.
  unfold bind at 1.
  pose proof (from_url_log world u s) as Hlog.
  destruct (from_url world u s) as [[players|e] s0]; simpl in Hlog;
    [|exists []; simpl; by rewrite Hlog].
  destruct players as [|p ps].
  { unfold send, modify. simpl. rewrite Hlog, <- app_assoc. by eexists. }
  unfold bind at 1.
  destruct (enqueue_frame (guild_id ctx) (p :: ps) s0) as (_ & _ & _ & Hl1).
  rewrite enqueue_spec in *. cbn [fst snd] in *.
  set (s1 := with_song_queues _ _) in *.
  unfold bind at 1.
  assert (Hsent : exists t,
    (if 1 <? len (p :: ps)
     then send ctx ("**Added " +:+ pretty (len (p :: ps)) +:+ " songs to the queue.**")
     else send ctx ("**Added to queue:** " +:+ title p)) s1
    = (Ok tt, emit (Send (guild_id ctx) t) s1)).
  { destruct (1 <? len (p :: ps)); eexists; reflexivity. }
  destruct Hsent as [t ->].
  unfold bind at 1, voice_client, bind at 1, gets at 1.
  assert (Hl2 : log (emit (Send (guild_id ctx) t) s1) = log s ++ Extract u :: [Send (guild_id ctx) t]).
  { subst s1. simpl. by rewrite Hlog, <- app_assoc. }
  destruct (voice_clients (emit (Send (guild_id ctx) t) s1) !! guild_id ctx) as [vc|];
    [|eexists; exact Hl2].
  unfold ret at 1. destruct (negb (is_playing vc)); [|eexists; exact Hl2].
  destruct (play_next_log ctx (emit (Send (guild_id ctx) t) s1)) as [l ->].
  rewrite Hl2, <- app_assoc. by eexists.
Qed.

Lemma play_number_selects world ctx query s videos n :
  isdigit query = true ->
  search_results s !! guild_id ctx = Some videos ->
  int query = Ok n ->
  1 <= n <= len videos ->
  len videos <= PY_SSIZE_T_MAX ->
  exists video rest,
    videos !! Z.to_nat (n - 1) = Some video /\
    log (play world ctx query s).2 = log s ++ Extract (watch_url video.2) :: rest.
Proof.
  intros Hd Hr Hi Hn Hfit.
  destruct (selection_in_range _ _ _ _ _ Hd Hr Hi Hn Hfit) as (video & Hv & Hsel).
  exists video. unfold play, bind at 1. rewrite ensure_queue_spec.
  destruct (queue_ensured_fields (guild_id ctx) s) as (Hsr & _ & Hlog & _).
  destruct (try_report_log ctx (play_try world ctx query)
              (fun e => "An error occurred: " +:+ exn_str e)
              (queue_ensured (guild_id ctx) s)) as [l ->].
  destruct (play_try_log world ctx query (queue_ensured (guild_id ctx) s)
              (watch_url video.2)) as [rest ->]; [by rewrite Hsr|].
  rewrite Hlog, <- app_assoc. by eexists.
Qed.




(** *** The order of playback *)

Lemma play_try_pending world ctx query s u players :
  selection (search_results s) (guild_id ctx) query = Ok (Some u) ->
  from_url world u s = (Ok players, emit (Extract u) s) ->
  players <> [] ->
  pending (play_try world ctx query s).2 (guild_id ctx) =
  (if match voice_clients s !! guild_id ctx with
      | Some vc => negb (is_playing vc) && negb (stopping s (guild_id ctx))
      | None => false
      end then drop 1 else id) (pending s (guild_id ctx) ++ players).
Proof.
  intros Hsel Hfrom Hne.
  unfold play_try, bind at 1, gets at 1. rewrite Hsel.
  unfold bind at 1. rewrite Hfrom.
  destruct players as [|p ps]; [done|].
  unfold bind at 1.
  pose proof (enqueue_pending (guild_id ctx) (p :: ps) (emit (Extract u) s)) as Hen.
  rewrite enqueue_spec in *. simpl in Hen.
  set (s1 := with_song_queues _ _) in *.
  unfold bind at 1.
  assert (Hsent : exists t,
    (if 1 <? len (p :: ps)
     then send ctx ("**Added " +:+ pretty (len (p :: ps)) +:+ " songs to the queue.**")
     else send ctx ("**Added to queue:** " +:+ title p)) s1
    = (Ok tt, emit (Send (guild_id ctx) t) s1)).
  { destruct (1 <? len (p :: ps)); eexists; reflexivity. }
  destruct Hsent as [t ->].
  unfold bind at 1, voice_client, bind at 1, gets at 1.
  change (voice_clients (emit (Send (guild_id ctx) t) s1)) with (voice_clients s).
  destruct (voice_clients s !! guild_id ctx) as [vc|]; [|exact Hen].
  unfold ret at 1. destruct (is_playing vc); cbn [negb andb]; [exact Hen|].
  rewrite play_next_pending.
  change (stopping (emit (Send (guild_id ctx) t) s1) (guild_id ctx))
    with (stopping s (guild_id ctx)).
  change (pending (emit (Send (guild_id ctx) t) s1) (guild_id ctx))
    with (pending s1 (guild_id ctx)).
  rewrite Hen. simpl pending.
  by destruct (stopping s (guild_id ctx)).
Qed.

(** The lines of the [queue] listing, one per track, numbered from 1. *)
Lemma enumerate_from_imap {A B} (f : Z * A -> B) (l : list A) : forall k,
  f <$> enumerate_from k l = imap (fun i x => f (k + Z.of_nat i, x)) l.
Proof.
  induction l as [|x l IH]; intros k; [done|].
  simpl. rewrite Z.add_0_r. f_equal. rewrite IH.
  apply imap_ext. intros i y _. simpl. do 2 f_equal. lia.
Qed.

Lemma queue_list_lines players :
  queue_list players =
  String.concat (String (ascii_of_nat 10) EmptyString)
    (imap (fun i p => pretty (Z.of_nat i + 1) +:+ ". " +:+ title p) players).
Proof.
  unfold queue_list, str_join, enumerate. by rewrite enumerate_from_imap.
Qed.

(** C7. A [play] whose query resolves to one or more tracks makes one
    track per entry, with the title and the URL of the entry, and appends
    all of them to the queue of the guild in the order of the provider;
    only the track that [play] itself starts, the front of the queue when
    the guild was not playing, has left the queue afterwards. [queue]
    then sends one message: the heading and, for each pending track in
    that order, the line "<position>. <title>", the positions counted
    from 1; or "The queue is empty." when no track is pending. *)
Theorem play_enqueues_in_provider_order world ctx s query u info :
  selection (search_results s) (guild_id ctx) query = Ok (Some u) ->
  ytdl_extract_info world u = Ok info ->
  entries_of info <> [] ->
  let g := guild_id ctx in
  let players := new_YTDLSource <$> entries_of info in
  let s' := (play world ctx query s).2 in
  let newline := String (ascii_of_nat 10) EmptyString in
  (play world ctx query s).1 = Ok tt /\
  title <$> players = entry_title <$> entries_of info /\
  url <$> players = entry_url <$> entries_of info /\
  pending s' g = (if advances s g then drop 1 else id) (pending s g ++ players) /\
  queue ctx s' =
    (Ok tt,
     emit (Send g
             match pending s' g with
             | [] => "The queue is empty."
             | _ :: _ =>
                 "**Current Queue:**" +:+ newline +:+
                 String.concat newline
                   (imap (fun i p => pretty (Z.of_nat i + 1) +:+ ". " +:+ title p)
                      (pending s' g))
             end) s').
Proof.
  intros Hsel Hinfo Hne g players s' newline. subst g newline.
  split; [|split; [|split; [|split]]].
  - unfold play, bind. rewrite ensure_queue_spec. apply try_report_ok.
  - subst players. rewrite <- list_fmap_compose. done.
  - subst players. rewrite <- list_fmap_compose. done.
  - subst s'. unfold play, bind at 1. rewrite ensure_queue_spec.
    rewrite try_report_pending.
    destruct (queue_ensured_fields (guild_id ctx) s)
      as (Hsr & Hvc & _ & Hpend & Hstop).
    rewrite (play_try_pending world ctx query _ u players).
    + rewrite Hvc, Hpend, Hstop. unfold advances.
      destruct (voice_clients s !! guild_id ctx); [|done].
      by destruct (song_queues s !! guild_id ctx).
    + by rewrite Hsr.
    + by apply from_url_spec.
    + subst players. by destruct (entries_of info).
  - rewrite queue_spec. unfold queue_text.
    destruct (pending s' (guild_id ctx)) as [|p rest]; [done|].
    by rewrite queue_list_lines.
Qed.

Lemma play_enqueues_in_provider_order_witness :
  let s' := (play Sample.world Sample.ctx "album" Sample.joined1).2 in
  selection (search_results Sample.joined1) 1 "album" = Ok (Some "album") /\
  ytdl_extract_info Sample.world "album"
    = Ok (Playlist [Sample.entry "A"; Sample.entry "B"; Sample.entry "C"]) /\
  pending s' 1 = [Sample.track "B"; Sample.track "C"] /\
  sent 1 (log (queue Sample.ctx s').2) =
    sent 1 (log s') ++ ["**Current Queue:**" +:+ nl +:+ "1. B" +:+ nl +:+ "2. C"].
Proof.
  intros s'.
  split; [reflexivity|]. split; [reflexivity|].
  pose proof (play_enqueues_in_provider_order Sample.world Sample.ctx
                Sample.joined1 "album" "album"
                (Playlist [Sample.entry "A"; Sample.entry "B"; Sample.entry "C"])
                eq_refl eq_refl ltac:(discriminate)) as (_ & _ & _ & H & Hq).
  split; [exact H|].
  fold s' in Hq. rewrite Hq. reflexivity.
Defined.

(** The queue operations of one guild, while nobody stops the playback. *)
Lemma play_next_step ctx s vc :
  voice_clients s !! guild_id ctx = Some vc ->
  vc_connected vc = true ->
  is_playing vc = false ->
  stopping s (guild_id ctx) = false ->
  let s' := (play_next ctx s).2 in
  (play_next ctx s).1 = Ok tt /\
  (exists vc', voice_clients s' !! guild_id ctx = Some vc' /\ vc_connected vc' = true) /\
  stopping s' (guild_id ctx) = false /\
  played (guild_id ctx) (log s') =
    played (guild_id ctx) (log s) ++ take 1 (pending s (guild_id ctx)) /\
  pending s' (guild_id ctx) = drop 1 (pending s (guild_id ctx)).
Proof.
  intros Hvc Hconn Hplay Hstop. unfold play_next, stopping, pending in *.
  run. rewrite Hstop.
  destruct (song_queues s !! guild_id ctx) as [[|p rest]|] eqn:Hq; run;
    rewrite ?Hq, ?Hstop.
  1,3: repeat split; eauto; rewrite played_app; simpl; by rewrite app_nil_r.
  unfold voice_play, vc_play. run. rewrite Hvc. simpl.
  rewrite Hconn, Hplay. run. rewrite !lookup_insert_eq, Hstop.
  repeat split; eauto.
  rewrite !played_app, played_VoicePlay. simpl. by rewrite app_nil_r.
Qed.

Lemma track_finished_step ctx s vc :
  voice_clients s !! guild_id ctx = Some vc ->
  vc_connected vc = true ->
  stopping s (guild_id ctx) = false ->
  let s' := (track_finished ctx s).2 in
  (track_finished ctx s).1 = Ok tt /\
  (exists vc', voice_clients s' !! guild_id ctx = Some vc' /\ vc_connected vc' = true) /\
  stopping s' (guild_id ctx) = false /\
  played (guild_id ctx) (log s') =
    played (guild_id ctx) (log s) ++ take 1 (pending s (guild_id ctx)) /\
  pending s' (guild_id ctx) = drop 1 (pending s (guild_id ctx)).
Proof.
  intros Hvc Hconn Hstop. unfold track_finished, bind, modify.
  set (s0 := with_voice_clients _ s).
  apply (play_next_step ctx s0 (vc_finish vc)).
  - subst s0. simpl. rewrite Hvc. apply lookup_insert_eq.
  - done.
  - apply is_playing_vc_finish.
  - done.
Qed.

Lemma run_ops_fifo ctx ops : forall s vc,
  voice_clients s !! guild_id ctx = Some vc ->
  vc_connected vc = true ->
  stopping s (guild_id ctx) = false ->
  let g := guild_id ctx in
  let s' := (run_ops ctx ops s).2 in
  (run_ops ctx ops s).1 = Ok tt /\
  exists out,
    played g (log s') = played g (log s) ++ out /\
    out ++ pending s' g = pending s g ++ enqueued ops.
Proof.
  induction ops as [|o ops IH]; intros s vc Hvc Hconn Hstop; simpl.
  { split; [done|]. exists []. by rewrite !app_nil_r. }
  unfold run_ops in *. simpl. unfold bind.
  destruct o as [players|]; simpl.
  - destruct (enqueue_frame (guild_id ctx) players s) as (Hok & Hfl & Hv & Hlog).
    pose proof (enqueue_pending (guild_id ctx) players s) as Hpend.
    destruct (enqueue (guild_id ctx) players s) as [r s1]. simpl in *. subst r.
    destruct (IH s1 vc) as (Hok' & out & Hout & Hq).
    { by rewrite Hv. } { done. } { unfold stopping. by rewrite Hfl. }
    split; [done|]. exists out. rewrite Hout, Hq, Hlog, Hpend, app_assoc. done.
  - destruct (track_finished_step ctx s vc Hvc Hconn Hstop)
      as (Hok & (vc' & Hvc' & Hconn') & Hstop' & Hplayed & Hpend).
    destruct (track_finished ctx s) as [r s1]. simpl in *. subst r.
    destruct (IH s1 vc' Hvc' Hconn' Hstop') as (Hok' & out & Hout & Hq).
    split; [done|]. exists (take 1 (pending s (guild_id ctx)) ++ out).
    rewrite Hout, Hplayed, <- !app_assoc. split; [done|].
    rewrite Hq, Hpend, app_assoc, take_drop. done.
Qed.


(** *** Stop, clear, skip, pause and resume *)

(** C3. When [stop] is given while a track plays, it empties the queue,
    sets the stop flag and stops the voice client; the completion callback
    of the stopped track, the next [play_next] of the guild, then only
    resets the flag: it returns without dequeuing, playing or sending
    anything, and the guild is idle afterwards. *)
Theorem stop_suppresses_completion_callback ctx s vc :
  voice_clients s !! guild_id ctx = Some vc ->
  is_playing vc = true ->
  let g := guild_id ctx in
  let s1 := (stop ctx s).2 in
  let s2 := (play_next ctx s1).2 in
  (stop ctx s).1 = Ok tt /\
  stopping s1 g = true /\
  pending s1 g = [] /\
  voice_clients s1 !! g = Some (vc_stop vc) /\
  (play_next ctx s1).1 = Ok tt /\
  song_queues s2 = song_queues s1 /\
  voice_clients s2 = voice_clients s1 /\
  log s2 = log s1 /\
  stopping s2 g = false /\
  playback_of (vc_stop vc) = Idle.
Proof.
  intros Hvc Hplay. unfold stop, play_next. run.
  destruct (song_queues s !! guild_id ctx) eqn:Hq; run; rewrite Hvc; run;
    rewrite Hplay; run; unfold stopping, pending; simpl;
    rewrite !lookup_insert_eq; simpl; rewrite ?lookup_insert_eq, ?Hq; simpl;
    auto 12.
Qed.

Lemma stop_suppresses_completion_callback_witness :
  (exists vc, voice_clients Sample.playing1 !! 1 = Some vc /\ is_playing vc = true) /\
  pending Sample.playing1 1 = [Sample.track "B"; Sample.track "C"] /\
  let s1 := (stop Sample.ctx Sample.playing1).2 in
  let s2 := (play_next Sample.ctx s1).2 in
  stopping s1 1 = true /\ pending s2 1 = [] /\ log s2 = log s1.
Proof.
  split; [eexists; split; reflexivity|]. split; [reflexivity|].
  pose proof (stop_suppresses_completion_callback Sample.ctx Sample.playing1 _
                eq_refl eq_refl) as (_ & H1 & H2 & _ & _ & H3 & _ & H4 & _).
  cbv zeta. split; [exact H1|]. split; [|exact H4].
  unfold pending in *. simpl guild_id in *. by rewrite H3.
Defined.

(** After [stop], whatever the guild was doing, the next [play_next] of
    the guild starts nothing. *)
Lemma stop_then_play_next_plays_nothing ctx s vc :
  voice_clients s !! guild_id ctx = Some vc ->
  played (guild_id ctx) (log (play_next ctx (stop ctx s).2).2) =
  played (guild_id ctx) (log s).
Proof.
  intros Hvc. unfold stop, play_next. run.
  destruct (song_queues s !! guild_id ctx) eqn:Hq; run; rewrite Hvc; run;
    destruct (is_playing vc); run; rewrite ?lookup_insert_eq; simpl;
    try (rewrite played_app; simpl; by rewrite app_nil_r);
    destruct (default false (stop_flags s !! guild_id ctx)); run;
    rewrite ?lookup_insert_eq, ?Hq; simpl;
    rewrite ?played_app; simpl; by rewrite ?app_nil_r.
Qed.

(** C4, as the code has it. [clear] leaves the queue of the guild empty,
    reports it, and leaves the stop flags, the voice clients and the
    credentials as they were: it does not set the stop flag. A completion
    callback that arrives afterwards starts no track, because it finds
    either the stop flag of an earlier [stop] or an empty queue. *)
Theorem clear_empties_queue_keeps_flag ctx s :
  let g := guild_id ctx in
  let s1 := (clear ctx s).2 in
  let s2 := (play_next ctx s1).2 in
  (clear ctx s).1 = Ok tt /\
  pending s1 g = [] /\
  stop_flags s1 = stop_flags s /\
  voice_clients s1 = voice_clients s /\
  log s1 = log s ++ [Send g "Queue has been cleared."] /\
  pending s2 g = [] /\
  voice_clients s2 = voice_clients s1 /\
  log s2 = log s1 ++ (if stopping s g then [] else [Send g "Queue is empty."]).
Proof.
  unfold clear, play_next, stopping, pending. run.
  destruct (song_queues s !! guild_id ctx) eqn:Hq; run;
    destruct (default false (stop_flags s !! guild_id ctx)); run;
    rewrite ?lookup_insert_eq, ?Hq; simpl; rewrite ?app_nil_r;
    repeat split; rewrite ?lookup_insert_eq, ?Hq; done.
Qed.

(** C4, as stated, fails: after [clear] on a guild whose flag is not set,
    the flag is still not set. *)
Lemma clear_does_not_set_stop_flag :
  let s' := (clear Sample.ctx Sample.playing1).2 in
  pending s' 1 = [] /\ stopping s' 1 <> true.
Proof. split; [reflexivity|]. vm_compute. discriminate. Qed.

(** [skip] with a voice client that is not playing. *)
Lemma skip_not_playing ctx s vc :
  voice_clients s !! guild_id ctx = Some vc ->
  is_playing vc = false ->
  skip ctx s = (Ok tt, emit (Send (guild_id ctx) "Not playing anything.") s).
Proof. intros Hvc Hp. unfold skip. run. rewrite Hvc. run. by rewrite Hp. Qed.

(** Without a voice client [skip] raises before it sends anything. *)
Lemma skip_without_voice_client_raises :
  skip Sample.ctx initial = (Raise (none_has_no "is_playing"), initial).
Proof. reflexivity. Qed.

(** [pause] and [resume] in a guild that has a voice client. *)
Lemma pause_with_voice_client ctx s vc :
  voice_clients s !! guild_id ctx = Some vc ->
  pause ctx s =
  (Ok tt,
   if is_playing vc then with_voice_clients <[guild_id ctx := vc_pause vc]> s
   else emit (Send (guild_id ctx) "The bot is not playing anything at the moment.") s).
Proof. intros Hvc. unfold pause. run. rewrite Hvc. run. by destruct (is_playing vc). Qed.

Lemma resume_with_voice_client ctx s vc :
  voice_clients s !! guild_id ctx = Some vc ->
  resume ctx s =
  (Ok tt,
   if is_paused vc then with_voice_clients <[guild_id ctx := vc_resume vc]> s
   else emit (Send (guild_id ctx)
                "The bot was not playing anything before this. Use play_url command") s).
Proof. intros Hvc. unfold resume. run. rewrite Hvc. run. by destruct (is_paused vc). Qed.

(** C8 fails in a guild without a voice client, whose state is not
    Playing and not Paused: [pause] and [resume] raise [AttributeError]
    before they send anything. *)
Theorem pause_resume_without_voice_client_raise :
  voice_clients initial !! guild_id Sample.ctx = None /\
  pause Sample.ctx initial = (Raise (none_has_no "is_playing"), initial) /\
  resume Sample.ctx initial = (Raise (none_has_no "is_paused"), initial).
Proof. by repeat split. Qed.

(** *** The owner commands *)

Lemma owner_commands_reject world ctx arg s :
  author_id ctx <> owner_id world ->
  let rejected :=
    (Ok tt, emit (Send (guild_id ctx) "You are not the owner of this bot.") s) in
  set_token world ctx arg s = rejected /\
  set_api_key world ctx arg s = rejected /\
  set_yt_cookie world ctx arg s = rejected.
Proof.
  intros Hne. unfold set_token, set_api_key, set_yt_cookie, is_owner.
  rewrite bool_decide_eq_false_2 by done. by repeat split.
Qed.

End OwnedBotProofs.


(** ** OwnDMusicBot.2.0.py: the handlers *)

Module OwnDMusicBot2Proofs.
Import OwnDMusicBot2.

Ltac run2 :=
  repeat (progress (cbv beta iota delta
    [bind ret raise gets modify try_except send voice_client
     set_voice_client] in *; simpl in *)).

(** *** The resolver and the queue primitives *)

Lemma get_queue_frame ctx s :
  let s' := (get_queue ctx s).2 in
  (get_queue ctx s).1 = Ok (pending s (guild_id ctx)) /\
  pending s' (guild_id ctx) = pending s (guild_id ctx) /\
  search_results s' = search_results s /\
  voice_clients s' = voice_clients s /\
  objects s' = objects s /\
  log s' = log s.
Proof.
  unfold get_queue, pending. run2.
  destruct (song_queues s !! guild_id ctx) eqn:Hq; run2;
    rewrite ?Hq, ?lookup_insert_eq; done.
Qed.

Lemma from_url_objects world u info s :
  ytdl_extract_info world u = Ok info ->
  from_url world u s =
  (Ok (seq (length (objects s)) (length (entries_of info))),
   with_objects (fun o => o ++ (new_YTDLSource <$> entries_of info))
     (emit (Extract u) s)).
Proof. intros H. unfold from_url, construct. run2. rewrite H. by destruct info. Qed.

Lemma from_url_extract world u s :
  log (from_url world u s).2 = log s ++ [Extract u].
Proof.
  unfold from_url, construct. run2.
  by destruct (ytdl_extract_info world u) as [[]|].
Qed.

Lemma put_all_spec g players s :
  enqueue g players s =
  (Ok tt, match players with
          | [] => s
          | _ :: _ => with_song_queues <[g := pending s g ++ players]> s
          end).
Proof.
  unfold enqueue. revert s. induction players as [|p ps IH]; intros s; [done|].
  simpl. unfold bind at 1. unfold put at 1, modify at 1.
  rewrite IH. destruct ps as [|p' ps]; [done|].
  f_equal. unfold pending, with_song_queues; simpl. f_equal.
  rewrite lookup_insert_eq, insert_insert_eq. simpl.
  by rewrite <- app_assoc.
Qed.

Lemma put_all_nonempty g players s :
  players <> [] ->
  enqueue g players s =
  (Ok tt, with_song_queues <[g := pending s g ++ players]> s).
Proof. intros H. rewrite put_all_spec. by destruct players. Qed.

Lemma put_all_pending g players s :
  pending (enqueue g players s).2 g = pending s g ++ players.
Proof.
  rewrite put_all_spec. destruct players; simpl; [by rewrite app_nil_r|].
  unfold pending; simpl. by rewrite lookup_insert_eq.
Qed.

Lemma put_all_frame g players s :
  (enqueue g players s).1 = Ok tt /\
  voice_clients (enqueue g players s).2 = voice_clients s /\
  objects (enqueue g players s).2 = objects s /\
  log (enqueue g players s).2 = log s.
Proof. rewrite put_all_spec. by destruct players. Qed.

(** A property of the log that every emission keeps is kept by a handler:
    handlers only add to the log. *)
Ltac logging HQ :=
  preserving;
  try (apply preserves_modify; intros ? ?; simpl; solve [done | by apply HQ]).

(** *** Selection by number *)

Lemma url_in_range results g query videos n :
  isdigit query = true ->
  results !! g = Some videos ->
  int query = Ok n ->
  1 <= n <= len videos ->
  len videos <= PY_SSIZE_T_MAX ->
  exists video, videos !! Z.to_nat (n - 1) = Some video /\
                selection results g query = Ok (watch_url video.2).
Proof.
  intros Hd Hr Hi Hn Hfit. unfold selection. rewrite Hd, Hr, Hi.
  destruct (getitem_in_range videos (n - 1)) as (v & Hv & ->); [lia|lia|].
  by exists v.
Qed.




Lemma play_try_extract world ctx query s u :
  selection (search_results s) (guild_id ctx) query = Ok u ->
  exists rest, log (play_try world ctx query s).2 = log s ++ Extract u :: rest.
Proof.
  intros Hsel. unfold play_try, bind at 1, gets at 1. rewrite Hsel.
  unfold bind at 1, ret at 1. unfold bind at 1.
  pose proof (from_url_extract world u s) as Hlog.
  destruct (from_url world u s) as [[players|e] s0]; simpl in Hlog;
    [|exists []; simpl; by rewrite Hlog].
  set (Q := fun l : list (effect ref) => exists rest, l = log s ++ Extract u :: rest).
  assert (HQ : forall l e, Q l -> Q (l ++ [e])).
  { intros l e [rest ->]. exists (rest ++ [e]). by rewrite <- app_assoc. }
  match goal with
  | |- exists rest, log (?m s0).2 = _ =>
      enough (preserves (fun s' => Q (log s')) m) as Hm
  end.
  { apply Hm. exists []. by rewrite Hlog. }
  unfold send, voice_client. logging HQ.
Qed.

Lemma play_number_selects2 world ctx query s videos n :
  isdigit query = true ->
  search_results s !! guild_id ctx = Some videos ->
  int query = Ok n ->
  1 <= n <= len videos ->
  len videos <= PY_SSIZE_T_MAX ->
  exists video rest,
    videos !! Z.to_nat (n - 1) = Some video /\
    log (play world ctx query s).2 = log s ++ Extract (watch_url video.2) :: rest.
Proof.
  intros Hd Hr Hi Hn Hfit.
  destruct (url_in_range _ _ _ _ _ Hd Hr Hi Hn Hfit) as (video & Hv & Hsel).
  exists video. unfold play, bind at 1.
  destruct (get_queue_frame ctx s) as (Hq & _ & Hsr & _ & _ & Hlog).
  destruct (get_queue ctx s) as [r s0]. simpl in *. subst r.
  destruct (play_try_extract world ctx query s0 (watch_url video.2)) as [rest Hrest];
    [by rewrite Hsr|].
  unfold try_except. destruct (play_try world ctx query s0) as [[[]|e] s1];
    simpl in *; rewrite Hrest, Hlog; [by eexists|].
  rewrite <- app_assoc. by eexists.
Qed.




(** *** The order of playback *)

Lemma advance_step ctx s vc :
  voice_clients s !! guild_id ctx = Some vc ->
  vc_connected vc = true ->
  is_playing vc = false ->
  let s' := (play_next ctx s).2 in
  (play_next ctx s).1 = Ok tt /\
  (exists vc', voice_clients s' !! guild_id ctx = Some vc' /\ vc_connected vc' = true) /\
  played (guild_id ctx) (log s') =
    played (guild_id ctx) (log s) ++ take 1 (pending s (guild_id ctx)) /\
  pending s' (guild_id ctx) = drop 1 (pending s (guild_id ctx)).
Proof.
  intros Hvc Hconn Hplay. unfold play_next, get_queue, pending in *.
  run2.
  destruct (song_queues s !! guild_id ctx) as [[|p rest]|] eqn:Hq; run2;
    rewrite ?Hq, ?Hvc, ?lookup_insert_eq; simpl.
  1,3: repeat split; eauto; by rewrite app_nil_r.
  unfold voice_play, vc_play. run2. rewrite Hvc. simpl.
  rewrite Hconn, Hplay. run2. rewrite !lookup_insert_eq.
  repeat split; eauto.
  rewrite !played_app, played_VoicePlay. simpl. by rewrite app_nil_r.
Qed.

Lemma finished_step ctx s vc :
  voice_clients s !! guild_id ctx = Some vc ->
  vc_connected vc = true ->
  let s' := (track_finished ctx s).2 in
  (track_finished ctx s).1 = Ok tt /\
  (exists vc', voice_clients s' !! guild_id ctx = Some vc' /\ vc_connected vc' = true) /\
  played (guild_id ctx) (log s') =
    played (guild_id ctx) (log s) ++ take 1 (pending s (guild_id ctx)) /\
  pending s' (guild_id ctx) = drop 1 (pending s (guild_id ctx)).
Proof.
  intros Hvc Hconn. unfold track_finished, bind, modify.
  set (s0 := with_voice_clients _ s).
  apply (advance_step ctx s0 (vc_finish vc)).
  - subst s0. simpl. rewrite Hvc. apply lookup_insert_eq.
  - done.
  - apply is_playing_vc_finish.
Qed.

Lemma run_ops_in_order ctx ops : forall s vc,
  voice_clients s !! guild_id ctx = Some vc ->
  vc_connected vc = true ->
  let g := guild_id ctx in
  let s' := (run_ops ctx ops s).2 in
  (run_ops ctx ops s).1 = Ok tt /\
  exists out,
    played g (log s') = played g (log s) ++ out /\
    out ++ pending s' g = pending s g ++ enqueued ops.
Proof.
  induction ops as [|o ops IH]; intros s vc Hvc Hconn; simpl.
  { split; [done|]. exists []. by rewrite !app_nil_r. }
  unfold run_ops in *. simpl. unfold bind.
  destruct o as [players|]; simpl.
  - destruct (put_all_frame (guild_id ctx) players s) as (Hok & Hv & _ & Hlog).
    pose proof (put_all_pending (guild_id ctx) players s) as Hpend.
    destruct (enqueue (guild_id ctx) players s) as [r s1]. simpl in *. subst r.
    destruct (IH s1 vc) as (Hok' & out & Hout & Hq).
    { by rewrite Hv. } { done. }
    split; [done|]. exists out. rewrite Hout, Hq, Hlog, Hpend, app_assoc. done.
  - destruct (finished_step ctx s vc Hvc Hconn)
      as (Hok & (vc' & Hvc' & Hconn') & Hplayed & Hpend).
    destruct (track_finished ctx s) as [r s1]. simpl in *. subst r.
    destruct (IH s1 vc' Hvc' Hconn') as (Hok' & out & Hout & Hq).
    split; [done|]. exists (take 1 (pending s (guild_id ctx)) ++ out).
    rewrite Hout, Hplayed, <- !app_assoc. split; [done|].
    rewrite Hq, Hpend, app_assoc, take_drop. done.
Qed.

(** *** Skip and the owner commands *)

Lemma skip_not_playing_is_silent ctx s :
  (forall vc, voice_clients s !! guild_id ctx = Some vc -> is_playing vc = false) ->
  skip ctx s = (Ok tt, s).
Proof.
  intros H. unfold skip. run2.
  destruct (voice_clients s !! guild_id ctx) as [vc|]; [|done].
  by rewrite (H vc eq_refl).
Qed.

Lemma owner_commands_raise world ctx arg s :
  author_id ctx <> owner_id world ->
  set_token world ctx arg s = (Raise not_owner, s) /\
  set_api_key world ctx arg s = (Raise not_owner, s).
Proof.
  intros Hne. unfold set_token, set_api_key, is_owner.
  rewrite bool_decide_eq_false_2 by done. by split.
Qed.

(** *** Play without a voice client *)

Lemma play_try_without_voice_client world ctx s query u info :
  voice_clients s !! guild_id ctx = None ->
  selection (search_results s) (guild_id ctx) query = Ok u ->
  ytdl_extract_info world u = Ok info ->
  entries_of info <> [] ->
  let g := guild_id ctx in
  let players := seq (length (objects s)) (length (entries_of info)) in
  exists added,
    play_try world ctx query s =
    (Raise (none_has_no "is_playing"),
     emit (Send g added)
       (with_song_queues <[g := pending s g ++ players]>
          (with_objects (fun o => o ++ (new_YTDLSource <$> entries_of info))
             (emit (Extract u) s)))).
Proof.
  intros Hvc Hsel Hinfo Hne g players. subst g.
  unfold play_try, bind at 1, gets at 1. rewrite Hsel.
  unfold bind at 1, ret at 1. unfold bind at 1.
  rewrite (from_url_objects _ _ _ _ Hinfo). fold players.
  assert (exists p ps, players = p :: ps) as (p & ps & Hpl).
  { subst players. destruct (entries_of info); [done|]. simpl. by eexists _, _. }
  unfold bind at 1. rewrite put_all_nonempty by (by rewrite Hpl).
  set (s2 := with_song_queues _ _).
  unfold bind at 1.
  assert (Hsent : exists t,
    (if 1 <? len players
     then send ctx ("**Added " +:+ pretty (len players) +:+ " songs to the queue.**")
     else match players with
          | first :: _ =>
              (let* s := gets id in
               send ctx ("**Added to queue:** " +:+ title_of s first))
          | [] => raise list_index_out_of_range
          end) s2 = (Ok tt, emit (Send (guild_id ctx) t) s2)).
  { destruct (1 <? len players); [by eexists|]. rewrite Hpl. by eexists. }
  destruct Hsent as [t ->]. exists t.
  unfold voice_client, bind, gets.
  change (voice_clients (emit (Send (guild_id ctx) t) s2)) with (voice_clients s).
  by rewrite Hvc.
Qed.

(** C10. In the 2.0 variant, a [play] in a guild without a voice client
    whose query resolves to one or more tracks leaves these tracks at the
    back of the queue, in the order of the provider, although the command
    ends by reporting an error: what it sends is the confirmation of the
    tracks added and then the error. *)
Theorem play_without_voice_client_keeps_tracks world ctx s query u info :
  voice_clients s !! guild_id ctx = None ->
  selection (search_results s) (guild_id ctx) query = Ok u ->
  ytdl_extract_info world u = Ok info ->
  entries_of info <> [] ->
  let g := guild_id ctx in
  let s' := (play world ctx query s).2 in
  (play world ctx query s).1 = Ok tt /\
  pending s' g = pending s g ++ seq (length (objects s)) (length (entries_of info)) /\
  objects s' = objects s ++ (new_YTDLSource <$> entries_of info) /\
  voice_clients s' = voice_clients s /\
  exists added,
    log s' = log s ++
      [Extract u; Send g added;
       Send g "An error occurred: 'NoneType' object has no attribute 'is_playing'"].
Proof.
  intros Hvc Hsel Hinfo Hne g s'. subst g s'.
  unfold play, bind.
  destruct (get_queue_frame ctx s) as (Hq & Hpend & Hsr & Hv & Hobj & Hlog).
  destruct (get_queue ctx s) as [r s0]. simpl in Hq, Hpend, Hsr, Hv, Hobj, Hlog.
  subst r.
  destruct (play_try_without_voice_client world ctx s0 query u info)
    as [added Heq]; rewrite ?Hv, ?Hsr; try done.
  unfold try_except. rewrite Heq. simpl.
  unfold pending at 1. simpl. rewrite lookup_insert_eq. simpl.
  rewrite Hpend, Hobj, Hlog, Hv. repeat split; try done.
  exists added. by rewrite <- !app_assoc.
Qed.

Lemma play_without_voice_client_keeps_tracks_witness :
  voice_clients initial !! 1 = None /\
  selection (search_results initial) 1 "album" = Ok "album" /\
  pending (play Sample.world Sample.ctx "album" initial).2 1 = [0; 1; 2]%nat /\
  sent 1 (log (play Sample.world Sample.ctx "album" initial).2) =
    ["**Added 3 songs to the queue.**";
     "An error occurred: 'NoneType' object has no attribute 'is_playing'"].
Proof.
  split; [reflexivity|]. split; [reflexivity|].
  pose proof (play_without_voice_client_keeps_tracks Sample.world Sample.ctx
                initial "album" "album"
                (Playlist [Sample.entry "A"; Sample.entry "B"; Sample.entry "C"])
                eq_refl eq_refl eq_refl ltac:(discriminate)) as (_ & H & _).
  split; [exact H|reflexivity].
Defined.


(** *** The queues and the store *)

Lemma consistent_initial : consistent initial.
Proof.
  split; unfold queued, current; simpl.
  - intros g q H. by rewrite lookup_empty in H.
  - intros g g' q q' r _ H. by rewrite lookup_empty in H.
  - intros r (g & q & H & _). by rewrite lookup_empty in H.
  - intros r (g & q & H & _). by rewrite lookup_empty in H.
  - intros r (g & vc & H & _). by rewrite lookup_empty in H.
Qed.

Lemma queued_pending s r :
  queued s r <-> exists g, r ∈ pending s g.
Proof.
  unfold queued, pending. split.
  - intros (g & q & Hq & Hr). exists g. by rewrite Hq.
  - intros (g & Hr). destruct (song_queues s !! g) as [q|] eqn:Hq; simpl in Hr.
    + by exists g, q.
    + by apply elem_of_nil in Hr.
Qed.

Lemma queued_allocated s r :
  consistent s -> queued s r -> (r < length (objects s))%nat.
Proof.
  intros Hs Hr. apply (queued_default s Hs) in Hr. unfold volume_of in Hr.
  destruct (objects s !! r) eqn:Ho; [|done].
  by apply lookup_lt_Some in Ho.
Qed.

(** A state that differs only in the credentials, the search results or
    the log is as consistent. *)
Lemma consistent_same s s' :
  song_queues s' = song_queues s ->
  voice_clients s' = voice_clients s ->
  objects s' = objects s ->
  consistent s -> consistent s'.
Proof.
  intros Hq Hv Ho [H1 H2 H3 H4 H5].
  split; unfold queued, current, volume_of in *; rewrite ?Hq, ?Hv, ?Ho; done.
Qed.

(** Replacing the queue of a guild by a selection of its elements. *)
Lemma consistent_shrink g q' s :
  NoDup q' ->
  (forall r, r ∈ q' -> r ∈ pending s g) ->
  consistent s ->
  consistent (with_song_queues <[g := q']> s).
Proof.
  intros Hnd Hsub Hs.
  assert (Hqd : forall r, queued (with_song_queues <[g := q']> s) r -> queued s r).
  { intros r (g1 & q1 & Hq1 & Hr). simpl in Hq1.
    destruct (decide (g = g1)) as [<-|Hne].
    - rewrite lookup_insert_eq in Hq1. simplify_eq.
      apply queued_pending. exists g. by apply Hsub.
    - rewrite lookup_insert_ne in Hq1 by done. by exists g1, q1. }
  destruct Hs as [H1 H2 H3 H4 H5]. split.
  - intros g1 q1 Hq1. simpl in Hq1.
    destruct (decide (g = g1)) as [<-|Hne].
    + rewrite lookup_insert_eq in Hq1. by simplify_eq.
    + rewrite lookup_insert_ne in Hq1 by done. by eapply H1.
  - intros g1 g2 q1 q2 r Hne Hq1 Hq2 Hr1 Hr2. simpl in Hq1, Hq2.
    destruct (decide (g = g1)) as [<-|Hne1].
    + rewrite lookup_insert_eq in Hq1. rewrite lookup_insert_ne in Hq2 by done.
      simplify_eq. apply Hsub in Hr1. unfold pending in Hr1.
      destruct (song_queues s !! g) as [q|] eqn:Hq; simpl in Hr1;
        [|by apply elem_of_nil in Hr1].
      by eapply (H2 g g2).
    + rewrite lookup_insert_ne in Hq1 by done.
      destruct (decide (g = g2)) as [<-|Hne2].
      * rewrite lookup_insert_eq in Hq2. simplify_eq.
        apply Hsub in Hr2. unfold pending in Hr2.
        destruct (song_queues s !! g) as [q|] eqn:Hq; simpl in Hr2;
          [|by apply elem_of_nil in Hr2].
        by eapply (H2 g1 g).
      * rewrite lookup_insert_ne in Hq2 by done. by eapply (H2 g1 g2).
  - intros r Hr. apply Hqd in Hr. by apply H3.
  - intros r Hr. apply Hqd in Hr. by apply H4.
  - done.
Qed.

(** New instances at the end of the store. *)
Lemma consistent_allocate extra s :
  consistent s ->
  consistent (with_objects (fun o => o ++ extra) s).
Proof.
  intros Hs. pose proof (fun r => queued_allocated s r Hs) as Hal.
  destruct Hs as [H1 H2 H3 H4 H5]. split; try done.
  - intros r Hr. unfold volume_of. simpl.
    rewrite lookup_app_l by (by apply Hal). by apply H3.
  - intros r Hr. simpl. rewrite length_app. specialize (H5 r Hr). lia.
Qed.

(** Appending references that are nowhere yet. *)
Lemma consistent_enqueue g rs s :
  NoDup rs ->
  (forall r, r ∈ rs ->
     ~ queued s r /\ ~ current s r /\ volume_of s r = Some default_volume) ->
  consistent s ->
  consistent (with_song_queues <[g := pending s g ++ rs]> s).
Proof.
  intros Hnd Hfresh Hs.
  assert (Hqd : forall r, queued (with_song_queues <[g := pending s g ++ rs]> s) r ->
                          queued s r \/ r ∈ rs).
  { intros r (g1 & q1 & Hq1 & Hr). simpl in Hq1.
    destruct (decide (g = g1)) as [<-|Hne].
    - rewrite lookup_insert_eq in Hq1. simplify_eq.
      apply elem_of_app in Hr as [Hr|Hr]; [left|by right].
      apply queued_pending. by exists g.
    - rewrite lookup_insert_ne in Hq1 by done. left. by exists g1, q1. }
  assert (Hpd : forall g1 q1 r, song_queues s !! g1 = Some q1 -> r ∈ q1 -> r ∉ rs).
  { intros g1 q1 r Hq1 Hr Hin. apply (proj1 (Hfresh r Hin)). by exists g1, q1. }
  destruct Hs as [H1 H2 H3 H4 H5]. split.
  - intros g1 q1 Hq1. simpl in Hq1.
    destruct (decide (g = g1)) as [<-|Hne].
    + rewrite lookup_insert_eq in Hq1. simplify_eq.
      apply NoDup_app. split; [|split; [|done]].
      * unfold pending. destruct (song_queues s !! g) eqn:Hq; simpl;
          [by eapply H1|constructor].
      * intros r Hr Hin. apply (proj1 (Hfresh r Hin)).
        apply queued_pending. by exists g.
    + rewrite lookup_insert_ne in Hq1 by done. by eapply H1.
  - intros g1 g2 q1 q2 r Hne Hq1 Hq2 Hr1 Hr2. simpl in Hq1, Hq2.
    destruct (decide (g = g1)) as [<-|Hne1].
    + rewrite lookup_insert_eq in Hq1. rewrite lookup_insert_ne in Hq2 by done.
      simplify_eq. apply elem_of_app in Hr1 as [Hr1|Hr1].
      * unfold pending in Hr1.
        destruct (song_queues s !! g) as [q|] eqn:Hq; simpl in Hr1;
          [|by apply elem_of_nil in Hr1].
        by eapply (H2 g g2).
      * by eapply Hpd.
    + rewrite lookup_insert_ne in Hq1 by done.
      destruct (decide (g = g2)) as [<-|Hne2].
      * rewrite lookup_insert_eq in Hq2. simplify_eq.
        apply elem_of_app in Hr2 as [Hr2|Hr2].
        -- unfold pending in Hr2.
           destruct (song_queues s !! g) as [q|] eqn:Hq; simpl in Hr2;
             [|by apply elem_of_nil in Hr2].
           by eapply (H2 g1 g).
        -- by eapply Hpd.
      * rewrite lookup_insert_ne in Hq2 by done. by eapply (H2 g1 g2).
  - intros r Hr. apply Hqd in Hr as [Hr|Hr]; [by apply H3|by apply Hfresh].
  - intros r Hr. apply Hqd in Hr as [Hr|Hr];
      [by apply H4|by apply (proj1 (proj2 (Hfresh r Hr)))].
  - done.
Qed.

(** Giving a guild a voice client whose source, if it has one, is an
    instance that is not pending. *)
Lemma consistent_voice g vc' s :
  (forall r, source vc' = Some r -> ~ queued s r /\ (r < length (objects s))%nat) ->
  consistent s ->
  consistent (with_voice_clients <[g := vc']> s).
Proof.
  intros Hsrc [H1 H2 H3 H4 H5]. split; try done.
  - intros r Hr (g1 & vc1 & Hv & Hs). simpl in Hv.
    destruct (decide (g = g1)) as [<-|Hne].
    + rewrite lookup_insert_eq in Hv. simplify_eq. by apply (Hsrc r).
    + rewrite lookup_insert_ne in Hv by done. apply (H4 r Hr). by exists g1, vc1.
  - intros r (g1 & vc1 & Hv & Hs). simpl in *.
    destruct (decide (g = g1)) as [<-|Hne].
    + rewrite lookup_insert_eq in Hv. simplify_eq. by apply (Hsrc r).
    + rewrite lookup_insert_ne in Hv by done. apply H5. by exists g1, vc1.
Qed.

Lemma consistent_voice_same_source g vc vc' s :
  voice_clients s !! g = Some vc ->
  (forall r, source vc' = Some r -> source vc = Some r) ->
  consistent s ->
  consistent (with_voice_clients <[g := vc']> s).
Proof.
  intros Hv Hsrc Hs. apply consistent_voice; [|done].
  intros r Hr. apply Hsrc in Hr.
  assert (current s r) as Hc by (by exists g, vc).
  split; [|by apply (current_allocated s Hs)].
  intros Hq. by apply (queued_not_current s Hs r).
Qed.

Lemma consistent_disconnect g s :
  consistent s -> consistent (with_voice_clients (delete g) s).
Proof.
  intros [H1 H2 H3 H4 H5].
  assert (forall r, current (with_voice_clients (delete g) s) r -> current s r) as Hc.
  { intros r (g1 & vc1 & Hv & Hs). simpl in Hv.
    apply lookup_delete_Some in Hv as [_ Hv]. by exists g1, vc1. }
  split; try done.
  - intros r Hr Hcur. apply (H4 r Hr). by apply Hc.
  - intros r Hcur. apply H5. by apply Hc.
Qed.

(** Assigning to the gain of the source of a voice client. *)
Lemma consistent_set_volume c v s :
  current s c ->
  consistent s ->
  consistent (with_objects (fun o =>
    match o !! c with
    | Some p => <[c := set_volume v p]> o
    | None => o
    end) s).
Proof.
  intros Hc Hs. destruct (objects s !! c) as [p|] eqn:Ho.
  2:{ eapply consistent_same; [..|exact Hs]; simpl; by rewrite ?Ho. }
  pose proof Hs as [H1 H2 H3 H4 H5]. split; try done.
  - intros r Hr. unfold volume_of. simpl. rewrite Ho.
    rewrite list_lookup_insert_ne; [by apply H3|].
    intros <-. by apply (H4 c Hr).
  - intros r Hr. simpl. rewrite Ho, length_insert. by apply H5.
Qed.


(** *** The handlers keep the queues and the store consistent *)

Lemma consistent_emit e s : consistent s -> consistent (emit e s).
Proof. by apply consistent_same. Qed.

Lemma get_queue_consistent ctx s :
  consistent s ->
  consistent (get_queue ctx s).2 /\
  song_queues (get_queue ctx s).2 !! guild_id ctx = Some (pending s (guild_id ctx)).
Proof.
  intros Hs. unfold get_queue, pending. run2.
  destruct (song_queues s !! guild_id ctx) eqn:Hq; run2; [done|].
  split; [|by rewrite lookup_insert_eq].
  apply consistent_shrink; [constructor| |done].
  intros r Hr. by apply elem_of_nil in Hr.
Qed.

Lemma drain_spec g q s :
  drain g q s =
  (Ok tt, match q with
          | [] => s
          | _ :: _ => with_song_queues <[g := []]> s
          end).
Proof.
  revert s. induction q as [|r q IH]; intros s; [done|].
  simpl. unfold bind, modify. rewrite IH. destruct q; [done|].
  f_equal. unfold with_song_queues. simpl. by rewrite insert_insert_eq.
Qed.

Lemma dequeue_consistent g r rest s :
  song_queues s !! g = Some (r :: rest) ->
  consistent s ->
  let s1 := with_song_queues <[g := rest]> s in
  consistent s1 /\ ~ queued s1 r /\ (r < length (objects s1))%nat.
Proof.
  intros Hq Hs s1.
  pose proof (queues_nodup s Hs g _ Hq) as Hnd. apply NoDup_cons in Hnd as [Hnr Hnd].
  split; [|split].
  - apply consistent_shrink; [done| |done].
    intros x Hx. unfold pending. rewrite Hq. simpl. by right.
  - intros (g1 & q1 & Hq1 & Hr). subst s1. simpl in Hq1.
    destruct (decide (g = g1)) as [<-|Hne].
    + rewrite lookup_insert_eq in Hq1. by simplify_eq.
    + rewrite lookup_insert_ne in Hq1 by done.
      apply (queues_disjoint s Hs g g1 (r :: rest) q1 r); [done..|by left|done].
  - apply (queued_allocated s r Hs). exists g, (r :: rest). split; [done|by left].
Qed.

(** What [play_next] starts was pending. *)
Lemma play_next_effect ctx s :
  consistent s ->
  let s' := (play_next ctx s).2 in
  consistent s' /\
  objects s' = objects s /\
  forall g, exists out,
    played g (log s') = played g (log s) ++ out /\
    forall r, r ∈ out -> queued s r.
Proof.
  intros Hs. unfold play_next, get_queue. run2.
  assert (Hnone : forall g, exists out : list nat,
            played g (log s) = played g (log s) ++ out /\
            forall r, r ∈ out -> queued s r).
  { intros g. exists []. split; [by rewrite app_nil_r|].
    intros r Hr. by apply elem_of_nil in Hr. }
  destruct (song_queues s !! guild_id ctx) as [[|r rest]|] eqn:Hq; run2;
    rewrite ?lookup_insert_eq; simpl.
  - done.
  - destruct (voice_clients s !! guild_id ctx) as [vc|] eqn:Hv; [|done].
    destruct (dequeue_consistent _ _ _ _ Hq Hs) as (Hs1 & Hnq & Hal).
    unfold voice_play, vc_play. run2. rewrite Hv. simpl.
    destruct (vc_connected vc); simpl; [|done].
    destruct (is_playing vc); simpl; [done|].
    split; [|split; [done|]].
    + do 2 apply consistent_emit. by apply consistent_voice; [intros ? [= <-]|].
    + intros g. destruct (decide (guild_id ctx = g)) as [<-|Hne].
      * exists [r]. rewrite !played_app, played_VoicePlay. simpl.
        rewrite app_nil_r. split; [done|].
        intros x Hx. apply list_elem_of_singleton in Hx as ->.
        exists (guild_id ctx), (r :: rest). split; [done|by left].
      * exists []. rewrite !played_app. simpl.
        rewrite bool_decide_eq_false_2 by done. simpl.
        split; [by rewrite !app_nil_r|]. intros x Hx. by apply elem_of_nil in Hx.
  - split; [|done].
    apply consistent_shrink; [constructor| |done].
    intros r Hr. by apply elem_of_nil in Hr.
Qed.


Lemma starts_default_refl s : starts_default s s.
Proof.
  intros g. exists []. split; [by rewrite app_nil_r|].
  intros r Hr. by apply elem_of_nil in Hr.
Qed.

Lemma starts_default_quiet s s' :
  (forall g, played g (log s') = played g (log s)) -> starts_default s s'.
Proof.
  intros H g. exists []. split; [by rewrite app_nil_r, H|].
  intros r Hr. by apply elem_of_nil in Hr.
Qed.

Lemma starts_default_after s s1 s' :
  (forall g, played g (log s1) = played g (log s)) ->
  starts_default s1 s' -> starts_default s s'.
Proof. intros H H1 g. destruct (H1 g) as (out & Ho & Hd). exists out. by rewrite <- H. Qed.

Lemma starts_default_then s s1 s' :
  starts_default s s1 ->
  (forall g, played g (log s') = played g (log s1)) ->
  objects s' = objects s1 ->
  starts_default s s'.
Proof.
  intros H1 H Ho g. destruct (H1 g) as (out & Hp & Hd). exists out.
  rewrite H. split; [done|]. unfold volume_of in *. by rewrite Ho.
Qed.

Lemma play_next_starts_default ctx s :
  consistent s ->
  consistent (play_next ctx s).2 /\ starts_default s (play_next ctx s).2.
Proof.
  intros Hs. destruct (play_next_effect ctx s Hs) as (Hs' & Ho & Hout).
  split; [done|]. intros g. destruct (Hout g) as (out & Hp & Hq).
  exists out. split; [done|]. intros r Hr. unfold volume_of. rewrite Ho.
  by apply (queued_default s Hs), Hq.
Qed.

Lemma track_finished_starts_default ctx s :
  consistent s ->
  consistent (track_finished ctx s).2 /\ starts_default s (track_finished ctx s).2.
Proof.
  intros Hs. unfold track_finished, bind, modify.
  set (s0 := with_voice_clients _ s).
  assert (consistent s0) as Hs0.
  { subst s0. destruct (voice_clients s !! guild_id ctx) as [vc|] eqn:Hv.
    - unfold with_voice_clients. simpl. rewrite Hv.
      apply (consistent_voice_same_source _ vc); [done| |done].
      intros r. unfold source, vc_finish. simpl. by destruct (vc_player vc).
    - eapply consistent_same; [..|exact Hs]; simpl; by rewrite ?Hv. }
  destruct (play_next_starts_default ctx s0 Hs0) as (H1 & H2).
  split; [done|]. by eapply starts_default_after; [|exact H2].
Qed.

(** The part of [play_try] that follows the loop over the players. *)
Lemma play_try_rest_starts_default ctx (players : list nat) s :
  consistent s ->
  let rest :=
    ((if 1 <? len players then
        send ctx ("**Added " +:+ pretty (len players) +:+ " songs to the queue.**")
      else
        match players with
        | first :: _ =>
            let* s := gets id in
            send ctx ("**Added to queue:** " +:+ title_of s first)
        | [] => raise list_index_out_of_range
        end) >>
     let* vc := voice_client ctx "is_playing" in
     if negb (is_playing vc) then play_next ctx else ret tt) in
  consistent (rest s).2 /\ starts_default s (rest s).2.
Proof.
  intros Hs rest. subst rest.
  assert (forall t,
    let m := (let* vc := voice_client ctx "is_playing" in
              if negb (is_playing vc) then play_next ctx else ret tt) in
    consistent (m (emit (Send (guild_id ctx) t) s)).2 /\
    starts_default s (m (emit (Send (guild_id ctx) t) s)).2) as Hrest.
  { intros t m. subst m. unfold voice_client, bind, gets.
    change (voice_clients (emit (Send (guild_id ctx) t) s)) with (voice_clients s).
    assert (consistent (emit (Send (guild_id ctx) t) s)) as Hs1
      by (by apply consistent_emit).
    assert (starts_default s (emit (Send (guild_id ctx) t) s)) as Hd1.
    { apply starts_default_quiet. intros g. simpl. rewrite played_app. simpl.
      by rewrite app_nil_r. }
    destruct (voice_clients s !! guild_id ctx) as [vc|]; simpl; [|done].
    destruct (is_playing vc); simpl; [done|].
    destruct (play_next_starts_default ctx _ Hs1) as (H1 & H2).
    split; [done|]. eapply starts_default_after; [|exact H2].
    intros g. simpl. rewrite played_app. simpl. by rewrite app_nil_r. }
  unfold bind at 1.
  destruct (1 <? len players).
  - unfold send at 1, modify at 1. apply Hrest.
  - destruct players as [|p ps].
    + unfold raise. simpl. split; [done|apply starts_default_refl].
    + unfold bind at 1, gets at 1, send at 1, modify at 1. apply Hrest.
Qed.


Lemma construct_enqueue_consistent g es s :
  consistent s ->
  let s1 := with_objects (fun o => o ++ (new_YTDLSource <$> es)) s in
  consistent (enqueue g (seq (length (objects s)) (length es)) s1).2.
Proof.
  intros Hs s1. rewrite put_all_spec.
  assert (consistent s1) as Hs1 by (by apply consistent_allocate).
  destruct (seq (length (objects s)) (length es)) as [|r rs] eqn:Hseq; [done|].
  rewrite <- Hseq. simpl.
  apply consistent_enqueue; [apply NoDup_seq| |done].
  intros x Hx. apply elem_of_seq in Hx as [Hlo Hhi]. split; [|split].
  - intros Hq. assert (queued s x) as Hq' by done.
    apply (queued_allocated s x Hs) in Hq'. lia.
  - intros Hc. assert (current s x) as Hc' by done.
    apply (current_allocated s Hs) in Hc'. lia.
  - unfold volume_of. subst s1. simpl.
    rewrite lookup_app_r by lia.
    destruct (lookup_lt_is_Some_2 (new_YTDLSource <$> es) (x - length (objects s))) as [p Hp].
    { rewrite length_fmap. lia. }
    rewrite Hp. simpl. apply list_lookup_fmap_Some in Hp as (e & -> & _). done.
Qed.

Lemma play_try_starts_default world ctx query s :
  consistent s ->
  consistent (play_try world ctx query s).2 /\
  starts_default s (play_try world ctx query s).2.
Proof.
  intros Hs.
  change ((fun s' => consistent s' /\ starts_default s s')
            (play_try world ctx query s).2).
  set (Q := fun s' => consistent s' /\ starts_default s s').
  unfold play_try, bind at 1, gets at 1.
  destruct (selection (search_results s) (guild_id ctx) query) as [u|e].
  2:{ simpl. split; [done|apply starts_default_refl]. }
  unfold bind at 1, ret at 1. unfold bind at 1.
  assert (starts_default s (emit (Extract u) s)) as Hq0.
  { apply starts_default_quiet. intros g. simpl. rewrite played_app.
    simpl. by rewrite app_nil_r. }
  assert (exists es,
    from_url world u s =
      (Ok (seq (length (objects s)) (length es)),
       with_objects (fun o => o ++ (new_YTDLSource <$> es)) (emit (Extract u) s))
    \/ exists e, from_url world u s = (Raise e, emit (Extract u) s)) as (es & Hfrom).
  { unfold from_url, construct. run2.
    destruct (ytdl_extract_info world u) as [[es|d]|e];
      [exists es|exists [d]|exists []]; eauto. }
  destruct Hfrom as [->|[e ->]].
  2:{ simpl. split; [by apply consistent_emit|by apply Hq0]. }
  unfold bind at 1.
  pose proof (construct_enqueue_consistent (guild_id ctx) es (emit (Extract u) s)
                (consistent_emit _ _ Hs)) as Hs2.
  simpl in Hs2.
  set (s1 := with_objects _ _) in *.
  destruct (put_all_frame (guild_id ctx) (seq (length (objects s)) (length es)) s1)
    as (Hok & _ & _ & Hlog).
  destruct (enqueue (guild_id ctx) (seq (length (objects s)) (length es)) s1)
    as [r s2]. simpl in Hok, Hlog, Hs2. subst r.
  destruct (play_try_rest_starts_default ctx (seq (length (objects s)) (length es))
              s2 Hs2) as (H1 & H2).
  split; [exact H1|]. eapply starts_default_after; [|exact H2].
  intros g. rewrite Hlog. subst s1. simpl. rewrite played_app. simpl.
  by rewrite app_nil_r.
Qed.

Lemma play_starts_default world ctx query s :
  consistent s ->
  consistent (play world ctx query s).2 /\
  starts_default s (play world ctx query s).2.
Proof.
  intros Hs. unfold play, bind.
  destruct (get_queue_consistent ctx s Hs) as (Hs0 & _).
  destruct (get_queue_frame ctx s) as (Hq & _ & _ & _ & _ & Hlog).
  destruct (get_queue ctx s) as [r s0]. simpl in Hs0, Hq, Hlog. subst r.
  destruct (play_try_starts_default world ctx query s0 Hs0) as (H1 & H2).
  assert (starts_default s (play_try world ctx query s0).2) as H3.
  { eapply starts_default_after; [|exact H2]. intros g. by rewrite Hlog. }
  unfold try_except. destruct (play_try world ctx query s0) as [[[]|e] s1];
    simpl in *; [done|].
  split; [by apply consistent_emit|].
  eapply starts_default_then; [exact H3| |done].
  intros g. simpl. rewrite played_app. simpl. by rewrite app_nil_r.
Qed.



(** The handlers that never reach [play_next] start nothing. *)
Ltac quiet :=
  preserving;
  try (apply preserves_modify; intros ? ?; simpl;
       rewrite ?played_app; simpl; rewrite ?app_nil_r; done).

Lemma drain_quiet (Q : State -> Prop) g q :
  (forall f s, Q s -> Q (with_song_queues f s)) ->
  preserves Q (drain g q).
Proof.
  intros HQ. induction q as [|r q IH]; simpl.
  - apply preserves_ret.
  - apply preserves_bind; [|by intros _]. apply preserves_modify. intros s. apply HQ.
Qed.

Lemma other_handlers_quiet world e g l :
  match e with
  | Play _ _ | TrackFinished _ | AfterCallback _ => False
  | _ => True
  end ->
  preserves (fun s => played g (log s) = l) (handle world e).
Proof.
  destruct e; simpl; try done; intros _.
  - unfold join, send, set_voice_client. quiet.
  - unfold leave. quiet.
  - unfold search, send. quiet.
  - unfold volume, send. quiet.
  - unfold nowplaying, send. quiet.
  - unfold queue_info, get_queue, send. quiet.
  - unfold skip, send, set_voice_client. quiet.
  - unfold stop, get_queue, send, set_voice_client. quiet.
    by apply drain_quiet.
  - unfold set_token, set_token_callback, send. apply preserves_invoke; [quiet|done].
  - unfold set_api_key, set_api_key_callback, send. apply preserves_invoke; [quiet|done].
Qed.

Ltac keep :=
  preserving;
  try (apply preserves_modify; intros ?;
       first [ by apply consistent_same
             | intros ?; apply consistent_shrink;
                 [constructor|intros ? ?%elem_of_nil; done|done]
             | intros ?; apply consistent_voice;
                 [intros ? Hsrc; cbv in Hsrc; discriminate|done] ]).

Lemma stop_consistent ctx s : consistent s -> consistent (stop ctx s).2.
Proof.
  intros Hs. unfold stop, bind at 1.
  destruct (get_queue_consistent ctx s Hs) as (Hs0 & _).
  destruct (get_queue ctx s) as [[q|e] s0]; simpl in Hs0; [|done].
  unfold bind at 1. rewrite drain_spec.
  set (s1 := match q with [] => s0 | _ => _ end).
  assert (consistent s1) as Hs1.
  { subst s1. destruct q; [done|].
    apply consistent_shrink; [constructor|intros ? ?%elem_of_nil; done|done]. }
  revert Hs1. generalize s1. clear. intros s Hs.
  assert (preserves consistent
    (let* vcs := gets voice_clients in
     (match vcs !! guild_id ctx with
      | Some vc => set_voice_client ctx (vc_stop vc)
      | None => ret tt
      end) >> send ctx "Music stopped and queue cleared.")) as H.
  { unfold set_voice_client, send. keep. }
  by apply H.
Qed.

Lemma volume_consistent ctx v s : consistent s -> consistent (volume ctx v s).2.
Proof.
  intros Hs. unfold volume. run2.
  destruct (voice_clients s !! guild_id ctx) as [vc|] eqn:Hv; simpl; [|done].
  destruct (source vc) as [c|] eqn:Hc; simpl; [|done].
  destruct (percent v) as [gain|err]; simpl; [|done].
  apply consistent_emit, consistent_set_volume; [|done].
  by exists (guild_id ctx), vc.
Qed.

Lemma other_handlers_consistent world e :
  match e with
  | Play _ _ | TrackFinished _ | AfterCallback _ => False
  | _ => True
  end ->
  preserves consistent (handle world e).
Proof.
  destruct e; simpl; try done; intros _.
  - unfold join, send, set_voice_client. keep.
  - unfold leave. keep. apply preserves_modify. intros s. apply consistent_disconnect.
  - unfold search, send. keep.
  - intros s. apply volume_consistent.
  - unfold nowplaying, send. keep.
  - unfold queue_info, get_queue, send. keep.
  - unfold skip, send, set_voice_client. keep.
  - intros s. apply stop_consistent.
  - unfold set_token, set_token_callback, send. apply preserves_invoke; [keep|done].
  - unfold set_api_key, set_api_key_callback, send. apply preserves_invoke; [keep|done].
Qed.

Lemma handle_starts_default world e s :
  consistent s ->
  consistent (handle world e s).2 /\ starts_default s (handle world e s).2.
Proof.
  intros Hs.
  assert (match e with
          | Play _ _ | TrackFinished _ | AfterCallback _ => False
          | _ => True
          end ->
          consistent (handle world e s).2 /\ starts_default s (handle world e s).2)
    as Hother.
  { intros He. split; [by apply other_handlers_consistent|].
    apply starts_default_quiet. intros g.
    by apply (other_handlers_quiet world e g (played g (log s)) He s). }
  destruct e; try (by apply Hother); simpl.
  - by apply play_starts_default.
  - by apply track_finished_starts_default.
  - by apply play_next_starts_default.
Qed.

Lemma reachable_from_consistent s0 s :
  consistent s0 -> reachable_from s0 s -> consistent s.
Proof.
  intros H0 Hr. induction Hr as [|world e s Hr IH]; [done|].
  by apply handle_starts_default.
Qed.

Lemma reachable_consistent s : reachable s -> consistent s.
Proof. apply reachable_from_consistent, consistent_initial. Qed.


(** *** The volume command *)

Lemma volume_frame ctx v s g r :
  consistent s ->
  r ∈ pending s g ->
  pending (volume ctx v s).2 g = pending s g /\
  volume_of (volume ctx v s).2 r = volume_of s r /\
  volume_of s r = Some default_volume.
Proof.
  intros Hs Hr.
  assert (queued s r) as Hq by (apply queued_pending; by exists g).
  split; [|split; [|by apply (queued_default s Hs)]].
  - unfold volume. run2.
    destruct (voice_clients s !! guild_id ctx ≫= source); [|done].
    by destruct (percent v).
  - unfold volume. run2.
    destruct (voice_clients s !! guild_id ctx) as [vc|] eqn:Hv; simpl; [|done].
    destruct (source vc) as [c|] eqn:Hc; simpl; [|done].
    destruct (percent v) as [gain|err]; simpl; [|done].
    unfold volume_of. simpl.
    destruct (objects s !! c) eqn:Ho; [|done].
    rewrite list_lookup_insert_ne; [done|].
    intros <-. apply (queued_not_current s Hs c Hq). by exists (guild_id ctx), vc.
Qed.

(** C9. In a state the 2.0 bot can be in, a [volume] command leaves every
    queue as it is and changes the gain of no pending track, each of which
    has the default gain 0.5; and in every state that follows, whichever
    event comes next, the tracks that the event hands to a voice client
    have the default gain when the event is over. *)
Theorem volume_is_not_carried_over s ctx v :
  reachable s ->
  let s1 := (volume ctx v s).2 in
  (forall g, pending s1 g = pending s g) /\
  (forall g r, r ∈ pending s g ->
     volume_of s1 r = volume_of s r /\ volume_of s r = Some default_volume) /\
  (forall s2 world e, reachable_from s1 s2 ->
     starts_default s2 (handle world e s2).2).
Proof.
  intros Hr s1. pose proof (reachable_consistent s Hr) as Hs.
  split; [|split].
  - intros g. subst s1. unfold volume. run2.
    destruct (voice_clients s !! guild_id ctx ≫= source); [|done].
    by destruct (percent v).
  - intros g r Hin. by apply (volume_frame ctx v s g r Hs).
  - intros s2 world e H2.
    apply handle_starts_default.
    apply (reachable_from_consistent s1); [|done].
    by apply volume_consistent.
Qed.

Lemma volume_is_not_carried_over_witness :
  reachable Sample.playing2 /\
  let s1 := (volume Sample.ctx 80 Sample.playing2).2 in
  source <$> voice_clients s1 !! 1 = Some (Some 0%nat) /\
  volume_of s1 0%nat = Some (Qmake 80 100) /\
  pending s1 1 = [1; 2]%nat /\
  volume_of s1 1%nat = Some default_volume /\
  starts_default s1 (handle Sample.world (TrackFinished Sample.ctx) s1).2.
Proof.
  assert (reachable Sample.playing2) as Hr.
  { apply (reachable_step initial Sample.world (Play Sample.ctx "album")),
          (reachable_step initial Sample.world (Join Sample.ctx)),
          reachable_here. }
  split; [exact Hr|].
  destruct (volume_is_not_carried_over Sample.playing2 Sample.ctx 80 Hr)
    as (H1 & H2 & H3).
  cbv zeta. split; [reflexivity|]. split; [reflexivity|].
  split; [exact (H1 1)|]. split.
  - destruct (H2 1 1%nat) as [Ha Hb]; [change (1%nat ∈ [1; 2]%nat); left|].
    rewrite Ha. exact Hb.
  - apply H3, reachable_here.
Defined.

End OwnDMusicBot2Proofs.

(** ** The two variants side by side *)




(** In the 2.0 variant the number 0 selects the last result of the search,
    as a Python index of -1 does. *)
Lemma play_zero_selects_last_result :
  OwnDMusicBot2.selection (OwnDMusicBot2.search_results Sample.searched2) 1 "0"
  = Ok "https://www.youtube.com/watch?v=id2".
Proof. reflexivity. Qed.

(** C2. In both variants, whatever batches of tracks the loop of [play]
    appends to the queue of a guild and whenever in between the current
    track ends, the tracks that the advance step hands to the voice
    client, followed by the tracks still pending, are the tracks that were
    pending at the start followed by the batches, in the order in which
    they were appended. *)
Theorem dequeue_order_is_enqueue_order ctx
    (ops1 : list (queue_op YTDLSource)) (s1 : OwnedBot.State) vc1
    (ops2 : list (queue_op nat)) (s2 : OwnDMusicBot2.State) vc2 :
  OwnedBot.voice_clients s1 !! guild_id ctx = Some vc1 ->
  vc_connected vc1 = true ->
  OwnedBot.stopping s1 (guild_id ctx) = false ->
  OwnDMusicBot2.voice_clients s2 !! guild_id ctx = Some vc2 ->
  vc_connected vc2 = true ->
  let g := guild_id ctx in
  let t1 := (OwnedBot.run_ops ctx ops1 s1).2 in
  let t2 := (OwnDMusicBot2.run_ops ctx ops2 s2).2 in
  ((OwnedBot.run_ops ctx ops1 s1).1 = Ok tt /\
   exists out,
     played g (OwnedBot.log t1) = played g (OwnedBot.log s1) ++ out /\
     out ++ OwnedBot.pending t1 g = OwnedBot.pending s1 g ++ enqueued ops1) /\
  ((OwnDMusicBot2.run_ops ctx ops2 s2).1 = Ok tt /\
   exists out,
     played g (OwnDMusicBot2.log t2) = played g (OwnDMusicBot2.log s2) ++ out /\
     out ++ OwnDMusicBot2.pending t2 g = OwnDMusicBot2.pending s2 g ++ enqueued ops2).
Proof.
  intros Hv1 Hc1 Hst Hv2 Hc2 g t1 t2. split.
  - by apply (OwnedBotProofs.run_ops_fifo ctx ops1 s1 vc1).
  - by apply (OwnDMusicBot2Proofs.run_ops_in_order ctx ops2 s2 vc2).
Qed.

Lemma dequeue_order_is_enqueue_order_witness :
  let A := Sample.track "A" in
  let B := Sample.track "B" in
  let C := Sample.track "C" in
  let ops1 := [Enqueue [A; B]; Advance; Enqueue [C]; Advance; Advance] in
  let ops2 := [Enqueue [0; 1]%nat; Advance; Enqueue [2%nat]; Advance] in
  played 1 (OwnedBot.log (OwnedBot.run_ops Sample.ctx ops1 Sample.joined1).2)
    = [A; B; C] /\
  OwnedBot.pending (OwnedBot.run_ops Sample.ctx ops1 Sample.joined1).2 1 = [] /\
  played 1 (OwnDMusicBot2.log (OwnDMusicBot2.run_ops Sample.ctx ops2 Sample.joined2).2)
    = [0; 1]%nat /\
  OwnDMusicBot2.pending (OwnDMusicBot2.run_ops Sample.ctx ops2 Sample.joined2).2 1
    = [2%nat].
Proof.
  intros A B C ops1 ops2.
  destruct (dequeue_order_is_enqueue_order Sample.ctx
              ops1 Sample.joined1 {| vc_connected := true; vc_player := None |}
              ops2 Sample.joined2 {| vc_connected := true; vc_player := None |}
              eq_refl eq_refl eq_refl eq_refl eq_refl)
    as [(_ & out1 & Hp1 & Hq1) (_ & out2 & Hp2 & Hq2)].
  assert (OwnedBot.pending (OwnedBot.run_ops Sample.ctx ops1 Sample.joined1).2 1 = [])
    as E1 by reflexivity.
  assert (OwnDMusicBot2.pending
            (OwnDMusicBot2.run_ops Sample.ctx ops2 Sample.joined2).2 1 = [2%nat])
    as E2 by reflexivity.
  simpl guild_id in *. rewrite E1 in Hq1. rewrite E2 in Hq2.
  rewrite app_nil_r in Hq1. subst out1.
  change (out2 ++ [2%nat] = [0; 1]%nat ++ [2%nat]) in Hq2.
  apply app_inv_tail in Hq2. subst out2.
  split; [exact Hp1|]. split; [exact E1|]. split; [exact Hp2|exact E2].
Defined.

(** C5, as the code has it. When the guild has a voice client that is not
    playing, [skip] of [OwnedBot.py] changes nothing and sends the one
    message "Not playing anything."; when nothing is playing, [skip] of
    the 2.0 variant changes nothing and sends nothing. *)
Theorem skip_while_not_playing ctx (s1 : OwnedBot.State) vc1
    (s2 : OwnDMusicBot2.State) :
  OwnedBot.voice_clients s1 !! guild_id ctx = Some vc1 ->
  is_playing vc1 = false ->
  (forall vc2, OwnDMusicBot2.voice_clients s2 !! guild_id ctx = Some vc2 ->
               is_playing vc2 = false) ->
  OwnedBot.skip ctx s1 =
    (Ok tt, OwnedBot.emit (Send (guild_id ctx) "Not playing anything.") s1) /\
  OwnDMusicBot2.skip ctx s2 = (Ok tt, s2).
Proof.
  intros Hv1 Hp1 H2. split.
  - by apply (OwnedBotProofs.skip_not_playing ctx s1 vc1).
  - by apply OwnDMusicBot2Proofs.skip_not_playing_is_silent.
Qed.

Lemma skip_while_not_playing_witness :
  sent 1 (OwnedBot.log (OwnedBot.skip Sample.ctx Sample.joined1).2)
    = ["Not playing anything."] /\
  OwnDMusicBot2.skip Sample.ctx Sample.joined2 = (Ok tt, Sample.joined2).
Proof.
  destruct (skip_while_not_playing Sample.ctx
              Sample.joined1 {| vc_connected := true; vc_player := None |}
              Sample.joined2 eq_refl eq_refl) as [H1 H2].
  { intros vc2 [= <-]. reflexivity. }
  split; [by rewrite H1|exact H2].
Defined.

(** C5, as stated, fails in the 2.0 variant: [skip] in a guild whose voice
    client is idle sends no message. *)
Lemma skip_idle_is_silent_in_2_0 :
  (exists vc, OwnDMusicBot2.voice_clients Sample.joined2 !! 1 = Some vc /\
              is_playing vc = false) /\
  ~ exists text,
      OwnDMusicBot2.log (OwnDMusicBot2.skip Sample.ctx Sample.joined2).2 =
      OwnDMusicBot2.log Sample.joined2 ++ [Send 1 text].
Proof.
  split; [by eexists|]. intros [text H]. vm_compute in H. discriminate.
Qed.

(** C6, as the code has it. When the author is not the owner, the three
    owner commands of [OwnedBot.py] change nothing and send the one
    message "You are not the owner of this bot."; the two owner commands
    of the 2.0 variant change nothing, send nothing and leave the
    [NotOwner] error to the framework. *)
Theorem non_owner_is_rejected world ctx arg
    (s1 : OwnedBot.State) (s2 : OwnDMusicBot2.State) :
  author_id ctx <> owner_id world ->
  let rejected :=
    (Ok tt, OwnedBot.emit (Send (guild_id ctx) "You are not the owner of this bot.") s1) in
  (OwnedBot.set_token world ctx arg s1 = rejected /\
   OwnedBot.set_api_key world ctx arg s1 = rejected /\
   OwnedBot.set_yt_cookie world ctx arg s1 = rejected /\
   OwnedBot.config rejected.2 = OwnedBot.config s1) /\
  (OwnDMusicBot2.set_token world ctx arg s2 = (Raise not_owner, s2) /\
   OwnDMusicBot2.set_api_key world ctx arg s2 = (Raise not_owner, s2)).
Proof.
  intros Hne rejected. split.
  - destruct (OwnedBotProofs.owner_commands_reject world ctx arg s1 Hne)
      as (H1 & H2 & H3). by repeat split.
  - by apply OwnDMusicBot2Proofs.owner_commands_raise.
Qed.

Lemma non_owner_is_rejected_witness :
  author_id Sample.ctx <> owner_id Sample.world /\
  sent 1 (OwnedBot.log
            (OwnedBot.set_token Sample.world Sample.ctx "t" OwnedBot.initial).2)
    = ["You are not the owner of this bot."] /\
  OwnDMusicBot2.set_api_key Sample.world Sample.ctx "k" OwnDMusicBot2.initial
    = (Raise not_owner, OwnDMusicBot2.initial).
Proof.
  assert (author_id Sample.ctx <> owner_id Sample.world) as Hne by done.
  split; [exact Hne|].
  destruct (non_owner_is_rejected Sample.world Sample.ctx "t"
              OwnedBot.initial OwnDMusicBot2.initial Hne) as [(H1 & _) _].
  destruct (non_owner_is_rejected Sample.world Sample.ctx "k"
              OwnedBot.initial OwnDMusicBot2.initial Hne) as [_ (_ & H2)].
  split; [by rewrite H1|exact H2].
Defined.

(** C6, as stated, fails in the 2.0 variant: [set_token] by a member who is
    not the owner sends no message. *)
Lemma non_owner_gets_no_message_in_2_0 :
  author_id Sample.ctx <> owner_id Sample.world /\
  ~ exists text,
      OwnDMusicBot2.log
        (OwnDMusicBot2.set_token Sample.world Sample.ctx "t" OwnDMusicBot2.initial).2 =
      OwnDMusicBot2.log OwnDMusicBot2.initial ++ [Send 1 text].
Proof.
  split; [done|]. intros [text H]. vm_compute in H. discriminate.
Qed.


(** ** setup_dependencies *)

Module SetupProofs.
Import Setup.

Ltac members :=
  intros;
  repeat match goal with
         | H : _ /\ _ |- _ => destruct H
         | H : _ ∈ [] |- _ => by apply elem_of_nil in H
         | H : _ ∈ _ :: _ |- _ => apply elem_of_cons in H as [H|H]
         end;
  subst; try congruence; try done.

Lemma commands_app l1 l2 : commands (l1 ++ l2) = commands l1 ++ commands l2.
Proof. apply omap_app. Qed.

Lemma pip_step_commands sys :
  commands (pip_step sys).1 = [pip_install sys] /\
  ((pip_step sys).2 = Returned <-> run sys (pip_install sys) = Completed) /\
  (forall stderr str, run sys (pip_install sys) = CalledProcessError stderr str ->
                      (pip_step sys).2 = SystemExit 1).
Proof.
  unfold pip_step. destruct (run sys (pip_install sys)); simpl;
    (split; [done|]); split; try done; split; done.
Qed.

Lemma apt_failed_commands o :
  o <> Completed ->
  commands (apt_failed (stderr_of o)).1 = [] /\
  (apt_failed (stderr_of o)).2 <> Returned /\
  (forall stderr str, o = CalledProcessError stderr str ->
                      (apt_failed (stderr_of o)).2 = SystemExit 1).
Proof. destruct o; simpl; intros H; repeat split; try done. Qed.

(** X1. On a machine that is not Linux or has no /etc/debian_version,
    [setup_dependencies] runs no command: it prints its two warnings and
    returns. *)
Theorem setup_skips_other_systems sys :
  platform sys <> "linux" \/ debian_version_exists sys = false ->
  commands (setup_dependencies sys).1 = [] /\
  (setup_dependencies sys).2 = Returned.
Proof.
  intros H. unfold setup_dependencies.
  destruct (bool_decide (platform sys = "linux")) eqn:Hp; simpl; [|done].
  destruct H as [H | ->]; [|done].
  apply bool_decide_eq_true in Hp. done.
Qed.

Lemma setup_skips_other_systems_witness :
  commands (setup_dependencies Scenario.mac).1 = [] /\
  (setup_dependencies Scenario.mac).2 = Returned.
Proof. apply setup_skips_other_systems. by left. Defined.

(** X2. The commands that [setup_dependencies] runs are a beginning of
    apt update, apt install, pip install, in this order, and a command
    is only run when every command before it has exited with status 0;
    the function returns only when it has run nothing or when all three
    have succeeded, and a command that exits with another status ends
    the process with exit status 1. *)
Theorem setup_commands_are_gated sys :
  let cmds := commands (setup_dependencies sys).1 in
  let ending := (setup_dependencies sys).2 in
  cmds `prefix_of` [apt_update; apt_install; pip_install sys] /\
  (apt_install ∈ cmds -> run sys apt_update = Completed) /\
  (pip_install sys ∈ cmds ->
   run sys apt_update = Completed /\ run sys apt_install = Completed) /\
  (ending = Returned ->
   cmds = [] \/
   (cmds = [apt_update; apt_install; pip_install sys] /\
    run sys (pip_install sys) = Completed)) /\
  (forall argv stderr str,
     argv ∈ cmds -> run sys argv = CalledProcessError stderr str ->
     ending = SystemExit 1).
Proof.
  intros cmds ending. subst cmds ending. unfold setup_dependencies.
  destruct (negb (bool_decide (platform sys = "linux")) ||
            negb (debian_version_exists sys)); simpl.
  { split; [apply prefix_nil|].
    repeat split; members. by left. }
  assert (apt_update <> apt_install) as Hne1 by done.
  assert (apt_update <> pip_install sys) as Hne2 by done.
  assert (apt_install <> pip_install sys) as Hne3 by done.
  destruct (run sys apt_update) eqn:Hu; simpl.
  2,3: (split; [by exists [apt_install; pip_install sys]|]);
       repeat split; members.
  destruct (run sys apt_install) eqn:Hi; simpl.
  2,3: (split; [by exists [pip_install sys]|]);
       repeat split; members.
  destruct (pip_step_commands sys) as (Hpc & Hpr & Hpe). rewrite Hpc.
  split; [by exists []|]. repeat split; try done.
  - intros H. right. split; [done|]. by apply Hpr.
  - intros argv stderr str Hin Hrun.
    repeat (apply elem_of_cons in Hin as [->|Hin]);
      [congruence|congruence|by eapply Hpe|by apply elem_of_nil in Hin].
Qed.

(** X3. On a Debian system where the [apt] program is not found, the
    handler of the apt step fails itself, because a FileNotFoundError
    has no [stderr]: [setup_dependencies] ends with an AttributeError
    that nothing catches, having printed no hint, and pip is not run. *)
Theorem setup_without_apt_is_uncaught sys str :
  platform sys = "linux" ->
  debian_version_exists sys = true ->
  run sys apt_update = FileNotFoundError str ->
  (setup_dependencies sys).1 =
    [Print "Debian-based system detected. Setting up dependencies...";
     Print "Updating apt package information...";
     Run [] apt_update] /\
  (setup_dependencies sys).2 =
    Uncaught (Exn AttributeError
                "'FileNotFoundError' object has no attribute 'stderr'").
Proof.
  intros Hp Hd Hrun. unfold setup_dependencies.
  rewrite bool_decide_eq_true_2 by done. rewrite Hd, Hrun. done.
Qed.

Lemma setup_without_apt_is_uncaught_witness :
  commands (setup_dependencies Scenario.no_apt).1 = [apt_update] /\
  (setup_dependencies Scenario.no_apt).2 =
    Uncaught (Exn AttributeError
                "'FileNotFoundError' object has no attribute 'stderr'").
Proof.
  destruct (setup_without_apt_is_uncaught Scenario.no_apt
              "[Errno 2] No such file or directory: 'apt'"
              eq_refl eq_refl eq_refl) as [H1 H2].
  split; [by rewrite H1|exact H2].
Defined.

End SetupProofs.


(** ** More about the log *)

Lemma sent_app {Src} g (l1 l2 : list (effect Src)) :
  sent g (l1 ++ l2) = sent g l1 ++ sent g l2.
Proof. apply omap_app. Qed.

Lemma sent_Send_elsewhere {Src} g g' t (l : list (effect Src)) :
  g' <> g -> sent g (l ++ [Send g' t]) = sent g l.
Proof.
  intros Hne. rewrite sent_app. simpl.
  by rewrite bool_decide_eq_false_2, app_nil_r.
Qed.

Lemma sent_Send {Src} g t (l : list (effect Src)) :
  sent g (l ++ [Send g t]) = sent g l ++ [t].
Proof. rewrite sent_app. simpl. by rewrite bool_decide_eq_true_2. Qed.

Lemma sent_Extract {Src} g q (l : list (effect Src)) :
  sent g (l ++ [Extract q]) = sent g l.
Proof. rewrite sent_app. simpl. by rewrite app_nil_r. Qed.

Lemma sent_VoicePlay {Src} g g' (src : Src) (l : list (effect Src)) :
  sent g (l ++ [VoicePlay g' src]) = sent g l.
Proof. rewrite sent_app. simpl. by rewrite app_nil_r. Qed.

Lemma played_Send {Src} g g' t (l : list (effect Src)) :
  played g (l ++ [Send g' t]) = played g l.
Proof. rewrite played_app. simpl. by rewrite app_nil_r. Qed.

Lemma played_Extract {Src} g q (l : list (effect Src)) :
  played g (l ++ [Extract q]) = played g l.
Proof. rewrite played_app. simpl. by rewrite app_nil_r. Qed.

Lemma played_VoicePlay_elsewhere {Src} g g' (src : Src) (l : list (effect Src)) :
  g' <> g -> played g (l ++ [VoicePlay g' src]) = played g l.
Proof.
  intros Hne. rewrite played_app. simpl.
  by rewrite bool_decide_eq_false_2, app_nil_r.
Qed.

(** ** OwnedBot.py: the guilds, the search results and the credentials *)

Module OwnedBotFrame.
Import OwnedBot.

(** What an event on another guild keeps of guild [g]. *)
Ltac elsewhere Hne :=
  preserving;
  try (apply preserves_modify; intros ? (? & ? & ?);
       unfold guild_view in *; simpl in *;
       repeat case_match; simpl;
       rewrite ?lookup_insert_ne, ?lookup_delete_ne by exact Hne;
       rewrite ?sent_Extract, ?sent_VoicePlay, ?played_Send, ?played_Extract;
       rewrite ?sent_Send_elsewhere, ?played_VoicePlay_elsewhere by exact Hne;
       done).

(** X4. An event in one guild changes nothing of what [OwnedBot.py]
    keeps for another guild (its queue, stop flag, search results and
    voice client), sends nothing to it and plays nothing in it. *)
Theorem events_leave_other_guilds world e s g :
  guild_id (event_ctx e) <> g ->
  let s' := (handle world e s).2 in
  guild_view s' g = guild_view s g /\
  sent g (log s') = sent g (log s) /\
  played g (log s') = played g (log s).
Proof.
  intros Hne s'. subst s'.
  enough (preserves (fun s' => guild_view s' g = guild_view s g /\
                               sent g (log s') = sent g (log s) /\
                               played g (log s') = played g (log s))
            (handle world e)) as H by (by apply H).
  destruct e; simpl in Hne; simpl.
  - unfold join, send, set_voice_client. elsewhere Hne.
  - unfold leave, voice_client, send. elsewhere Hne.
  - unfold search, send. elsewhere Hne.
  - unfold play, ensure_queue, play_try, from_url, enqueue, append, send,
      voice_client, play_next, voice_play, voice_client, set_voice_client, send.
    elsewhere Hne.
  - unfold pause, voice_client, send, set_voice_client. elsewhere Hne.
  - unfold resume, voice_client, send, set_voice_client. elsewhere Hne.
  - unfold queue, send. elsewhere Hne.
  - unfold skip, voice_client, send, set_voice_client. elsewhere Hne.
  - unfold clear, send. elsewhere Hne.
  - unfold stop, voice_client, send, set_voice_client. elsewhere Hne.
  - unfold set_token. apply preserves_invoke.
    + unfold set_token_callback, send. elsewhere Hne.
    + intros h err [= <-]. unfold owner_command_error, send. elsewhere Hne.
  - unfold set_yt_cookie. apply preserves_invoke.
    + unfold set_yt_cookie_callback, send. elsewhere Hne.
    + intros h err [= <-]. unfold owner_command_error, send. elsewhere Hne.
  - unfold set_api_key. apply preserves_invoke.
    + unfold set_api_key_callback, send. elsewhere Hne.
    + intros h err [= <-]. unfold owner_command_error, send. elsewhere Hne.
  - unfold track_finished, play_next, voice_play, voice_client,
      set_voice_client, send. elsewhere Hne.
  - unfold play_next, voice_play, voice_client, set_voice_client, send.
    elsewhere Hne.
Qed.

Lemma events_leave_other_guilds_witness :
  let s' := (handle Sample.world (Play Sample.ctx "album") Sample.joined1).2 in
  guild_view s' 2 = guild_view Sample.joined1 2 /\
  sent 2 (log s') = sent 2 (log Sample.joined1) /\
  played 2 (log s') = played 2 (log Sample.joined1).
Proof.
  apply (events_leave_other_guilds Sample.world (Play Sample.ctx "album")
           Sample.joined1 2).
  simpl. lia.
Defined.


Ltac keeping :=
  preserving; try (apply preserves_modify; intros ? ?; simpl in *; done).

(** X5. The search results of [OwnedBot.py] change in one way only: a
    [search] whose API call returns at least one video replaces the
    results of its guild by what the call returned. A search without
    results, a search that fails and every other event leave the results
    of every guild as they are. *)
Theorem only_search_changes_results world e s :
  search_results (handle world e s).2 =
  match e with
  | Search ctx query =>
      match youtube_search world (YOUTUBE_API_KEY s) query with
      | Ok (video :: videos) =>
          <[guild_id ctx := video :: videos]> (search_results s)
      | _ => search_results s
      end
  | _ => search_results s
  end.
Proof.
  destruct e;
    try (enough (preserves (fun s' => search_results s' = search_results s)
                   (handle world _)) as H by (by apply H); simpl).
  - unfold join, send, set_voice_client. keeping.
  - unfold leave, voice_client, send. keeping.
  - simpl. unfold search, try_except, bind, gets.
    by destruct (youtube_search world (YOUTUBE_API_KEY s) query) as [[|v vs]|err].
  - unfold play, ensure_queue, play_try, from_url, enqueue, append, send,
      voice_client, play_next, voice_play, voice_client, set_voice_client, send.
    keeping.
  - unfold pause, voice_client, send, set_voice_client. keeping.
  - unfold resume, voice_client, send, set_voice_client. keeping.
  - unfold queue, send. keeping.
  - unfold skip, voice_client, send, set_voice_client. keeping.
  - unfold clear, send. keeping.
  - unfold stop, voice_client, send, set_voice_client. keeping.
  - unfold set_token. apply preserves_invoke.
    + unfold set_token_callback, send. keeping.
    + intros h err [= <-]. unfold owner_command_error, send. keeping.
  - unfold set_yt_cookie. apply preserves_invoke.
    + unfold set_yt_cookie_callback, send. keeping.
    + intros h err [= <-]. unfold owner_command_error, send. keeping.
  - unfold set_api_key. apply preserves_invoke.
    + unfold set_api_key_callback, send. keeping.
    + intros h err [= <-]. unfold owner_command_error, send. keeping.
  - unfold track_finished, play_next, voice_play, voice_client,
      set_voice_client, send. keeping.
  - unfold play_next, voice_play, voice_client, set_voice_client, send.
    keeping.
Qed.

(** X6. The credentials of [OwnedBot.py] (token, API key, cookie file)
    change only through an owner command invoked by the owner: every
    other event, and every owner command invoked by someone else, leaves
    them as they are. *)
Theorem only_the_owner_changes_config world e s :
  match e with
  | SetToken ctx _ | SetYtCookie ctx _ | SetApiKey ctx _ =>
      author_id ctx <> owner_id world
  | _ => True
  end ->
  config (handle world e s).2 = config s.
Proof.
  intros He.
  enough (preserves (fun s' => config s' = config s) (handle world e)) as H
    by (by apply H).
  destruct e; simpl.
  - unfold join, send, set_voice_client. keeping.
  - unfold leave, voice_client, send. keeping.
  - unfold search, send. keeping.
  - unfold play, ensure_queue, play_try, from_url, enqueue, append, send,
      voice_client, play_next, voice_play, voice_client, set_voice_client, send.
    keeping.
  - unfold pause, voice_client, send, set_voice_client. keeping.
  - unfold resume, voice_client, send, set_voice_client. keeping.
  - unfold queue, send. keeping.
  - unfold skip, voice_client, send, set_voice_client. keeping.
  - unfold clear, send. keeping.
  - unfold stop, voice_client, send, set_voice_client. keeping.
  - unfold set_token, is_owner. rewrite bool_decide_eq_false_2 by done.
    unfold invoke, owner_command_error, send. keeping.
  - unfold set_yt_cookie, is_owner. rewrite bool_decide_eq_false_2 by done.
    unfold invoke, owner_command_error, send. keeping.
  - unfold set_api_key, is_owner. rewrite bool_decide_eq_false_2 by done.
    unfold invoke, owner_command_error, send. keeping.
  - unfold track_finished, play_next, voice_play, voice_client,
      set_voice_client, send. keeping.
  - unfold play_next, voice_play, voice_client, set_voice_client, send.
    keeping.
Qed.

Lemma only_the_owner_changes_config_witness :
  config (handle Sample.world (SetToken Sample.ctx "stolen") initial).2
  = config initial.
Proof.
  apply (only_the_owner_changes_config Sample.world
           (SetToken Sample.ctx "stolen") initial).
  simpl. lia.
Defined.

(** X7. [set_token] of [OwnedBot.py], invoked by the owner, stores the new
    token only when the test login with it succeeds; when the login is
    refused the token stays and the owner is told that it is invalid, and
    when the login fails in another way (an HTTP error, not a [NotOwner]
    error) the token stays and nothing is sent. The API key and the
    cookie file are never touched. *)
Theorem set_token_stores_valid_tokens_only world ctx new_token s :
  author_id ctx = owner_id world ->
  (forall e, discord_login world new_token = Raise e -> exn_cls e <> NotOwner) ->
  let s' := (set_token world ctx new_token s).2 in
  let g := guild_id ctx in
  (set_token world ctx new_token s).1 = Ok tt /\
  YOUTUBE_API_KEY s' = YOUTUBE_API_KEY s /\
  cookie_file s' = cookie_file s /\
  match discord_login world new_token with
  | Ok _ =>
      TOKEN s' = new_token /\
      log s' = log s ++
        [Send g "Token has been updated. Please restart the bot for the change to take effect."]
  | Raise e =>
      TOKEN s' = TOKEN s /\
      log s' = log s ++
        (if is_class LoginFailure e
         then [Send g "The provided token is invalid."] else [])
  end.
Proof.
  intros Ho Hlogin s' g. subst s' g. unfold set_token, is_owner.
  rewrite bool_decide_eq_true_2 by done.
  unfold invoke, set_token_callback, try_except, bind, modify, send, raise,
    owner_command_error, ret.
  destruct (discord_login world new_token) as [[]|e]; simpl; [repeat split; reflexivity|].
  specialize (Hlogin e eq_refl).
  destruct e as [[] msg]; simpl in *; rewrite ?app_nil_r; try done;
    repeat split; reflexivity.
Qed.

Lemma set_token_stores_valid_tokens_only_witness :
  let s' := (set_token Scenario.offline Scenario.owner "bad" initial).2 in
  TOKEN s' = "DISCORD_TOKEN_HERE" /\
  log s' = [Send 1 "The provided token is invalid."].
Proof.
  destruct (set_token_stores_valid_tokens_only Scenario.offline Scenario.owner
              "bad" initial eq_refl) as (_ & _ & _ & H).
  - intros e [= <-]. done.
  - exact H.
Defined.

End OwnedBotFrame.

(** ** OwnedBot.py: playing, skipping, stopping *)

Module OwnedBotPlayback.
Import OwnedBot.

(** What [play] sends once the tracks are in the queue. *)
Lemma added_message ctx (p : YTDLSource) ps s :
  exists added,
    (if 1 <? len (p :: ps)
     then send ctx ("**Added " +:+ pretty (len (p :: ps)) +:+ " songs to the queue.**")
     else send ctx ("**Added to queue:** " +:+ title p)) s
    = (Ok tt, emit (Send (guild_id ctx) added) s).
Proof. destruct (1 <? len (p :: ps)); eexists; reflexivity. Qed.

(** [play_try] up to the test of the voice client. *)
Lemma play_try_resolved world ctx query s u info :
  selection (search_results s) (guild_id ctx) query = Ok (Some u) ->
  ytdl_extract_info world u = Ok info ->
  entries_of info <> [] ->
  let g := guild_id ctx in
  let players := new_YTDLSource <$> entries_of info in
  exists added,
    let s1 := emit (Send g added)
                (with_song_queues <[g := pending s g ++ players]>
                   (emit (Extract u) s)) in
    play_try world ctx query s =
    match voice_clients s !! g with
    | None => (Raise (none_has_no "is_playing"), s1)
    | Some vc => if is_playing vc then (Ok tt, s1) else play_next ctx s1
    end.
Proof.
  intros Hsel Hinfo Hne g players. subst g.
  unfold play_try, bind at 1, gets at 1. rewrite Hsel.
  unfold bind at 1. rewrite (OwnedBotProofs.from_url_spec _ _ _ _ Hinfo).
  fold players.
  assert (exists p ps, players = p :: ps) as (p & ps & Hpl).
  { subst players. destruct (entries_of info); [done|]. by eexists _, _. }
  rewrite Hpl. unfold bind at 1. rewrite OwnedBotProofs.enqueue_spec.
  set (s2 := with_song_queues _ _).
  unfold bind at 1.
  destruct (added_message ctx p ps s2) as [added ->]. exists added.
  unfold voice_client. unfold bind, gets.
  change (voice_clients (emit (Send (guild_id ctx) added) s2)) with (voice_clients s).
  destruct (voice_clients s !! guild_id ctx) as [vc|]; [|reflexivity].
  unfold ret. destruct (is_playing vc); reflexivity.
Qed.

(** [play_next] when it starts a track. *)
Lemma play_next_starts ctx s vc p rest :
  stopping s (guild_id ctx) = false ->
  song_queues s !! guild_id ctx = Some (p :: rest) ->
  voice_clients s !! guild_id ctx = Some vc ->
  vc_connected vc = true ->
  is_playing vc = false ->
  let g := guild_id ctx in
  play_next ctx s =
  (Ok tt,
   emit (Send g ("**Now playing:** " +:+ title p))
     (emit (VoicePlay g p)
        (with_voice_clients
           <[g := {| vc_connected := true;
                     vc_player := Some {| ap_source := p; ap_paused := false;
                                          ap_ended := false |} |}]>
           (with_song_queues <[g := rest]> s)))).
Proof.
  intros Hstop Hq Hvc Hconn Hplay g. subst g.
  unfold play_next, stopping in *.
  unfold bind, gets. rewrite Hstop, Hq.
  unfold modify, voice_play, bind, voice_client, gets, bind. simpl.
  rewrite Hvc. unfold ret, vc_play. rewrite Hconn, Hplay. reflexivity.
Qed.

(** X8. A [play] of [OwnedBot.py] whose query resolves to one or more
    tracks, given while a track is playing, only appends: the tracks go to
    the back of the queue in the order of the provider, one confirmation
    is sent, and the voice client, the stop flags and the track being
    played are untouched. *)
Theorem play_while_playing_only_appends world ctx query s u info vc :
  selection (search_results s) (guild_id ctx) query = Ok (Some u) ->
  ytdl_extract_info world u = Ok info ->
  entries_of info <> [] ->
  song_queues s !! guild_id ctx <> None ->
  voice_clients s !! guild_id ctx = Some vc ->
  is_playing vc = true ->
  let g := guild_id ctx in
  let players := new_YTDLSource <$> entries_of info in
  exists added,
    play world ctx query s =
    (Ok tt,
     emit (Send g added)
       (with_song_queues <[g := pending s g ++ players]> (emit (Extract u) s))).
Proof.
  intros Hsel Hinfo Hne Hq Hvc Hplay g players. subst g.
  unfold play, bind. rewrite OwnedBotProofs.ensure_queue_spec.
  unfold queue_ensured. destruct (song_queues s !! guild_id ctx) eqn:Hqs; [|done].
  destruct (play_try_resolved world ctx query s u info Hsel Hinfo Hne) as [added Heq].
  exists added. unfold try_except. rewrite Heq. simpl. by rewrite Hvc, Hplay.
Qed.

Lemma play_while_playing_only_appends_witness :
  exists added,
    play Sample.world Sample.ctx "song" Sample.playing1 =
    (Ok tt,
     emit (Send 1 added)
       (with_song_queues
          <[1 := [Sample.track "B"; Sample.track "C"; Sample.track "song"]]>
          (emit (Extract "song") Sample.playing1))).
Proof.
  apply (play_while_playing_only_appends Sample.world Sample.ctx "song"
           Sample.playing1 "song" (Single (Sample.entry "song"))
           (Scenario.playing (Sample.track "A"))); done.
Defined.

(** X9. A [play] of [OwnedBot.py] in a guild without a voice client whose
    query resolves to one or more tracks keeps the tracks in the queue,
    although after the confirmation it reports the error of the missing
    voice client; nothing is played. *)
Theorem play_without_voice_client_keeps_queue world ctx query s u info :
  selection (search_results s) (guild_id ctx) query = Ok (Some u) ->
  ytdl_extract_info world u = Ok info ->
  entries_of info <> [] ->
  voice_clients s !! guild_id ctx = None ->
  let g := guild_id ctx in
  let players := new_YTDLSource <$> entries_of info in
  let s' := (play world ctx query s).2 in
  (play world ctx query s).1 = Ok tt /\
  pending s' g = pending s g ++ players /\
  voice_clients s' = voice_clients s /\
  exists added,
    log s' = log s ++
      [Extract u; Send g added;
       Send g "An error occurred: 'NoneType' object has no attribute 'is_playing'"].
Proof.
  intros Hsel Hinfo Hne Hvc g players s'. subst g s'.
  unfold play, bind. rewrite OwnedBotProofs.ensure_queue_spec.
  destruct (OwnedBotProofs.queue_ensured_fields (guild_id ctx) s)
    as (Hsr & Hv & Hlog & Hpend & _).
  destruct (play_try_resolved world ctx query (queue_ensured (guild_id ctx) s) u info)
    as [added Heq]; rewrite ?Hsr; try done.
  unfold try_except. rewrite Heq, Hv, Hvc. simpl.
  unfold pending at 1. simpl. rewrite lookup_insert_eq. simpl.
  rewrite Hpend, Hv, Hlog. repeat split; try done.
  exists added. by rewrite <- !app_assoc.
Qed.

Lemma play_without_voice_client_keeps_queue_witness :
  let s' := (play Sample.world Sample.ctx "album" initial).2 in
  (play Sample.world Sample.ctx "album" initial).1 = Ok tt /\
  pending s' 1 = [Sample.track "A"; Sample.track "B"; Sample.track "C"] /\
  voice_clients s' = voice_clients initial /\
  exists added,
    log s' =
      [Extract "album"; Send 1 added;
       Send 1 "An error occurred: 'NoneType' object has no attribute 'is_playing'"].
Proof.
  apply (play_without_voice_client_keeps_queue Sample.world Sample.ctx "album"
           initial "album"
           (Playlist [Sample.entry "A"; Sample.entry "B"; Sample.entry "C"]));
    done.
Defined.


(** [play_next] when nothing is pending. *)
Lemma play_next_empty ctx s :
  stopping s (guild_id ctx) = false ->
  pending s (guild_id ctx) = [] ->
  play_next ctx s = (Ok tt, emit (Send (guild_id ctx) "Queue is empty.") s).
Proof.
  unfold stopping, pending, play_next, bind, gets. intros -> Hq.
  by destruct (song_queues s !! guild_id ctx) as [[|p rest]|].
Qed.

(** The voice client that plays a source from its start. *)
Lemma playing_is_playing {Src} (p : Src) :
  is_playing {| vc_connected := true;
                vc_player := Some {| ap_source := p; ap_paused := false;
                                     ap_ended := false |} |} = true.
Proof. reflexivity. Qed.

(** X10. [skip] of [OwnedBot.py] while a track plays stops the voice
    client and sends "Skipped the song."; the completion callback of the
    skipped track then starts the front of the queue and announces it,
    or, when the queue is empty, reports that and leaves the guild idle. *)
Theorem skip_then_callback_advances ctx s vc :
  voice_clients s !! guild_id ctx = Some vc ->
  vc_connected vc = true ->
  is_playing vc = true ->
  stopping s (guild_id ctx) = false ->
  let g := guild_id ctx in
  let s1 := (skip ctx s).2 in
  let s2 := (play_next ctx s1).2 in
  skip ctx s =
    (Ok tt, emit (Send g "Skipped the song.")
              (with_voice_clients <[g := vc_stop vc]> s)) /\
  (play_next ctx s1).1 = Ok tt /\
  match pending s g with
  | p :: rest =>
      pending s2 g = rest /\
      (exists vc2, voice_clients s2 !! g = Some vc2 /\
                   source vc2 = Some p /\ is_playing vc2 = true) /\
      log s2 = log s ++ [Send g "Skipped the song."; VoicePlay g p;
                         Send g ("**Now playing:** " +:+ title p)]
  | [] =>
      pending s2 g = [] /\
      voice_clients s2 !! g = Some (vc_stop vc) /\
      log s2 = log s ++ [Send g "Skipped the song."; Send g "Queue is empty."]
  end.
Proof.
  intros Hvc Hconn Hplay Hstop g s1 s2. subst g.
  assert (skip ctx s =
          (Ok tt, emit (Send (guild_id ctx) "Skipped the song.")
                    (with_voice_clients <[guild_id ctx := vc_stop vc]> s))) as Hskip.
  { unfold skip, bind, voice_client, bind, gets. rewrite Hvc. unfold ret.
    by rewrite Hplay. }
  split; [exact Hskip|]. subst s1 s2. rewrite Hskip. cbn [snd].
  set (s1 := emit _ _).
  unfold pending. destruct (song_queues s !! guild_id ctx) as [[|p rest]|] eqn:Hq;
    simpl.
  1,3: rewrite play_next_empty by (try done; unfold pending; subst s1; simpl;
                                    by rewrite Hq);
       simpl; unfold pending; simpl; rewrite Hq, lookup_insert_eq;
       rewrite <- app_assoc; done.
  rewrite (play_next_starts ctx s1 (vc_stop vc) p rest); try done.
  - simpl. unfold pending. simpl. rewrite !lookup_insert_eq. simpl.
    split; [done|]. split; [done|]. split; [by eexists|].
    by rewrite <- !app_assoc.
  - subst s1. simpl. by rewrite lookup_insert_eq.
Qed.

Lemma skip_then_callback_advances_witness :
  let s1 := (skip Sample.ctx Sample.playing1).2 in
  let s2 := (play_next Sample.ctx s1).2 in
  pending s2 1 = [Sample.track "C"] /\
  log s2 = log Sample.playing1 ++
    [Send 1 "Skipped the song."; VoicePlay 1 (Sample.track "B");
     Send 1 "**Now playing:** B"].
Proof.
  destruct (skip_then_callback_advances Sample.ctx Sample.playing1
              (Scenario.playing (Sample.track "A"))
              eq_refl eq_refl eq_refl eq_refl) as (_ & _ & Hp & _ & Hl).
  split; [exact Hp|exact Hl].
Defined.

(** X11. [stop] of [OwnedBot.py] while nothing plays only empties the
    queue and confirms: the stop flag is not set and the voice client is
    not touched. So a track that is paused stays paused, and a [resume]
    after the [stop] continues it. *)
Theorem stop_while_not_playing_only_clears ctx s vc :
  voice_clients s !! guild_id ctx = Some vc ->
  is_playing vc = false ->
  let g := guild_id ctx in
  let s1 := (stop ctx s).2 in
  (stop ctx s).1 = Ok tt /\
  pending s1 g = [] /\
  stop_flags s1 = stop_flags s /\
  voice_clients s1 = voice_clients s /\
  log s1 = log s ++ [Send g "Music stopped and queue cleared."] /\
  (is_paused vc = true ->
   (resume ctx s1).1 = Ok tt /\
   voice_clients (resume ctx s1).2 !! g = Some (vc_resume vc) /\
   playback_of (vc_resume vc) = Playing /\
   source (vc_resume vc) = source vc).
Proof.
  intros Hvc Hplay g s1. subst s1 g.
  assert (exists s0,
    stop ctx s = (Ok tt, emit (Send (guild_id ctx) "Music stopped and queue cleared.") s0) /\
    pending s0 (guild_id ctx) = [] /\ stop_flags s0 = stop_flags s /\
    voice_clients s0 = voice_clients s /\ log s0 = log s) as (s0 & -> & H1 & H2 & H3 & H4).
  { unfold stop, bind, gets, voice_client, bind, gets.
    destruct (song_queues s !! guild_id ctx) eqn:Hq; simpl; rewrite Hvc; simpl;
      rewrite Hplay; simpl; eexists; (split; [reflexivity|]);
      unfold pending; simpl; rewrite ?lookup_insert_eq, ?Hq; done. }
  cbn [fst snd]. split; [done|]. split; [exact H1|]. split; [exact H2|].
  split; [exact H3|]. split; [simpl; by rewrite H4|].
  intros Hpaused.
  rewrite (OwnedBotProofs.resume_with_voice_client _ _ vc)
    by (simpl; by rewrite H3).
  rewrite Hpaused. simpl. rewrite lookup_insert_eq.
  split; [done|]. split; [done|]. split.
  - unfold playback_of, is_playing, is_paused, vc_resume in *. simpl in *.
    by destruct (vc_player vc) as [[src [] []]|].
  - unfold source, vc_resume. simpl. by destruct (vc_player vc).
Qed.

Lemma stop_while_not_playing_only_clears_witness :
  let s1 := (stop Sample.ctx Scenario.paused1).2 in
  pending s1 1 = [] /\
  stop_flags s1 = stop_flags Scenario.paused1 /\
  (resume Sample.ctx s1).1 = Ok tt /\
  voice_clients (resume Sample.ctx s1).2 !! 1
    = Some (Scenario.playing (Sample.track "A")).
Proof.
  destruct (stop_while_not_playing_only_clears Sample.ctx Scenario.paused1
              (vc_pause (Scenario.playing (Sample.track "A")))
              eq_refl eq_refl) as (_ & Hp & Hf & _ & _ & Hr).
  destruct (Hr eq_refl) as (Hok & Hvc & _).
  split; [exact Hp|]. split; [exact Hf|]. split; [exact Hok|exact Hvc].
Defined.

(** X12. In [OwnedBot.py], [pause] followed by [resume] while a track
    plays returns to the state before the [pause]: both succeed, nothing
    is sent, and the track, the queue and the flags are as they were. *)
Theorem pause_resume_round_trip ctx s vc :
  voice_clients s !! guild_id ctx = Some vc ->
  is_playing vc = true ->
  (pause ctx s).1 = Ok tt /\
  (exists vc1, voice_clients (pause ctx s).2 !! guild_id ctx = Some vc1 /\
               playback_of vc1 = Paused) /\
  resume ctx (pause ctx s).2 = (Ok tt, s).
Proof.
  intros Hvc Hplay.
  rewrite (OwnedBotProofs.pause_with_voice_client _ _ vc Hvc), Hplay. simpl.
  assert (is_paused (vc_pause vc) = true) as Hp.
  { unfold is_playing, is_paused, vc_pause in *. simpl.
    destruct (vc_player vc) as [[src [] []]|]; done. }
  split; [done|]. split.
  { exists (vc_pause vc). rewrite lookup_insert_eq. split; [done|].
    unfold playback_of. rewrite Hp.
    unfold is_playing, vc_pause in *. simpl.
    by destruct (vc_player vc) as [[src [] []]|]. }
  rewrite (OwnedBotProofs.resume_with_voice_client _ _ (vc_pause vc))
    by (simpl; apply lookup_insert_eq).
  rewrite Hp. f_equal. unfold with_voice_clients. simpl.
  rewrite insert_insert_eq.
  assert (vc_resume (vc_pause vc) = vc) as ->.
  { unfold is_playing, vc_resume, vc_pause in *. simpl.
    destruct vc as [c [[src [] []]|]]; done. }
  rewrite insert_id by done. by destruct s.
Qed.

Lemma pause_resume_round_trip_witness :
  resume Sample.ctx (pause Sample.ctx Sample.playing1).2
  = (Ok tt, Sample.playing1).
Proof.
  exact (proj2 (proj2 (pause_resume_round_trip Sample.ctx Sample.playing1
                         (Scenario.playing (Sample.track "A"))
                         eq_refl eq_refl))).
Defined.


(** [play] in a guild whose voice client is connected and idle, with no
    track pending and no stop flag to consume. *)
Lemma play_idle_outcome world ctx query s u info vc e es :
  selection (search_results s) (guild_id ctx) query = Ok (Some u) ->
  ytdl_extract_info world u = Ok info ->
  entries_of info = e :: es ->
  voice_clients s !! guild_id ctx = Some vc ->
  vc_connected vc = true ->
  is_playing vc = false ->
  pending s (guild_id ctx) = [] ->
  (song_queues s !! guild_id ctx <> None -> stopping s (guild_id ctx) = false) ->
  let g := guild_id ctx in
  let s' := (play world ctx query s).2 in
  (play world ctx query s).1 = Ok tt /\
  pending s' g = new_YTDLSource <$> es /\
  (exists vc', voice_clients s' !! g = Some vc' /\
               source vc' = Some (new_YTDLSource e) /\ is_playing vc' = true) /\
  played g (log s') = played g (log s) ++ [new_YTDLSource e].
Proof.
  intros Hsel Hinfo Hes Hvc Hconn Hplay Hpend Hflag g s'. subst g s'.
  unfold play, bind. rewrite OwnedBotProofs.ensure_queue_spec.
  destruct (OwnedBotProofs.queue_ensured_fields (guild_id ctx) s)
    as (Hsr & Hv & Hlog & Hpend' & Hstop').
  set (s0 := queue_ensured (guild_id ctx) s) in *.
  destruct (play_try_resolved world ctx query s0 u info) as [added Heq];
    rewrite ?Hsr, ?Hes; try done.
  unfold try_except. rewrite Heq, Hv, Hvc, Hplay, Hes, Hpend', Hpend. simpl.
  set (s1 := emit _ _).
  rewrite (play_next_starts ctx s1 vc (new_YTDLSource e) (new_YTDLSource <$> es));
    try done.
  - simpl. unfold pending. simpl. rewrite !lookup_insert_eq. simpl.
    split; [done|]. split; [done|]. split; [by eexists|].
    rewrite Hlog. rewrite !played_app. simpl.
    by rewrite bool_decide_eq_true_2, !app_nil_r.
  - change (stopping s1 (guild_id ctx)) with (stopping s0 (guild_id ctx)).
    rewrite Hstop'. destruct (song_queues s !! guild_id ctx) eqn:Hq; [|done].
    apply Hflag. done.
  - subst s1. simpl. by rewrite lookup_insert_eq.
  - subst s1. simpl. by rewrite Hv.
Qed.

(** X13. A [play] of [OwnedBot.py] in a guild whose voice client is
    connected and idle, with nothing pending and no stop flag set, starts
    the first resolved track at once and leaves the others pending in the
    order of the provider. *)
Theorem play_on_idle_starts_first_track world ctx query s u info vc e es :
  selection (search_results s) (guild_id ctx) query = Ok (Some u) ->
  ytdl_extract_info world u = Ok info ->
  entries_of info = e :: es ->
  voice_clients s !! guild_id ctx = Some vc ->
  vc_connected vc = true ->
  is_playing vc = false ->
  pending s (guild_id ctx) = [] ->
  stopping s (guild_id ctx) = false ->
  let g := guild_id ctx in
  let s' := (play world ctx query s).2 in
  (play world ctx query s).1 = Ok tt /\
  pending s' g = new_YTDLSource <$> es /\
  (exists vc', voice_clients s' !! g = Some vc' /\
               source vc' = Some (new_YTDLSource e) /\ is_playing vc' = true) /\
  played g (log s') = played g (log s) ++ [new_YTDLSource e].
Proof.
  intros Hsel Hinfo Hes Hvc Hconn Hplay Hpend Hstop.
  by apply (play_idle_outcome world ctx query s u info vc e es).
Qed.

Lemma play_on_idle_starts_first_track_witness :
  let s' := (play Sample.world Sample.ctx "album" Sample.joined1).2 in
  pending s' 1 = [Sample.track "B"; Sample.track "C"] /\
  played 1 (log s') = [Sample.track "A"].
Proof.
  destruct (play_on_idle_starts_first_track Sample.world Sample.ctx "album"
              Sample.joined1 "album"
              (Playlist [Sample.entry "A"; Sample.entry "B"; Sample.entry "C"])
              Scenario.idle (Sample.entry "A")
              [Sample.entry "B"; Sample.entry "C"]
              eq_refl eq_refl eq_refl eq_refl eq_refl eq_refl eq_refl eq_refl)
    as (_ & Hp & _ & Hl).
  split; [exact Hp|exact Hl].
Defined.

(** X14. The stop flag of [OwnedBot.py] is used up by one callback: after
    a [stop] given while a track plays and the completion callback of
    that track, a [play] starts its first track at once, as on a guild
    that was never stopped. *)
Theorem play_after_stop_starts_playback world ctx query s vc u info e es :
  voice_clients s !! guild_id ctx = Some vc ->
  vc_connected vc = true ->
  is_playing vc = true ->
  selection (search_results s) (guild_id ctx) query = Ok (Some u) ->
  ytdl_extract_info world u = Ok info ->
  entries_of info = e :: es ->
  let g := guild_id ctx in
  let s2 := (play_next ctx (stop ctx s).2).2 in
  let s3 := (play world ctx query s2).2 in
  (play world ctx query s2).1 = Ok tt /\
  pending s3 g = new_YTDLSource <$> es /\
  (exists vc', voice_clients s3 !! g = Some vc' /\
               source vc' = Some (new_YTDLSource e) /\ is_playing vc' = true) /\
  played g (log s3) = played g (log s) ++ [new_YTDLSource e].
Proof.
  intros Hvc Hconn Hplay Hsel Hinfo Hes g s2 s3. subst g s3.
  assert (search_results s2 = search_results s /\
          voice_clients s2 !! guild_id ctx = Some (vc_stop vc) /\
          pending s2 (guild_id ctx) = [] /\
          stopping s2 (guild_id ctx) = false /\
          played (guild_id ctx) (log s2) = played (guild_id ctx) (log s))
    as (Hsr & Hv2 & Hp2 & Hf2 & Hpl2).
  { subst s2. unfold stop, play_next, bind, gets, voice_client, bind, gets.
    destruct (song_queues s !! guild_id ctx) eqn:Hq; simpl; rewrite Hvc; simpl;
      rewrite Hplay; simpl; rewrite lookup_insert_eq; simpl;
      unfold pending, stopping; simpl;
      rewrite ?lookup_insert_eq, ?Hq; simpl;
      rewrite played_app; simpl; rewrite app_nil_r; done. }
  rewrite <- Hpl2.
  apply (play_idle_outcome world ctx query s2 u info (vc_stop vc) e es);
    rewrite ?Hsr; done.
Qed.

Lemma play_after_stop_starts_playback_witness :
  let s2 := (play_next Sample.ctx (stop Sample.ctx Sample.playing1).2).2 in
  let s3 := (play Sample.world Sample.ctx "song" s2).2 in
  pending s3 1 = [] /\
  played 1 (log s3) = [Sample.track "A"; Sample.track "song"].
Proof.
  destruct (play_after_stop_starts_playback Sample.world Sample.ctx "song"
              Sample.playing1 (Scenario.playing (Sample.track "A")) "song"
              (Single (Sample.entry "song")) (Sample.entry "song") []
              eq_refl eq_refl eq_refl eq_refl eq_refl eq_refl)
    as (_ & Hp & _ & Hl).
  split; [exact Hp|exact Hl].
Defined.

(** *** The stop flag *)

Lemma flag_voice_update g vc' s :
  (stopping s g = true -> vc_player vc' = None) ->
  flag_means_stopped s ->
  flag_means_stopped (with_voice_clients <[g := vc']> s).
Proof.
  intros Hvc' Hs g1 vc1 Hf Hv. simpl in Hv.
  destruct (decide (g = g1)) as [<-|Hne].
  - rewrite lookup_insert_eq in Hv. simplify_eq. by apply Hvc'.
  - rewrite lookup_insert_ne in Hv by done. by apply (Hs g1).
Qed.

Lemma flag_lowered g s :
  flag_means_stopped s ->
  flag_means_stopped (with_stop_flags <[g := false]> s).
Proof.
  intros Hs g1 vc1 Hf Hv. unfold stopping in Hf. simpl in Hf.
  destruct (decide (g = g1)) as [<-|Hne].
  - by rewrite lookup_insert_eq in Hf.
  - rewrite lookup_insert_ne in Hf by done. by apply (Hs g1).
Qed.

Lemma flag_same s s' :
  stop_flags s' = stop_flags s ->
  voice_clients s' = voice_clients s ->
  flag_means_stopped s -> flag_means_stopped s'.
Proof.
  intros Hf Hv Hs g vc. unfold stopping. rewrite Hf, Hv. apply Hs.
Qed.

Ltac flagged :=
  preserving;
  try (apply preserves_modify; intros ?;
       first [ by apply flag_same
             | apply flag_lowered
             | intros ?; apply flag_voice_update; [by intros _|done] ]).

Lemma play_next_keeps_flag ctx s :
  flag_means_stopped s -> flag_means_stopped (play_next ctx s).2.
Proof.
  intros Hs. unfold play_next, bind, gets.
  destruct (default false (stop_flags s !! guild_id ctx)) eqn:Hf; simpl.
  { by apply flag_lowered. }
  destruct (song_queues s !! guild_id ctx) as [[|p rest]|]; simpl;
    try (by eapply flag_same; [..|exact Hs]).
  unfold voice_play, bind, voice_client, bind, gets. simpl.
  destruct (voice_clients s !! guild_id ctx) as [vc|]; simpl;
    [|by eapply flag_same; [..|exact Hs]].
  destruct (vc_play vc p) as [vc'|err]; simpl;
    [|by eapply flag_same; [..|exact Hs]].
  eapply flag_same; [reflexivity|reflexivity|].
  eapply flag_same; [reflexivity|reflexivity|].
  apply flag_voice_update.
  - unfold stopping. simpl. by rewrite Hf.
  - by eapply flag_same; [..|exact Hs].
Qed.

Lemma handle_keeps_flag world e s :
  flag_means_stopped s -> flag_means_stopped (handle world e s).2.
Proof.
  intros Hs. destruct e; simpl.
  - revert s Hs. change (preserves flag_means_stopped (join ctx author_name)).
    unfold join, send, set_voice_client. flagged.
  - revert s Hs. change (preserves flag_means_stopped (leave ctx)).
    unfold leave, voice_client, send. flagged.
    apply preserves_modify. intros s1 Hs1 g vc Hf Hv. simpl in Hv.
    apply lookup_delete_Some in Hv as [_ Hv]. by apply (Hs1 g).
  - revert s Hs. change (preserves flag_means_stopped (search world ctx query)).
    unfold search, send. flagged.
  - unfold play, bind. rewrite OwnedBotProofs.ensure_queue_spec.
    assert (flag_means_stopped (queue_ensured (guild_id ctx) s)) as Hs0.
    { unfold queue_ensured. destruct (song_queues s !! guild_id ctx); [done|].
      apply flag_lowered. by eapply flag_same; [..|exact Hs]. }
    revert Hs0. generalize (queue_ensured (guild_id ctx) s). clear s Hs.
    change (preserves flag_means_stopped
              (try_except (play_try world ctx query) any_exception
                 (fun e => send ctx ("An error occurred: " +:+ exn_str e)))).
    apply preserves_try_except; [|intros e; unfold send; flagged].
    assert (preserves flag_means_stopped (play_next ctx)) as Hpn
      by (intros s1 Hs1; by apply play_next_keeps_flag).
    unfold play_try. revert Hpn. generalize (play_next ctx). intros advance Hpn.
    unfold from_url, enqueue, append, send, voice_client. flagged.
    all: exact Hpn.
  - unfold pause, bind, voice_client, bind, gets.
    destruct (voice_clients s !! guild_id ctx) as [vc|] eqn:Hv; simpl; [|done].
    destruct (is_playing vc) eqn:Hp; simpl;
      [|by eapply flag_same; [..|exact Hs]].
    apply flag_voice_update; [|done]. intros Hf.
    unfold is_playing in Hp. rewrite (Hs _ _ Hf Hv) in Hp. done.
  - unfold resume, bind, voice_client, bind, gets.
    destruct (voice_clients s !! guild_id ctx) as [vc|] eqn:Hv; simpl; [|done].
    destruct (is_paused vc) eqn:Hp; simpl;
      [|by eapply flag_same; [..|exact Hs]].
    apply flag_voice_update; [|done]. intros Hf.
    unfold is_paused in Hp. rewrite (Hs _ _ Hf Hv) in Hp. done.
  - revert s Hs. change (preserves flag_means_stopped (queue ctx)).
    unfold queue, send. flagged.
  - revert s Hs. change (preserves flag_means_stopped (skip ctx)).
    unfold skip, voice_client, send, set_voice_client. flagged.
  - revert s Hs. change (preserves flag_means_stopped (clear ctx)).
    unfold clear, send. flagged.
  - unfold stop, bind, gets, voice_client, bind, gets.
    assert (forall s0, voice_clients s0 = voice_clients s ->
              stop_flags s0 = stop_flags s ->
              flag_means_stopped
                (let (r, s') :=
                   match voice_clients s0 !! guild_id ctx with
                   | Some vc => ret vc
                   | None => raise (none_has_no "is_playing")
                   end s0 in
                 match r with
                 | Ok a =>
                     let (r0, s'0) :=
                       (if is_playing a
                        then modify (with_stop_flags <[guild_id ctx:=true]>) >>
                             set_voice_client ctx (vc_stop a)
                        else ret ()) s' in
                     match r0 with
                     | Ok _ => send ctx "Music stopped and queue cleared." s'0
                     | Raise e => (Raise e, s'0)
                     end
                 | Raise e => (Raise e, s')
                 end).2) as Hgen.
    { intros s0 Hv0 Hf0.
      assert (flag_means_stopped s0) as Hs0 by (by eapply flag_same; [..|exact Hs]).
      destruct (voice_clients s0 !! guild_id ctx) as [vc|] eqn:Hv; simpl; [|done].
      destruct (is_playing vc); simpl; [|by eapply flag_same; [..|exact Hs0]].
      intros g1 vc1 Hf1 Hv1. simpl in Hv1.
      destruct (decide (guild_id ctx = g1)) as [<-|Hne].
      - rewrite lookup_insert_eq in Hv1. by simplify_eq.
      - rewrite lookup_insert_ne in Hv1 by done.
        unfold stopping in Hf1. simpl in Hf1.
        rewrite lookup_insert_ne in Hf1 by done. by apply (Hs0 g1). }
    destruct (song_queues s !! guild_id ctx);
      [by apply (Hgen (with_song_queues <[guild_id ctx := []]> s))
      |by apply (Hgen s)].
  - revert s Hs. change (preserves flag_means_stopped (set_token world ctx new_token)).
    unfold set_token. apply preserves_invoke.
    + unfold set_token_callback, send. flagged.
    + intros h err [= <-]. unfold owner_command_error, send. flagged.
  - revert s Hs.
    change (preserves flag_means_stopped (set_yt_cookie world ctx cookie_content)).
    unfold set_yt_cookie. apply preserves_invoke.
    + unfold set_yt_cookie_callback, send. flagged.
    + intros h err [= <-]. unfold owner_command_error, send. flagged.
  - revert s Hs. change (preserves flag_means_stopped (set_api_key world ctx api_key)).
    unfold set_api_key. apply preserves_invoke.
    + unfold set_api_key_callback, send. flagged.
    + intros h err [= <-]. unfold owner_command_error, send. flagged.
  - unfold track_finished, bind, modify. apply play_next_keeps_flag.
    intros g vc Hf Hv. simpl in Hv. unfold stopping in Hf. simpl in Hf.
    destruct (voice_clients s !! guild_id ctx) as [vc0|] eqn:Hv0.
    + destruct (decide (guild_id ctx = g)) as [<-|Hne].
      * rewrite lookup_insert_eq in Hv. simplify_eq. simpl.
        by rewrite (Hs _ _ Hf Hv0).
      * rewrite lookup_insert_ne in Hv by done. by apply (Hs g).
    + by apply (Hs g).
  - by apply play_next_keeps_flag.
Qed.

(** X15. In every state [OwnedBot.py] can be in, a guild whose stop flag
    is set has no audio player: while the flag is up, nothing plays or is
    paused there. *)
Theorem stop_flag_means_no_player s :
  reachable s -> flag_means_stopped s.
Proof.
  intros Hr. induction Hr as [|world e s Hr IH].
  - intros g vc Hf. unfold stopping in Hf. simpl in Hf.
    by rewrite lookup_empty in Hf.
  - by apply handle_keeps_flag.
Qed.

Lemma stop_flag_means_no_player_witness :
  stopping (stop Sample.ctx Sample.playing1).2 1 = true /\
  flag_means_stopped (stop Sample.ctx Sample.playing1).2.
Proof.
  split; [reflexivity|].
  apply stop_flag_means_no_player.
  apply (reachable_step initial Sample.world (Stop Sample.ctx)),
        (reachable_step initial Sample.world (Play Sample.ctx "album")),
        (reachable_step initial Sample.world (Join Sample.ctx "ann")),
        reachable_here.
Defined.


(** X16. In [OwnedBot.py], when the author is in a voice channel and the
    guild has no voice client, [join] gives the guild a connected, idle
    voice client and sends nothing, and a [leave] after it returns to the
    state before the [join]. *)
Theorem join_then_leave_round_trip ctx author_name s :
  author_in_voice ctx = true ->
  voice_clients s !! guild_id ctx = None ->
  (join ctx author_name s).1 = Ok tt /\
  voice_clients (join ctx author_name s).2 !! guild_id ctx
    = Some {| vc_connected := true; vc_player := None |} /\
  log (join ctx author_name s).2 = log s /\
  leave ctx (join ctx author_name s).2 = (Ok tt, s).
Proof.
  intros Hin Hv. unfold join, leave. rewrite Hin. simpl.
  unfold bind, gets, voice_client, bind, gets. rewrite Hv. simpl.
  rewrite lookup_insert_eq. simpl. repeat split; try done.
  unfold modify, with_voice_clients. simpl.
  rewrite delete_insert_id by done. by destruct s.
Qed.

Lemma join_then_leave_round_trip_witness :
  leave Sample.ctx (join Sample.ctx "ann" initial).2 = (Ok tt, initial).
Proof.
  exact (proj2 (proj2 (proj2 (join_then_leave_round_trip Sample.ctx "ann"
                                initial eq_refl eq_refl)))).
Defined.


(** X17. When the resolver fails or returns a playlist without entries,
    [play] of [OwnedBot.py] returns normally after one message (the error
    of the resolver, or "Could not find any songs with that query."):
    apart from the empty queue that [play] creates for a guild that has
    none, the state is as before, and nothing is queued or played. *)
Theorem play_reports_failed_resolution world ctx query s u :
  selection (search_results s) (guild_id ctx) query = Ok (Some u) ->
  let g := guild_id ctx in
  let after text :=
    (Ok tt, emit (Send g text) (emit (Extract u) (queue_ensured g s))) in
  match ytdl_extract_info world u with
  | Raise e =>
      play world ctx query s = after ("An error occurred: " +:+ exn_str e)
  | Ok (Playlist []) =>
      play world ctx query s = after "Could not find any songs with that query."
  | Ok _ => True
  end.
Proof.
  intros Hsel g after. subst g after.
  destruct (OwnedBotProofs.queue_ensured_fields (guild_id ctx) s) as (Hsr & _).
  destruct (ytdl_extract_info world u) as [[[|e es]|d]|err] eqn:Hy; try done;
    unfold play, bind; rewrite OwnedBotProofs.ensure_queue_spec;
    unfold try_except, play_try, bind, gets; rewrite Hsr, Hsel;
    unfold from_url, bind, modify; rewrite Hy; reflexivity.
Qed.

Lemma play_reports_failed_resolution_witness :
  play Scenario.offline Sample.ctx "song" Sample.joined1 =
  (Ok tt,
   emit (Send 1 "An error occurred: ERROR: Unable to download webpage")
     (emit (Extract "song") (queue_ensured 1 Sample.joined1))).
Proof.
  exact (play_reports_failed_resolution Scenario.offline Sample.ctx "song"
           Sample.joined1 "song" eq_refl).
Defined.

(** X18. In a guild of [OwnedBot.py] without a voice client, [leave],
    [skip] and [stop] raise the AttributeError of [None] and send
    nothing; [leave] and [skip] change nothing, and [stop] has emptied
    the queue of the guild before it raises. *)
Theorem commands_without_voice_client_raise ctx s :
  voice_clients s !! guild_id ctx = None ->
  let g := guild_id ctx in
  leave ctx s = (Raise (none_has_no "is_connected"), s) /\
  skip ctx s = (Raise (none_has_no "is_playing"), s) /\
  (stop ctx s).1 = Raise (none_has_no "is_playing") /\
  pending (stop ctx s).2 g = [] /\
  stop_flags (stop ctx s).2 = stop_flags s /\
  voice_clients (stop ctx s).2 = voice_clients s /\
  log (stop ctx s).2 = log s.
Proof.
  intros Hvc g. subst g.
  split; [unfold leave, voice_client, bind, gets; by rewrite Hvc|].
  split; [unfold skip, voice_client, bind, gets; by rewrite Hvc|].
  assert (exists s0, stop ctx s = (Raise (none_has_no "is_playing"), s0) /\
            pending s0 (guild_id ctx) = [] /\ stop_flags s0 = stop_flags s /\
            voice_clients s0 = voice_clients s /\ log s0 = log s)
    as (s0 & -> & H); [|done].
  unfold stop, voice_client, pending. unfold bind, gets.
  destruct (song_queues s !! guild_id ctx) eqn:Hq; simpl; rewrite Hvc.
  - eexists. split; [done|]. simpl. by rewrite lookup_insert_eq.
  - eexists. split; [done|]. by rewrite Hq.
Qed.

Lemma commands_without_voice_client_raise_witness :
  leave Sample.ctx initial = (Raise (none_has_no "is_connected"), initial) /\
  skip Sample.ctx initial = (Raise (none_has_no "is_playing"), initial) /\
  (stop Sample.ctx initial).1 = Raise (none_has_no "is_playing").
Proof.
  destruct (commands_without_voice_client_raise Sample.ctx initial eq_refl)
    as (Hl & Hs & Ht & _).
  split; [exact Hl|]. split; [exact Hs|exact Ht].
Defined.

End OwnedBotPlayback.


(** ** OwnDMusicBot.2.0.py: the guilds, the search results and the credentials *)

Module OwnDMusicBot2Frame.
Import OwnDMusicBot2.

Ltac elsewhere2 Hne :=
  preserving;
  try (apply preserves_modify; intros ? (? & ? & ?);
       unfold guild_view in *; simpl in *;
       repeat case_match; simpl;
       rewrite ?lookup_insert_ne, ?lookup_delete_ne by exact Hne;
       rewrite ?sent_Extract, ?sent_VoicePlay, ?played_Send, ?played_Extract;
       rewrite ?sent_Send_elsewhere, ?played_VoicePlay_elsewhere by exact Hne;
       done).

Lemma drain_preserves (Q : State -> Prop) g q :
  (forall q' s, Q s -> Q (with_song_queues <[g := q']> s)) ->
  preserves Q (drain g q).
Proof.
  intros HQ. induction q as [|r q IH]; simpl.
  - apply preserves_ret.
  - apply preserves_bind; [|by intros _]. apply preserves_modify. intros s. apply HQ.
Qed.

(** X19. An event in one guild changes nothing of what the 2.0 cog keeps
    for another guild (its queue, search results and voice client), sends
    nothing to it and plays nothing in it. *)
Theorem other_guilds_stay_untouched_2_0 world e s g :
  guild_id (event_ctx e) <> g ->
  let s' := (handle world e s).2 in
  guild_view s' g = guild_view s g /\
  sent g (log s') = sent g (log s) /\
  played g (log s') = played g (log s).
Proof.
  intros Hne s'. subst s'.
  enough (preserves (fun s' => guild_view s' g = guild_view s g /\
                               sent g (log s') = sent g (log s) /\
                               played g (log s') = played g (log s))
            (handle world e)) as H by (by apply H).
  assert (forall ctx, guild_id ctx <> g ->
            preserves (fun s' => guild_view s' g = guild_view s g /\
                                 sent g (log s') = sent g (log s) /\
                                 played g (log s') = played g (log s))
              (play_next ctx)) as Hnext.
  { intros ctx Hc. unfold play_next, get_queue, voice_play, voice_client,
      set_voice_client, send. elsewhere2 Hc. }
  destruct e; simpl in Hne; simpl.
  - unfold join, send, set_voice_client. elsewhere2 Hne.
  - unfold leave. elsewhere2 Hne.
  - unfold search, send. elsewhere2 Hne.
  - specialize (Hnext ctx Hne). unfold play, play_try.
    revert Hnext. generalize (play_next ctx). intros advance Hnext.
    unfold get_queue, from_url, construct, enqueue, put, send, voice_client.
    elsewhere2 Hne. all: exact Hnext.
  - unfold volume, send. elsewhere2 Hne.
  - unfold nowplaying, send. elsewhere2 Hne.
  - unfold queue_info, get_queue, send. elsewhere2 Hne.
  - unfold skip, send, set_voice_client. elsewhere2 Hne.
  - unfold stop, get_queue, send, set_voice_client. elsewhere2 Hne.
    all: apply drain_preserves; intros q' s0 (? & ? & ?);
         unfold guild_view in *; simpl;
         rewrite lookup_insert_ne by exact Hne; done.
  - unfold set_token, set_token_callback, send.
    apply preserves_invoke; [elsewhere2 Hne|done].
  - unfold set_api_key, set_api_key_callback, send.
    apply preserves_invoke; [elsewhere2 Hne|done].
  - specialize (Hnext ctx Hne). unfold track_finished.
    revert Hnext. generalize (play_next ctx). intros advance Hnext.
    elsewhere2 Hne. exact Hnext.
  - by apply Hnext.
Qed.

Lemma other_guilds_stay_untouched_2_0_witness :
  let s' := (handle Sample.world (Play Sample.ctx "album") Sample.joined2).2 in
  guild_view s' 2 = guild_view Sample.joined2 2 /\
  sent 2 (log s') = sent 2 (log Sample.joined2) /\
  played 2 (log s') = played 2 (log Sample.joined2).
Proof.
  apply (other_guilds_stay_untouched_2_0 Sample.world (Play Sample.ctx "album")
           Sample.joined2 2).
  simpl. lia.
Defined.


Ltac keeping2 :=
  preserving; try (apply preserves_modify; intros ? ?; simpl in *; done).

Ltac draining :=
  try (apply drain_preserves; intros ? ? ?; simpl in *; done).

(** X20. The search results of the 2.0 cog change in one way only: a
    [search] given while an API key is set, whose API call returns at
    least one video, replaces the results of its guild by what the call
    returned. A search without an API key, without results or that fails,
    and every other event, leave the results of every guild as they
    are. *)
Theorem results_change_by_search_only_2_0 world e s :
  search_results (handle world e s).2 =
  match e with
  | Search ctx query =>
      if bool_decide (YOUTUBE_API_KEY s = "") then search_results s
      else
        match youtube_search world (YOUTUBE_API_KEY s) query with
        | Ok (video :: videos) =>
            <[guild_id ctx := video :: videos]> (search_results s)
        | _ => search_results s
        end
  | _ => search_results s
  end.
Proof.
  destruct e;
    try (enough (preserves (fun s' => search_results s' = search_results s)
                   (handle world _)) as H by (by apply H); simpl).
  - unfold join, send, set_voice_client. keeping2.
  - unfold leave. keeping2.
  - simpl. unfold search, try_except, bind, gets.
    case_bool_decide; [done|].
    by destruct (youtube_search world (YOUTUBE_API_KEY s) query) as [[|v vs]|err].
  - unfold play, play_try, get_queue, from_url, construct, enqueue, put, send,
      voice_client, play_next, get_queue, voice_play, voice_client,
      set_voice_client, send.
    keeping2.
  - unfold volume, send. keeping2.
  - unfold nowplaying, send. keeping2.
  - unfold queue_info, get_queue, send. keeping2.
  - unfold skip, send, set_voice_client. keeping2.
  - unfold stop, get_queue, send, set_voice_client. keeping2. all: draining.
  - unfold set_token, set_token_callback, send.
    apply preserves_invoke; [keeping2|done].
  - unfold set_api_key, set_api_key_callback, send.
    apply preserves_invoke; [keeping2|done].
  - unfold track_finished, play_next, get_queue, voice_play, voice_client,
      set_voice_client, send. keeping2.
  - unfold play_next, get_queue, voice_play, voice_client, set_voice_client,
      send. keeping2.
Qed.

(** X21. The credentials of the 2.0 variant (token, API key) change only
    through an owner command invoked by the owner: every other event, and
    every owner command invoked by someone else, leaves them as they
    are. The owner's [set_token] stores any token, without a test login,
    and leaves the API key; the owner's [set_api_key] stores the key and
    leaves the token. *)
Theorem config_changes_by_owner_only_2_0 world e s :
  config (handle world e s).2 =
  match e with
  | SetToken ctx new_token =>
      if bool_decide (author_id ctx = owner_id world)
      then (new_token, YOUTUBE_API_KEY s) else config s
  | SetApiKey ctx api_key =>
      if bool_decide (author_id ctx = owner_id world)
      then (TOKEN s, api_key) else config s
  | _ => config s
  end.
Proof.
  destruct e;
    try (enough (preserves (fun s' => config s' = config s)
                   (handle world _)) as H by (by apply H); simpl).
  - unfold join, send, set_voice_client. keeping2.
  - unfold leave. keeping2.
  - unfold search, send. keeping2.
  - unfold play, play_try, get_queue, from_url, construct, enqueue, put, send,
      voice_client, play_next, get_queue, voice_play, voice_client,
      set_voice_client, send.
    keeping2.
  - unfold volume, send. keeping2.
  - unfold nowplaying, send. keeping2.
  - unfold queue_info, get_queue, send. keeping2.
  - unfold skip, send, set_voice_client. keeping2.
  - unfold stop, get_queue, send, set_voice_client. keeping2. all: draining.
  - simpl. unfold set_token, is_owner, invoke. by case_bool_decide.
  - simpl. unfold set_api_key, is_owner, invoke. by case_bool_decide.
  - unfold track_finished, play_next, get_queue, voice_play, voice_client,
      set_voice_client, send. keeping2.
  - unfold play_next, get_queue, voice_play, voice_client, set_voice_client,
      send. keeping2.
Qed.

End OwnDMusicBot2Frame.

(** ** OwnDMusicBot.2.0.py: play, skip, stop and volume *)

Module OwnDMusicBot2Playback.
Import OwnDMusicBot2 OwnDMusicBot2Proofs.

(** [play_try] when the resolver answers with one or more tracks. *)
Lemma play_try_resolved2 world ctx query s u info :
  selection (search_results s) (guild_id ctx) query = Ok u ->
  ytdl_extract_info world u = Ok info ->
  entries_of info <> [] ->
  let g := guild_id ctx in
  let players := seq (length (objects s)) (length (entries_of info)) in
  exists added,
    let s1 :=
      emit (Send g added)
        (with_song_queues <[g := pending s g ++ players]>
           (with_objects (fun o => o ++ (new_YTDLSource <$> entries_of info))
              (emit (Extract u) s))) in
    play_try world ctx query s =
    match voice_clients s !! g with
    | None => (Raise (none_has_no "is_playing"), s1)
    | Some vc => if is_playing vc then (Ok tt, s1) else play_next ctx s1
    end.
Proof.
  intros Hsel Hinfo Hne g players. subst g.
  unfold play_try, bind at 1, gets at 1. rewrite Hsel.
  unfold bind at 1, ret at 1. unfold bind at 1.
  rewrite (from_url_objects _ _ _ _ Hinfo). fold players.
  assert (exists p ps, players = p :: ps) as (p & ps & Hpl).
  { subst players. destruct (entries_of info); [done|]. simpl. by eexists _, _. }
  unfold bind at 1. rewrite put_all_nonempty by (by rewrite Hpl).
  set (s2 := with_song_queues _ _).
  unfold bind at 1.
  assert (Hsent : exists t,
    (if 1 <? len players
     then send ctx ("**Added " +:+ pretty (len players) +:+ " songs to the queue.**")
     else match players with
          | first :: _ =>
              (let* s := gets id in
               send ctx ("**Added to queue:** " +:+ title_of s first))
          | [] => raise list_index_out_of_range
          end) s2 = (Ok tt, emit (Send (guild_id ctx) t) s2)).
  { destruct (1 <? len players); [by eexists|]. rewrite Hpl. by eexists. }
  destruct Hsent as [t ->]. exists t. simpl.
  unfold voice_client. unfold bind, gets.
  change (voice_clients (emit (Send (guild_id ctx) t) s2)) with (voice_clients s).
  destruct (voice_clients s !! guild_id ctx) as [vc|]; [|done].
  simpl. by destruct (is_playing vc).
Qed.

Lemma get_queue_cases ctx s :
  get_queue ctx s =
  (Ok (pending s (guild_id ctx)),
   match song_queues s !! guild_id ctx with
   | Some _ => s
   | None => with_song_queues <[guild_id ctx := []]> s
   end).
Proof.
  unfold get_queue, pending, bind, gets.
  by destruct (song_queues s !! guild_id ctx).
Qed.

Lemma play_try_failed world ctx query s u :
  selection (search_results s) (guild_id ctx) query = Ok u ->
  match ytdl_extract_info world u with
  | Raise e => play_try world ctx query s = (Raise e, emit (Extract u) s)
  | Ok (Playlist []) =>
      play_try world ctx query s =
      (Raise list_index_out_of_range,
       with_objects (fun o => o ++ []) (emit (Extract u) s))
  | Ok _ => True
  end.
Proof.
  intros Hsel.
  destruct (ytdl_extract_info world u) as [[[|e es]|d]|err] eqn:Hinfo; try done.
  - unfold play_try, bind at 1, gets at 1. rewrite Hsel.
    unfold bind at 1, ret at 1. unfold bind at 1.
    by rewrite (from_url_objects _ _ _ _ Hinfo).
  - unfold play_try, bind at 1, gets at 1. rewrite Hsel.
    unfold bind at 1, ret at 1. unfold bind at 1.
    unfold from_url, bind at 1, modify at 1. by rewrite Hinfo.
Qed.

Lemma titles_of_new objs es :
  (fun r => from_option title "" ((objs ++ (new_YTDLSource <$> es)) !! r))
    <$> seq (length objs) (length es)
  = entry_title <$> es.
Proof.
  apply list_eq. intros i. rewrite !list_lookup_fmap.
  destruct (es !! i) as [e|] eqn:He; simpl.
  - rewrite lookup_seq_lt by (by eapply lookup_lt_Some). simpl.
    rewrite lookup_app_r by lia.
    replace (length objs + i - length objs)%nat with i by lia.
    by rewrite list_lookup_fmap, He.
  - rewrite lookup_seq_ge; [done|]. by apply lookup_ge_None.
Qed.

(** X22. When the resolver fails, [play] of the 2.0 variant returns
    normally after one message with the error of the resolver; when the
    resolver returns a playlist without entries, the message is the
    IndexError of [players[0]]. In both cases nothing is queued or played
    and, apart from the empty queue that [get_queue] creates for a guild
    that has none, the state is as before. *)
Theorem failed_resolution_is_reported_2_0 world ctx query s u :
  selection (search_results s) (guild_id ctx) query = Ok u ->
  let g := guild_id ctx in
  let s' := (play world ctx query s).2 in
  let text :=
    match ytdl_extract_info world u with
    | Raise e => Some ("An error occurred: " +:+ exn_str e)
    | Ok (Playlist []) => Some "An error occurred: list index out of range"
    | Ok _ => None
    end in
  forall t, text = Some t ->
    (play world ctx query s).1 = Ok tt /\
    log s' = log s ++ [Extract u; Send g t] /\
    pending s' g = pending s g /\
    (forall g', g' <> g -> song_queues s' !! g' = song_queues s !! g') /\
    search_results s' = search_results s /\
    voice_clients s' = voice_clients s /\
    objects s' = objects s /\
    config s' = config s.
Proof.
  intros Hsel g s' text t Ht. subst g s' text.
  unfold play, bind. rewrite get_queue_cases.
  set (s0 := match song_queues s !! guild_id ctx with
             | Some _ => s
             | None => with_song_queues <[guild_id ctx := []]> s
             end).
  assert (search_results s0 = search_results s /\ voice_clients s0 = voice_clients s /\
          objects s0 = objects s /\ log s0 = log s /\ config s0 = config s /\
          pending s0 (guild_id ctx) = pending s (guild_id ctx) /\
          forall g', g' <> guild_id ctx -> song_queues s0 !! g' = song_queues s !! g')
    as (Hsr & Hv & Hobj & Hlog & Hcfg & Hpend & Hrest).
  { subst s0. unfold pending.
    destruct (song_queues s !! guild_id ctx) eqn:Hq; simpl.
    { by rewrite Hq. }
    rewrite ?lookup_insert_eq, ?Hq. repeat split; try done.
    intros g' Hg'. by rewrite lookup_insert_ne. }
  clearbody s0. rewrite <- Hsr in Hsel.
  pose proof (play_try_failed world ctx query s0 u Hsel) as Htry.
  unfold try_except.
  destruct (ytdl_extract_info world u) as [[[|e es]|d]|err]; try done;
    injection Ht as <-; rewrite Htry; unfold pending in *; simpl;
    rewrite ?app_nil_r, Hlog, <- app_assoc; done.
Qed.

Lemma failed_resolution_is_reported_2_0_witness :
  let s' := (play Scenario.offline Sample.ctx "song" Sample.joined2).2 in
  (play Scenario.offline Sample.ctx "song" Sample.joined2).1 = Ok tt /\
  log s' =
    [Extract "song";
     Send 1 "An error occurred: ERROR: Unable to download webpage"] /\
  pending s' 1 = [] /\
  objects s' = [].
Proof.
  destruct (failed_resolution_is_reported_2_0 Scenario.offline Sample.ctx
              "song" Sample.joined2 "song" eq_refl
              "An error occurred: ERROR: Unable to download webpage" eq_refl)
    as (Hok & Hl & Hp & _ & _ & _ & Ho & _).
  split; [exact Hok|]. split; [exact Hl|]. split; [exact Hp|exact Ho].
Defined.

(** X23. A [play] of the 2.0 variant whose query resolves to one or more
    tracks, in a guild with a connected voice client: one new instance
    per entry is made, with the titles of the entries in the order of the
    provider, and goes to the back of the queue in that order. While a
    track plays that is all; otherwise the front of the resulting queue
    is handed to the voice client at once and the others stay pending. *)
Theorem play_with_voice_client_2_0 world ctx query s u info vc :
  selection (search_results s) (guild_id ctx) query = Ok u ->
  ytdl_extract_info world u = Ok info ->
  entries_of info <> [] ->
  voice_clients s !! guild_id ctx = Some vc ->
  vc_connected vc = true ->
  let g := guild_id ctx in
  let players := seq (length (objects s)) (length (entries_of info)) in
  let s' := (play world ctx query s).2 in
  (play world ctx query s).1 = Ok tt /\
  objects s' = objects s ++ (new_YTDLSource <$> entries_of info) /\
  title_of s' <$> players = entry_title <$> entries_of info /\
  pending s' g =
    (if is_playing vc then pending s g ++ players
     else drop 1 (pending s g ++ players)) /\
  played g (log s') =
    played g (log s) ++
    (if is_playing vc then [] else take 1 (pending s g ++ players)).
Proof.
  intros Hsel Hinfo Hne Hvc Hconn g players s'. subst g s'.
  unfold play, bind. rewrite get_queue_cases.
  set (s0 := match song_queues s !! guild_id ctx with
             | Some _ => s
             | None => with_song_queues <[guild_id ctx := []]> s
             end).
  assert (search_results s0 = search_results s /\ voice_clients s0 = voice_clients s /\
          objects s0 = objects s /\ log s0 = log s /\
          pending s0 (guild_id ctx) = pending s (guild_id ctx))
    as (Hsr & Hv & Hobj & Hlog & Hpend).
  { subst s0. unfold pending.
    destruct (song_queues s !! guild_id ctx) eqn:Hq; simpl.
    { by rewrite Hq. }
    by rewrite ?lookup_insert_eq, ?Hq. }
  clearbody s0. rewrite <- Hsr in Hsel. rewrite <- Hv in Hvc.
  destruct (play_try_resolved2 world ctx query s0 u info Hsel Hinfo Hne)
    as [added Htry].
  simpl in Htry. rewrite Hvc, Hobj, Hpend in Htry. fold players in Htry.
  unfold try_except. rewrite Htry. clear Htry.
  set (s1 := emit _ _).
  assert (objects s1 = objects s ++ (new_YTDLSource <$> entries_of info)) as Ho1
    by (subst s1; simpl; by rewrite Hobj).
  assert (pending s1 (guild_id ctx) = pending s (guild_id ctx) ++ players) as Hp1
    by (subst s1; unfold pending; simpl; by rewrite lookup_insert_eq).
  assert (played (guild_id ctx) (log s1) = played (guild_id ctx) (log s)) as Hl1
    by (subst s1; simpl; by rewrite played_Send, played_Extract, Hlog).
  assert (voice_clients s1 !! guild_id ctx = Some vc) as Hv1 by (subst s1; done).
  assert (forall s2, objects s2 = objects s1 ->
            title_of s2 <$> players = entry_title <$> entries_of info) as Htitles.
  { intros s2 Ho2. unfold title_of. rewrite Ho2, Ho1. subst players.
    apply titles_of_new. }
  clearbody s1.
  destruct (is_playing vc) eqn:Hplay.
  - simpl. rewrite app_nil_r. repeat split; try done. by apply Htitles.
  - destruct (advance_step ctx s1 vc Hv1 Hconn Hplay) as (Hr & _ & Hpl & Hpe).
    assert (Hsame : objects (play_next ctx s1).2 = objects s1).
    { assert (preserves (fun s2 => objects s2 = objects s1) (play_next ctx)) as H.
      { unfold play_next, get_queue, voice_play, voice_client, set_voice_client,
          send. OwnDMusicBot2Frame.keeping2. }
      by apply H. }
    destruct (play_next ctx s1) as [[[]|err] s2]; simpl in *; [|done].
    rewrite Hpe, Hpl, Hp1, Hl1, Hsame. repeat split; try done.
    by apply Htitles.
Qed.

Lemma play_with_voice_client_2_0_witness :
  let s' := (play Sample.world Sample.ctx "song" Sample.playing2).2 in
  pending s' 1 = [1; 2; 3]%nat /\
  title_of s' <$> [3%nat] = ["song"] /\
  played 1 (log s') = [0%nat].
Proof.
  destruct (play_with_voice_client_2_0 Sample.world Sample.ctx "song"
              Sample.playing2 "song" (Single (Sample.entry "song"))
              (Scenario.playing 0%nat)
              eq_refl eq_refl) as (_ & _ & Ht & Hp & Hl); [done|done|done|].
  split; [exact Hp|]. split; [exact Ht|exact Hl].
Defined.

(** X24. [skip] of the 2.0 variant while a track plays stops the voice
    client and sends "Skipped the song."; the [after] callback of the
    skipped track then starts the front of the queue and announces it,
    or, when the queue is empty, does nothing at all. *)
Theorem skipped_track_gives_way_2_0 ctx s vc :
  voice_clients s !! guild_id ctx = Some vc ->
  vc_connected vc = true ->
  is_playing vc = true ->
  let g := guild_id ctx in
  let s1 := (skip ctx s).2 in
  let s2 := (play_next ctx s1).2 in
  skip ctx s =
    (Ok tt, emit (Send g "Skipped the song.")
              (with_voice_clients <[g := vc_stop vc]> s)) /\
  (play_next ctx s1).1 = Ok tt /\
  match pending s g with
  | p :: rest =>
      pending s2 g = rest /\
      (exists vc2, voice_clients s2 !! g = Some vc2 /\
                   source vc2 = Some p /\ is_playing vc2 = true) /\
      log s2 = log s ++ [Send g "Skipped the song."; VoicePlay g p;
                         Send g ("**Now playing:** " +:+ title_of s p)]
  | [] =>
      pending s2 g = [] /\
      voice_clients s2 !! g = Some (vc_stop vc) /\
      objects s2 = objects s /\
      log s2 = log s ++ [Send g "Skipped the song."]
  end.
Proof.
  intros Hvc Hconn Hplay g s1 s2. subst g.
  assert (skip ctx s =
          (Ok tt, emit (Send (guild_id ctx) "Skipped the song.")
                    (with_voice_clients <[guild_id ctx := vc_stop vc]> s))) as Hskip.
  { unfold skip, bind, gets. rewrite Hvc, Hplay. done. }
  subst s2 s1. rewrite Hskip. split; [done|]. simpl.
  unfold play_next, get_queue, pending. unfold bind, gets. simpl.
  destruct (song_queues s !! guild_id ctx) as [[|p rest]|] eqn:Hq; simpl;
    rewrite ?lookup_insert_eq; simpl.
  - by rewrite Hq.
  - unfold voice_play, voice_client, bind, gets. simpl.
    rewrite lookup_insert_eq. simpl. unfold vc_play. simpl. rewrite Hconn. simpl.
    rewrite !lookup_insert_eq. simpl. split; [done|]. split; [done|].
    split; [by eexists|]. by rewrite <- !app_assoc.
  - done.
Qed.

Lemma skipped_track_gives_way_2_0_witness :
  let s1 := (skip Sample.ctx Sample.playing2).2 in
  let s2 := (play_next Sample.ctx s1).2 in
  pending s2 1 = [2%nat] /\
  log s2 = log Sample.playing2 ++
    [Send 1 "Skipped the song."; VoicePlay 1 1%nat; Send 1 "**Now playing:** B"].
Proof.
  destruct (skipped_track_gives_way_2_0 Sample.ctx Sample.playing2
              (Scenario.playing 0%nat) eq_refl eq_refl eq_refl)
    as (_ & _ & Hp & _ & Hl).
  split; [exact Hp|exact Hl].
Defined.

Lemma stop_cases ctx s :
  exists s0,
    stop ctx s =
    (Ok tt,
     emit (Send (guild_id ctx) "Music stopped and queue cleared.")
       match voice_clients s !! guild_id ctx with
       | Some vc => with_voice_clients <[guild_id ctx := vc_stop vc]> s0
       | None => s0
       end) /\
    song_queues s0 !! guild_id ctx = Some [] /\
    voice_clients s0 = voice_clients s /\ objects s0 = objects s /\
    log s0 = log s.
Proof.
  unfold stop, bind at 1. rewrite get_queue_cases.
  unfold bind at 1. rewrite drain_spec.
  set (s0 := match pending s (guild_id ctx) with [] => _ | _ => _ end).
  assert (song_queues s0 !! guild_id ctx = Some [] /\
          voice_clients s0 = voice_clients s /\ objects s0 = objects s /\
          log s0 = log s) as (Hq0 & Hv0 & Ho0 & Hl0).
  { subst s0. unfold pending.
    destruct (song_queues s !! guild_id ctx) as [[|p q]|] eqn:Hq; simpl;
      by rewrite ?lookup_insert_eq, ?Hq. }
  clearbody s0. exists s0. split; [|done].
  unfold bind, gets, set_voice_client, send, modify. rewrite Hv0.
  by destruct (voice_clients s !! guild_id ctx).
Qed.

(** X25. [stop] of the 2.0 variant always succeeds: it empties the queue
    of the guild, stops the voice client when there is one (a playing or
    a paused track alike), and sends one confirmation. The [after]
    callback of the stopped track then finds the queue empty and does
    nothing: no flag is needed to keep it from starting a track. *)
Theorem stop_then_callback_is_idle_2_0 ctx s :
  let g := guild_id ctx in
  let s1 := (stop ctx s).2 in
  (stop ctx s).1 = Ok tt /\
  song_queues s1 !! g = Some [] /\
  voice_clients s1 !! g = vc_stop <$> voice_clients s !! g /\
  objects s1 = objects s /\
  log s1 = log s ++ [Send g "Music stopped and queue cleared."] /\
  play_next ctx s1 = (Ok tt, s1).
Proof.
  intros g s1. subst s1 g.
  destruct (stop_cases ctx s) as (s0 & -> & Hq0 & Hv0 & Ho0 & Hl0).
  assert (forall s2, song_queues s2 = song_queues s0 ->
            play_next ctx s2 = (Ok tt, s2)) as Hidle.
  { intros s2 Hs2. unfold play_next, get_queue, bind, gets.
    rewrite Hs2, Hq0. done. }
  destruct (voice_clients s !! guild_id ctx) as [vc|] eqn:Hvc; simpl;
    rewrite ?lookup_insert_eq, ?Hv0, ?Hvc, ?Hl0, ?Hidle; done.
Qed.



(** X27. In the 2.0 variant a query that is a number of value 0 is not
    rejected: [int(query) - 1] is -1, which as a Python index is the last
    element, so the last result of the last search of the guild goes to
    the resolver. *)
Theorem ordinal_zero_wraps_around_2_0 world ctx query s videos video :
  isdigit query = true ->
  int query = Ok 0 ->
  search_results s !! guild_id ctx = Some videos ->
  last videos = Some video ->
  selection (search_results s) (guild_id ctx) query = Ok (watch_url video.2) /\
  exists rest,
    log (play world ctx query s).2 = log s ++ Extract (watch_url video.2) :: rest.
Proof.
  intros Hd Hz Hres Hlast.
  assert (selection (search_results s) (guild_id ctx) query
          = Ok (watch_url video.2)) as Hsel.
  { unfold selection. rewrite Hd, Hres, Hz. unfold getitem.
    assert (0 < len videos) as Hlen.
    { unfold len. destruct videos; [done|]. simpl. lia. }
    change (0 - 1) with (-1).
    change ((-1 <? - PY_SSIZE_T_MAX - 1) || (PY_SSIZE_T_MAX <? -1)) with false.
    change (-1 <? 0) with true. cbv iota zeta.
    rewrite (proj2 (Z.leb_le 0 (-1 + len videos))) by lia.
    rewrite (proj2 (Z.ltb_lt (-1 + len videos) (len videos))) by lia. simpl.
    rewrite last_lookup in Hlast.
    replace (Z.to_nat (-1 + len videos)) with (pred (length videos))
      by (unfold len; lia).
    by rewrite Hlast. }
  split; [done|].
  unfold play, bind. rewrite get_queue_cases.
  set (s0 := match song_queues s !! guild_id ctx with
             | Some _ => s
             | None => with_song_queues <[guild_id ctx := []]> s
             end).
  assert (search_results s0 = search_results s /\ log s0 = log s) as [Hsr Hlog]
    by (subst s0; by destruct (song_queues s !! guild_id ctx)).
  clearbody s0. rewrite <- Hsr in Hsel.
  destruct (play_try_extract world ctx query s0 _ Hsel) as [rest Hrest].
  unfold try_except.
  destruct (play_try world ctx query s0) as [[[]|err] s1]; simpl in *.
  - exists rest. by rewrite Hrest, Hlog.
  - exists (rest ++ [Send (guild_id ctx) ("An error occurred: " +:+ exn_str err)]).
    by rewrite Hrest, Hlog, <- app_assoc.
Qed.

Lemma ordinal_zero_wraps_around_2_0_witness :
  selection (search_results Sample.searched2) 1 "0"
    = Ok "https://www.youtube.com/watch?v=id2" /\
  exists rest,
    log (play Sample.world Sample.ctx "0" Sample.searched2).2 =
    log Sample.searched2 ++ Extract "https://www.youtube.com/watch?v=id2" :: rest.
Proof.
  exact (ordinal_zero_wraps_around_2_0 Sample.world Sample.ctx "0"
           Sample.searched2 [("first", "id1"); ("second", "id2")]
           ("second", "id2") eq_refl eq_refl eq_refl eq_refl).
Defined.

End OwnDMusicBot2Playback.


(** ** The numbers of a listing, read back *)

Lemma pretty_N_char_digit d :
  (d < 10)%N ->
  is_digit_char (pretty_N_char d) = true /\
  digit_val (pretty_N_char d) = Z.of_N d.
Proof.
  intros Hd. destruct d as [|p]; [done|].
  do 4 (try destruct p as [p|p|]); try done; lia.
Qed.

Lemma all_digits_pretty_N_go x : forall s,
  all_digits (pretty_N_go x s) = all_digits s.
Proof.
  induction (N.lt_wf_0 x) as [x _ IH]. intros s.
  destruct (decide (x = 0%N)) as [->|Hx]; [by rewrite pretty_N_go_0|].
  rewrite pretty_N_go_step by lia.
  rewrite IH by (apply N.div_lt; lia). simpl.
  destruct (pretty_N_char_digit (x `mod` 10)) as [-> _]; [|done].
  apply N.mod_lt. lia.
Qed.

Lemma pretty_N_go_nonempty x : forall s,
  (0 < x)%N -> exists c r, pretty_N_go x s = String c r.
Proof.
  induction (N.lt_wf_0 x) as [x _ IH]. intros s Hx.
  rewrite pretty_N_go_step by lia.
  destruct (decide (x `div` 10 = 0)%N) as [->|Hd].
  - rewrite pretty_N_go_0. by eexists _, _.
  - apply IH; [apply N.div_lt; lia|by apply N.neq_0_lt_0].
Qed.

Lemma pretty_N_go_digits x :
  exists k : nat,
    (x = 0%N -> k = 0%nat) /\
    (x <> 0%N -> (1 <= k)%nat /\ 10 ^ (Z.of_nat k - 1) <= Z.of_N x) /\
    forall acc s,
      int_acc acc (pretty_N_go x s) = int_acc (acc * 10 ^ Z.of_nat k + Z.of_N x) s /\
      String.length (pretty_N_go x s) = (k + String.length s)%nat.
Proof.
  induction (N.lt_wf_0 x) as [x _ IH].
  destruct (decide (x = 0%N)) as [->|Hx].
  { exists 0%nat. split; [done|]. split; [done|]. intros acc s.
    rewrite pretty_N_go_0. split; [|done]. f_equal. simpl. lia. }
  destruct (IH (x `div` 10)%N) as (k & Hk0 & Hk1 & Hk); [apply N.div_lt; lia|].
  exists (S k). split; [done|]. split.
  - intros _. split; [lia|].
    replace (Z.of_nat (S k) - 1) with (Z.of_nat k) by lia.
    destruct (decide (x `div` 10 = 0)%N) as [Hd|Hd].
    + rewrite (Hk0 Hd). simpl. lia.
    + destruct (Hk1 Hd) as [Hk2 Hk3].
      replace (Z.of_nat k) with (Z.succ (Z.of_nat k - 1)) by lia.
      rewrite Z.pow_succ_r by lia.
      rewrite N2Z.inj_div in Hk3. simpl Z.of_N in Hk3.
      pose proof (Z.mul_div_le (Z.of_N x) 10). lia.
  - intros acc s. rewrite pretty_N_go_step by lia.
    destruct (Hk acc (String (pretty_N_char (x `mod` 10)) s)) as [-> ->].
    split; [|simpl; lia].
    simpl. f_equal.
    destruct (pretty_N_char_digit (x `mod` 10)) as [_ ->]; [apply N.mod_lt; lia|].
    rewrite Nat2Z.inj_succ, Z.pow_succ_r by lia.
    rewrite N2Z.inj_mod, N2Z.inj_div. simpl Z.of_N.
    pose proof (Z.div_mod (Z.of_N x) 10). lia.
Qed.

(** A positive number written by an f-string is a string of digits, and
    [int] reads it back as the number when it has at most 4300 digits. *)
Lemma pretty_positive_is_read_back n :
  0 < n -> n < 10 ^ int_max_str_digits ->
  isdigit (pretty n) = true /\ int (pretty n) = Ok n.
Proof.
  intros Hn Hmax. destruct n as [|p|p]; try lia.
  change (pretty (Z.pos p)) with (pretty_N_go (N.pos p) "").
  destruct (pretty_N_go_nonempty (N.pos p) "") as (c & r & Heq); [lia|].
  destruct (pretty_N_go_digits (N.pos p)) as (k & _ & Hk1 & Hk).
  destruct (Hk 0 "") as [Hval Hlen].
  destruct Hk1 as [Hk1 Hk2]; [done|].
  destruct (numeral_is_read (pretty_N_go (N.pos p) "")) as [Hd Hi].
  - by rewrite Heq.
  - by rewrite all_digits_pretty_N_go.
  - split; [exact Hd|]. rewrite Hi.
    + rewrite Hval. simpl. f_equal; lia.
    + rewrite Hlen. simpl String.length.
      assert (Z.of_nat k - 1 < int_max_str_digits); [|lia].
      apply (Z.pow_lt_mono_r_iff 10); [lia|done|].
      simpl Z.of_N in Hk2. lia.
Qed.

(** An index of a list is written with far fewer digits than [int]
    accepts. *)
Lemma index_has_few_digits : PY_SSIZE_T_MAX < 10 ^ int_max_str_digits.
Proof. by vm_compute. Qed.

Lemma lookup_enumerate_from {A B} (f : Z * A -> B) (l : list A) : forall k i,
  (f <$> enumerate_from k l) !! i = (fun x => f (k + Z.of_nat i, x)) <$> l !! i.
Proof.
  induction l as [|x l IH]; intros k i; [done|].
  destruct i as [|i]; simpl.
  - by rewrite Z.add_0_r.
  - rewrite IH. destruct (l !! i); [|done]. simpl.
    by replace (k + 1 + Z.of_nat i) with (k + Z.pos (Pos.of_succ_nat i)) by lia.
Qed.

(** ** From a search to a play by number *)

Module OwnedBotSearch.
Import OwnedBot.

(** X28. In [OwnedBot.py], the number printed before a title in the
    listing of a [search] selects that title: after a search that found
    [videos], the listing shows the i-th of them (from 0) on its own line
    as "<i+1>. <title>", and a [play] of the text of that number sends
    the watch URL of that video to the resolver. (A Python list has at
    most [sys.maxsize] elements.) *)
Theorem listed_number_selects_listed_video world ctx query s videos i video :
  youtube_search world (YOUTUBE_API_KEY s) query = Ok videos ->
  len videos <= PY_SSIZE_T_MAX ->
  videos !! i = Some video ->
  let g := guild_id ctx in
  let s1 := (search world ctx query s).2 in
  let number := pretty (Z.of_nat i + 1) in
  (exists lines,
     log s1 = log s ++
       [Send g ("**Search Results:**" +:+ nl +:+ String.concat "" lines)] /\
     lines !! i = Some ((number +:+ ". " +:+ video.1) +:+ nl)) /\
  exists rest,
    log (play world ctx number s1).2 =
    log s1 ++ Extract (watch_url video.2) :: rest.
Proof.
  intros Hsearch Hfit Hi g s1 number.
  assert (videos <> []) as Hne by (by destruct videos).
  assert (s1 = emit (Send g ("**Search Results:**" +:+ nl +:+
                       String.concat ""
                         ((fun it => numbered (it.1, it.2.1) +:+ nl)
                            <$> enumerate videos)))
                 (with_search_results <[g := videos]> s)) as Hs1.
  { subst s1. unfold search, try_except, bind, gets. rewrite Hsearch.
    by destruct videos. }
  split.
  - eexists. rewrite Hs1. split; [done|].
    unfold enumerate. rewrite lookup_enumerate_from, Hi. done.
  - pose proof (lookup_lt_Some _ _ _ Hi) as Hlt.
    pose proof index_has_few_digits as Hfew.
    destruct (pretty_positive_is_read_back (Z.of_nat i + 1)) as [Hd Hint];
      [lia|unfold len in Hfit; lia|].
    fold number in Hd, Hint.
    destruct (OwnedBotProofs.play_number_selects world ctx number s1 videos
                (Z.of_nat i + 1) Hd)
      as (video' & rest & Hv & Hlog).
    + rewrite Hs1. simpl. by rewrite lookup_insert_eq.
    + exact Hint.
    + unfold len. lia.
    + exact Hfit.
    + replace (Z.to_nat (Z.of_nat i + 1 - 1)) with i in Hv by lia.
      rewrite Hi in Hv. injection Hv as <-. by exists rest.
Qed.

Lemma listed_number_selects_listed_video_witness :
  let s1 := (search Sample.world Sample.ctx "song" Sample.joined1).2 in
  exists rest,
    log (play Sample.world Sample.ctx "2" s1).2 =
    log s1 ++ Extract "https://www.youtube.com/watch?v=id2" :: rest.
Proof.
  exact (proj2 (listed_number_selects_listed_video Sample.world Sample.ctx
                  "song" Sample.joined1 [("first", "id1"); ("second", "id2")]
                  1%nat ("second", "id2") eq_refl ltac:(done) eq_refl)).
Defined.

End OwnedBotSearch.

Module OwnDMusicBot2Search.
Import OwnDMusicBot2.

(** X29. In the 2.0 variant, with an API key set, the number printed
    before a title in the listing of a [search] selects that title: after
    a search that found [videos], the listing shows the i-th of them
    (from 0) as the line "<i+1>. <title>", and a [play] of the text of
    that number sends the watch URL of that video to the resolver. (A
    Python list has at most [sys.maxsize] elements.) *)
Theorem number_of_listing_selects_video_2_0 world ctx query s videos i video :
  YOUTUBE_API_KEY s <> "" ->
  youtube_search world (YOUTUBE_API_KEY s) query = Ok videos ->
  len videos <= PY_SSIZE_T_MAX ->
  videos !! i = Some video ->
  let g := guild_id ctx in
  let s1 := (search world ctx query s).2 in
  let number := pretty (Z.of_nat i + 1) in
  (exists lines,
     log s1 = log s ++
       [Send g ("**Search Results:**" +:+ nl +:+ str_join nl lines)] /\
     lines !! i = Some (number +:+ ". " +:+ video.1)) /\
  exists rest,
    log (play world ctx number s1).2 =
    log s1 ++ Extract (watch_url video.2) :: rest.
Proof.
  intros Hkey Hsearch Hfit Hi g s1 number.
  assert (s1 = emit (Send g ("**Search Results:**" +:+ nl +:+
                       str_join nl
                         ((fun it => numbered (it.1, it.2.1))
                            <$> enumerate videos)))
                 (with_search_results <[g := videos]> s)) as Hs1.
  { subst s1. unfold search, try_except, bind, gets.
    rewrite bool_decide_eq_false_2 by done. rewrite Hsearch.
    by destruct videos. }
  split.
  - eexists. rewrite Hs1. split; [done|].
    unfold enumerate. rewrite lookup_enumerate_from, Hi. done.
  - pose proof (lookup_lt_Some _ _ _ Hi) as Hlt.
    pose proof index_has_few_digits as Hfew.
    destruct (pretty_positive_is_read_back (Z.of_nat i + 1)) as [Hd Hint];
      [lia|unfold len in Hfit; lia|].
    fold number in Hd, Hint.
    destruct (OwnDMusicBot2Proofs.play_number_selects2 world ctx number s1 videos
                (Z.of_nat i + 1) Hd)
      as (video' & rest & Hv & Hlog).
    + rewrite Hs1. simpl. by rewrite lookup_insert_eq.
    + exact Hint.
    + unfold len. lia.
    + exact Hfit.
    + replace (Z.to_nat (Z.of_nat i + 1 - 1)) with i in Hv by lia.
      rewrite Hi in Hv. injection Hv as <-. by exists rest.
Qed.

Lemma number_of_listing_selects_video_2_0_witness :
  let s1 := (search Sample.world Sample.ctx "song" Sample.joined2).2 in
  exists rest,
    log (play Sample.world Sample.ctx "2" s1).2 =
    log s1 ++ Extract "https://www.youtube.com/watch?v=id2" :: rest.
Proof.
  assert (YOUTUBE_API_KEY Sample.joined2 <> "") as Hkey by done.
  exact (proj2 (number_of_listing_selects_video_2_0 Sample.world Sample.ctx
                  "song" Sample.joined2 [("first", "id1"); ("second", "id2")]
                  1%nat ("second", "id2") Hkey eq_refl ltac:(done) eq_refl)).
Defined.

End OwnDMusicBot2Search.
